(** * Brute-force frequent itemsets and association rules

    A shallow embedding of [src/brute_force.py] ([_support_count],
    [frequent_itemsets_bruteforce], [association_rules_from_frequents]), of
    the loader, the encoder and the naming of [src/src/io_utils.py]
    ([load_transactions], [one_hot_encode], [dataset_name_from_path]) and of
    the prompt of [src/run_all.py] ([prompt_for_missing_args]), followed by
    the properties the specification states about the first three and by
    further properties of all of them.

    Modelling choices, all read off the Python source:
    - an item is a [str]; a transaction is a [list] of items;
    - a [frozenset] of items is a [gset string]: equality and hashing are by
      value, and the order in which a frozenset is iterated is not part of its
      value.  CPython derives that order from the per-process string hash, so
      it is a parameter of the model ([set_order]);
    - a [dict] keeps insertion order: an association list;
    - a Python [float] is an abstract carrier with the IEEE comparison
      (unordered on NaN) and the two divisions the code performs ([PyFloat]);
      binary64, as CPython has it, is the instance;
    - a raised exception and a loop that has not finished are results of the
      computation ([result], and [io_result] for the code that reads files
      and the terminal);
    - a text is the list of the bytes of its UTF-8 encoding; a file is its
      bytes; the terminal is the lines still to be typed and what has been
      written ([console]);
    - [float], [int], [str.isdigit] and [os.listdir] are parameters of the
      prompt. *)

From stdpp Require Import gmap strings list sorting pretty.
From Stdlib Require Import ZArith Lia SpecFloat.

Local Open Scope string_scope.
Local Open Scope list_scope.
Local Open Scope nat_scope.

(** ** Exceptions and unfinished loops *)

Inductive exn := ZeroDivisionError | KeyError.

Inductive result (A : Type) : Type :=
| Ok (a : A)
| Raise (e : exn)
| OutOfFuel.
Arguments Ok {A} a.
Arguments Raise {A} e.
Arguments OutOfFuel {A}.

#[global] Instance result_ret : MRet result := λ A a, Ok a.
#[global] Instance result_bind : MBind result := λ A B f r,
  match r with
  | Ok a => f a
  | Raise e => Raise e
  | OutOfFuel => OutOfFuel
  end.

(** [for x in xs: body] over a state that the body may update or abort. *)
Fixpoint for_each {A S} (body : S → A → result S) (xs : list A) (s : S) : result S :=
  match xs with
  | [] => Ok s
  | x :: xs' => s' ← body s x; for_each body xs' s'
  end.

(** ** Python floats *)

Class PyFloat := {
  float : Type;
  (** [a / b] on two non-negative ints, [b] not zero *)
  int_div : nat → nat → float;
  (** [x / y] on two floats, [y] not zero *)
  fdiv : float → float → float;
  (** unary minus *)
  fneg : float → float;
  (** IEEE comparison, [None] when a NaN is involved *)
  fcompare : float → float → option comparison;
  (** the float that the int [0] converts to *)
  fzero : float;
}.

Section FloatOps.
Context `{PyFloat}.

Definition py_ge (x y : float) : bool :=
  match fcompare x y with Some Gt | Some Eq => true | _ => false end.
Definition py_lt (x y : float) : bool :=
  match fcompare x y with Some Lt => true | _ => false end.
Definition py_eq (x y : float) : bool :=
  match fcompare x y with Some Eq => true | _ => false end.

(** int / int *)
Definition int_truediv (a b : nat) : result float :=
  if Nat.eqb b 0 then Raise ZeroDivisionError else Ok (int_div a b).

(** float / float *)
Definition float_truediv (x y : float) : result float :=
  if py_eq y fzero then Raise ZeroDivisionError else Ok (fdiv x y).
End FloatOps.

(** What the proofs use of the IEEE comparison: it is a total preorder away
    from NaN, negation reverses it, and a NaN numerator gives a NaN quotient. *)
Class PyFloatLaws (F : PyFloat) : Prop := {
  fcompare_antisym : ∀ x y, fcompare y x = CompOpp <$> fcompare x y;
  fcompare_unordered : ∀ x y,
    fcompare x y = None ↔ fcompare x x = None ∨ fcompare y y = None;
  fcompare_refl : ∀ x, fcompare x x = Some Eq ∨ fcompare x x = None;
  py_ge_trans : ∀ x y z, py_ge x y = true → py_ge y z = true → py_ge x z = true;
  fcompare_fneg : ∀ x y, fcompare (fneg x) (fneg y) = fcompare y x;
  fdiv_nan : ∀ x y, fcompare x x = None → fcompare (fdiv x y) (fdiv x y) = None;
}.

(** What they use of the division of two ints: on quotients that are at most
    one, rounding the exact quotient is monotone in the numerator. *)
Class IntDivMonotone (F : PyFloat) : Prop :=
  int_div_mono : ∀ a b n,
    a ≤ b → b ≤ n → 0 < n → py_ge (int_div b n) (int_div a n) = true.

(** *** binary64, as CPython has it *)

Definition b64_prec : Z := 53.
Definition b64_emax : Z := 1024.

(** The correctly rounded quotient of two positive ints. *)
Definition b64_div_pos (a n : Z) : spec_float :=
  let '(mz, ez, lz) := SFdiv_core_binary b64_prec b64_emax a 0 n 0 in
  binary_round_aux b64_prec b64_emax false mz ez lz.

(** The correctly rounded quotient of two ints. *)
Definition b64_int_div (a b : nat) : spec_float :=
  match a, b with
  | 0, 0 => S754_nan
  | 0, S _ => S754_zero false
  | S _, 0 => S754_infinity false
  | S _, S _ => b64_div_pos (Z.of_nat a) (Z.of_nat b)
  end.

Definition binary64 : PyFloat := {|
  float := spec_float;
  int_div := b64_int_div;
  fdiv := SFdiv b64_prec b64_emax;
  fneg := SFopp;
  fcompare := SFcompare;
  fzero := S754_zero false;
|}.

(** ** Strings, tuples and [sorted] *)

(** [s1 < s2] on [str]: lexicographic on code points, which is the byte order
    of the UTF-8 encoding held in a [string]. *)
Definition str_lt (s1 s2 : string) : bool := String.ltb s1 s2.

(** [t1 < t2] on tuples of [str]: the first position where the two differ
    decides, a proper prefix is smaller. *)
Fixpoint tuple_lt (t1 t2 : list string) : bool :=
  match t1, t2 with
  | [], [] => false
  | [], _ :: _ => true
  | _ :: _, [] => false
  | x :: t1', y :: t2' => if String.eqb x y then tuple_lt t1' t2' else str_lt x y
  end.

(** [list.sort] and [sorted] are stable and call only [<].  Insertion of each
    element in front of the first later element that is not smaller gives the
    stable order. *)
Fixpoint insert_before {A} (lt : A → A → bool) (x : A) (l : list A) : list A :=
  match l with
  | [] => [x]
  | y :: l' => if lt y x then y :: insert_before lt x l' else x :: y :: l'
  end.

Definition py_sort {A} (lt : A → A → bool) (l : list A) : list A :=
  foldr (insert_before lt) [] l.

Definition sorted (l : list string) : list string := py_sort str_lt l.

(** ** Frozensets *)

Abbreviation frozenset := (gset string).

(** The iteration order of frozensets in one interpreter process. *)
Record set_order := {
  tuple_of : frozenset → list string;
  tuple_of_perm : ∀ s, tuple_of s ≡ₚ elements s;
}.

(** [itertools.combinations(l, k)]: the [k]-element subsequences of [l], in
    lexicographic order of positions. *)
Fixpoint combinations {A} (l : list A) (k : nat) : list (list A) :=
  match k, l with
  | 0, _ => [[]]
  | S _, [] => []
  | S k', x :: l' => map (cons x) (combinations l' k') ++ combinations l' k
  end.

(** ** Dicts keyed by frozensets *)

Section Dict.
Context {V : Type}.

Definition dict := list (frozenset * V).

Fixpoint dict_get (m : dict) (key : frozenset) : option V :=
  match m with
  | [] => None
  | (k, v) :: m' => if decide (k = key) then Some v else dict_get m' key
  end.

(** [m[key] = v]: an existing key keeps its position. *)
Fixpoint dict_set (m : dict) (key : frozenset) (v : V) : dict :=
  match m with
  | [] => [(key, v)]
  | (k, v') :: m' =>
      if decide (k = key) then (k, v) :: m' else (k, v') :: dict_set m' key v
  end.

Definition dict_keys (m : dict) : list frozenset := m.*1.

(** [m[key]] *)
Definition dict_item (m : dict) (key : frozenset) : result V :=
  match dict_get m key with
  | Some v => Ok v
  | None => Raise KeyError
  end.
End Dict.
Arguments dict V : clear implicits.

(** ** The itemset enumerator *)

Definition transaction := list string.

Definition _support_count (transactions : list transaction) (itemset : frozenset) : nat :=
  fold_left
    (λ cnt t, if decide (itemset ⊆ list_to_set t) then cnt + 1 else cnt)
    transactions 0.

Section Enumerator.
Context `{PyFloat}.
Variable h : set_order.

(** One entry of the returned list: [{"itemset": ..., "support": ...}]. *)
Record freq_record := { itemset : list string; support : float }.

(** The variables of [frequent_itemsets_bruteforce] that the loops update.
    [evaluated] is ghost: the candidates handed to [_support_count] so far,
    in call order. *)
Record bf_state := {
  k : nat;
  support_map : dict float;
  freq_this_k : list frozenset;
  results : list freq_record;
  evaluated : list frozenset;
}.

(** [sorted({i for t in transactions for i in t})] *)
Definition unique_items (transactions : list transaction) : list string :=
  sorted (tuple_of h (list_to_set (concat transactions))).

(** The body of [for cand in candidates]. *)
Definition eval_candidate (transactions : list transaction) (min_support : float)
    (n_tx : nat) (st : bf_state) (cand : frozenset) : result bf_state :=
  let sup_count := _support_count transactions cand in
  sup ← int_truediv sup_count n_tx;
  let st := {| k := k st; support_map := support_map st;
               freq_this_k := freq_this_k st; results := results st;
               evaluated := evaluated st ++ [cand] |} in
  if py_ge sup min_support then
    Ok {| k := k st;
          support_map := dict_set (support_map st) cand sup;
          freq_this_k := freq_this_k st ++ [cand];
          results := results st ++ [{| itemset := tuple_of h cand; support := sup |}];
          evaluated := evaluated st |}
  else Ok st.

(** [while True:], one unit of fuel per iteration. *)
Fixpoint level_loop (fuel : nat) (transactions : list transaction)
    (min_support : float) (n_tx : nat) (unique_items : list string)
    (st : bf_state) : result bf_state :=
  match fuel with
  | 0 => OutOfFuel
  | S fuel' =>
      let candidates := map list_to_set (combinations unique_items (k st)) in
      st ← for_each (eval_candidate transactions min_support n_tx) candidates
             {| k := k st; support_map := support_map st; freq_this_k := [];
                results := results st; evaluated := evaluated st |};
      match freq_this_k st with
      | [] => Ok st
      | _ :: _ =>
          level_loop fuel' transactions min_support n_tx unique_items
            {| k := k st + 1; support_map := support_map st;
               freq_this_k := freq_this_k st; results := results st;
               evaluated := evaluated st |}
      end
  end.

(** The function up to its [return]: the state in which the loop was left. *)
Definition bruteforce_run (fuel : nat) (transactions : list transaction)
    (min_support : float) : result bf_state :=
  let n_tx := length transactions in
  let unique_items := unique_items transactions in
  level_loop fuel transactions min_support n_tx unique_items
    {| k := 1; support_map := []; freq_this_k := []; results := [];
       evaluated := [] |}.

Definition frequent_itemsets_bruteforce (fuel : nat)
    (transactions : list transaction) (min_support : float)
  : result (list freq_record * dict float) :=
  st ← bruteforce_run fuel transactions min_support;
  Ok (results st, support_map st).

End Enumerator.

(** ** The rule deriver *)

Section Deriver.
Context `{PyFloat}.
Variable h : set_order.

(** One entry of the returned list. *)
Record rule := {
  antecedent : list string;
  consequent : list string;
  rule_support : float;
  confidence : float;
}.

(** The body of [for antecedent in itertools.combinations(items, r)]. *)
Definition rule_candidate (support_map : dict float) (min_confidence : float)
    (L : frozenset) (L_support : float) (rules : list rule)
    (antecedent : list string) : result (list rule) :=
  let A : frozenset := list_to_set antecedent in
  let B := L ∖ A in
  if decide (B = ∅) then Ok rules
  else
    match dict_get support_map A with
    | None => Ok rules
    | Some sup_A =>
        if py_eq sup_A fzero then Ok rules
        else
          confidence ← float_truediv L_support sup_A;
          if py_ge confidence min_confidence then
            Ok (rules ++ [{| antecedent := sorted (tuple_of h A);
                             consequent := sorted (tuple_of h B);
                             rule_support := L_support;
                             confidence := confidence |}])
          else Ok rules
    end.

(** The body of [for L in frequents]. *)
Definition rules_of_itemset (support_map : dict float) (min_confidence : float)
    (rules : list rule) (L : frozenset) : result (list rule) :=
  L_support ← dict_item support_map L;
  let items := tuple_of h L in
  for_each
    (λ rules r,
       for_each (rule_candidate support_map min_confidence L L_support)
         (combinations items r) rules)
    (seq 1 (length items - 1)) rules.

(** The sort key [(-x["confidence"], -x["support"], x["antecedent"])] and
    [<] on two such keys. *)
Definition sort_key (x : rule) : float * float * list string :=
  (fneg (confidence x), fneg (rule_support x), antecedent x).

Definition key_lt (k1 k2 : float * float * list string) : bool :=
  let '(c1, s1, a1) := k1 in
  let '(c2, s2, a2) := k2 in
  if negb (py_eq c1 c2) then py_lt c1 c2
  else if negb (py_eq s1 s2) then py_lt s1 s2
  else tuple_lt a1 a2.

Definition association_rules_from_frequents (support_map : dict float)
    (min_confidence : float) : result (list rule) :=
  let frequents := filter (λ iset, 2 ≤ size iset) (dict_keys support_map) in
  rules ← for_each (rules_of_itemset support_map min_confidence) frequents [];
  Ok (py_sort (λ x y, key_lt (sort_key x) (sort_key y)) rules).

End Deriver.

(** * Reading the transactions: [src/src/io_utils.py] *)

(** ** Exceptions of the code that reads files and the terminal *)

Inductive io_exn :=
| FileNotFoundError
| UnicodeDecodeError
| ValueError
| IndexError
| EOFError.

Inductive io_result (A : Type) : Type :=
| Return (a : A)
| Throw (e : io_exn).
Arguments Return {A} a.
Arguments Throw {A} e.

#[global] Instance io_result_ret : MRet io_result := λ A a, Return a.
#[global] Instance io_result_bind : MBind io_result := λ A B f r,
  match r with
  | Return a => f a
  | Throw e => Throw e
  end.

(** ** Text *)

Abbreviation ascii := Ascii.ascii.

(** A [str] is a [string] where it is stored and compared, and the list of
    its characters where it is taken apart; both hold the bytes of its UTF-8
    encoding. *)
Definition chars (s : string) : list ascii := String.list_ascii_of_string s.
Definition str (l : list ascii) : string := String.string_of_list_ascii l.

Definition bytes (codes : list nat) : list ascii := Ascii.ascii_of_nat <$> codes.

Definition LF : ascii := Ascii.ascii_of_nat 10.
Definition CR : ascii := Ascii.ascii_of_nat 13.
Definition comma : ascii := Ascii.ascii_of_nat 44.
Definition dot : ascii := Ascii.ascii_of_nat 46.
Definition slash : ascii := Ascii.ascii_of_nat 47.

(** The characters for which [str.isspace] holds, which are the ones that
    [str.strip] removes: U+0009..U+000D, U+001C..U+0020, U+0085, U+00A0,
    U+1680, U+2000..U+200A, U+2028, U+2029, U+202F, U+205F and U+3000, each
    in UTF-8. *)
Definition py_whitespace : list (list ascii) :=
  bytes <$>
    [[9]; [10]; [11]; [12]; [13]; [28]; [29]; [30]; [31]; [32];
     [194; 133]; [194; 160]; [225; 154; 128];
     [226; 128; 128]; [226; 128; 129]; [226; 128; 130]; [226; 128; 131];
     [226; 128; 132]; [226; 128; 133]; [226; 128; 134]; [226; 128; 135];
     [226; 128; 136]; [226; 128; 137]; [226; 128; 138];
     [226; 128; 168]; [226; 128; 169]; [226; 128; 175];
     [226; 129; 159]; [227; 128; 128]].

(** [s] without its prefix [p], when it has it. *)
Fixpoint strip_prefix (p s : list ascii) : option (list ascii) :=
  match p, s with
  | [], _ => Some s
  | _ :: _, [] => None
  | a :: p', b :: s' => if decide (a = b) then strip_prefix p' s' else None
  end.

(** [s] without its first character, when that is one of [pats]. *)
Definition space_head (pats : list (list ascii)) (s : list ascii)
  : option (list ascii) :=
  foldr (λ p r, match strip_prefix p s with Some s' => Some s' | None => r end)
    None pats.

(** [while i < len(s) and s[i].isspace(): i += 1], one unit of fuel per
    character. *)
Fixpoint drop_spaces (pats : list (list ascii)) (fuel : nat) (s : list ascii)
  : list ascii :=
  match fuel with
  | 0 => s
  | S fuel' =>
      match space_head pats s with
      | Some s' => drop_spaces pats fuel' s'
      | None => s
      end
  end.

Definition lstrip (s : list ascii) : list ascii :=
  drop_spaces py_whitespace (length s) s.

(** The same from the right end: on the reversed text, with each character's
    bytes reversed. *)
Definition rstrip (s : list ascii) : list ascii :=
  reverse (drop_spaces (reverse <$> py_whitespace) (length s) (reverse s)).

(** [s.strip()] *)
Definition strip (s : list ascii) : list ascii := rstrip (lstrip s).

(** [s.split(sep)] for a separator of one character. *)
Fixpoint split_on (sep : ascii) (s : list ascii) : list (list ascii) :=
  match s with
  | [] => [[]]
  | c :: s' =>
      if decide (c = sep) then [] :: split_on sep s'
      else match split_on sep s' with
           | piece :: pieces => (c :: piece) :: pieces
           | [] => [[c]]
           end
  end.

(** [s.split(sep, 1)] *)
Fixpoint split_once (sep : ascii) (s : list ascii) : list (list ascii) :=
  match s with
  | [] => [[]]
  | c :: s' =>
      if decide (c = sep) then [[]; s']
      else match split_once sep s' with
           | piece :: pieces => (c :: piece) :: pieces
           | [] => [[c]]
           end
  end.

(** ** Text files *)

(** Well-formed UTF-8, as the strict decoder accepts it: no overlong form,
    no surrogate, nothing above U+10FFFF. *)
Definition byte_in (lo hi : nat) (b : ascii) : bool :=
  (lo <=? Ascii.nat_of_ascii b) && (Ascii.nat_of_ascii b <=? hi).

Definition second_of_three (b0 b1 : ascii) : bool :=
  if byte_in 224 224 b0 then byte_in 160 191 b1
  else if byte_in 237 237 b0 then byte_in 128 159 b1
  else byte_in 128 191 b1.

Definition second_of_four (b0 b1 : ascii) : bool :=
  if byte_in 240 240 b0 then byte_in 144 191 b1
  else if byte_in 244 244 b0 then byte_in 128 143 b1
  else byte_in 128 191 b1.

Fixpoint utf8_valid (s : list ascii) : bool :=
  match s with
  | [] => true
  | b0 :: s1 =>
      if byte_in 0 127 b0 then utf8_valid s1
      else
        match s1 with
        | [] => false
        | b1 :: s2 =>
            if byte_in 194 223 b0 then byte_in 128 191 b1 && utf8_valid s2
            else
              match s2 with
              | [] => false
              | b2 :: s3 =>
                  if byte_in 224 239 b0 then
                    second_of_three b0 b1 && byte_in 128 191 b2 && utf8_valid s3
                  else
                    match s3 with
                    | [] => false
                    | b3 :: s4 =>
                        byte_in 240 244 b0 && second_of_four b0 b1
                        && byte_in 128 191 b2 && byte_in 128 191 b3
                        && utf8_valid s4
                    end
              end
        end
  end.

Definition utf8_bom : list ascii := bytes [239; 187; 191].

(** The text of a file opened with [encoding="utf-8-sig"]: the decoded
    bytes, without the byte order mark when the file starts with one.  A
    file that holds nothing but the first byte or the first two bytes of the
    mark reads as the empty text: the decoder keeps waiting for the rest of
    the mark. *)
Definition decode_utf8_sig (content : list ascii) : io_result (list ascii) :=
  if bool_decide (content = take 1 utf8_bom ∨ content = take 2 utf8_bom) then
    Return []
  else if utf8_valid content then
    Return (default content (strip_prefix utf8_bom content))
  else Throw UnicodeDecodeError.

(** The lines of a text file as iteration yields them: a line ends at
    ["\n"], ["\r\n"] or ["\r"], each of which is handed over as ["\n"]; the
    last line may lack it. *)
Fixpoint text_lines (s : list ascii) : list (list ascii) :=
  match s with
  | [] => []
  | c :: s' =>
      if decide (c = LF) then [LF] :: text_lines s'
      else if decide (c = CR) then
        [LF] :: text_lines (match s' with
                            | c' :: s'' => if decide (c' = LF) then s'' else s'
                            | [] => s'
                            end)
      else match text_lines s' with
           | line :: lines => (c :: line) :: lines
           | [] => [[c]]
           end
  end.

(** ** [load_transactions] *)

(** The body of [for line in f]. *)
Definition load_line (txns : list transaction) (line : list ascii)
  : list transaction :=
  let line := strip line in
  if decide (line = []) then txns
  else
    match split_once comma line with
    | [_tid; items_str] =>
        let items :=
          str <$> (strip <$> filter (λ x, strip x ≠ []) (split_on comma items_str)) in
        txns ++ [items]
    | _ => txns
    end.

(** [fs] is the file system: the bytes of the file at a path, if there is
    one. *)
Definition load_transactions (fs : list ascii → option (list ascii))
    (csv_path : list ascii) : io_result (list transaction) :=
  match fs csv_path with
  | None => Throw FileNotFoundError
  | Some content =>
      match decode_utf8_sig content with
      | Throw e => Throw e
      | Return text =>
          let lines := text_lines text in
          let header := head lines in
          Return (foldl load_line [] (tail lines))
      end
  end.

(** ** [dataset_name_from_path] *)

(** [s.rfind(c)], [None] for [-1]. *)
Fixpoint rfind (c : ascii) (s : list ascii) : option nat :=
  match s with
  | [] => None
  | x :: s' =>
      match rfind c s' with
      | Some i => Some (S i)
      | None => if decide (x = c) then Some 0 else None
      end
  end.

(** [os.path.basename(p)] with ["/"] as the separator: [p[p.rfind("/") + 1:]]. *)
Definition basename (p : list ascii) : list ascii :=
  drop (from_option S 0 (rfind slash p)) p.

(** [os.path.splitext(p)] with ["/"] as the separator: the extension starts
    at the last dot, unless a separator follows that dot or only dots stand
    between the last separator and it. *)
Definition splitext (p : list ascii) : list ascii * list ascii :=
  let filenameIndex := from_option S 0 (rfind slash p) in
  match rfind dot p with
  | Some dotIndex =>
      if decide (filenameIndex ≤ dotIndex) then
        if existsb (λ c, negb (bool_decide (c = dot)))
             (take (dotIndex - filenameIndex) (drop filenameIndex p))
        then (take dotIndex p, drop dotIndex p)
        else (p, [])
      else (p, [])
  | None => (p, [])
  end.

Definition dataset_name_from_path (path : list ascii) : list ascii :=
  let base := basename path in
  let '(name, _) := splitext base in
  name.

(** ** [one_hot_encode] *)

(** A [pandas.DataFrame] of ints: the column labels, and per row the cell of
    each column, [None] where the cell holds no value. *)
Record DataFrame := {
  df_columns : list string;
  df_rows : list (gmap string nat);
}.

(** [pd.DataFrame(data, columns=columns)] on a list of dicts: one row per
    dict, holding the dict's values at the keys that are columns. *)
Definition DataFrame_of_dicts (data : list (gmap string nat))
    (columns : list string) : DataFrame :=
  {| df_columns := columns;
     df_rows := (λ row, filter (λ kv, kv.1 ∈ columns) row) <$> data |}.

Definition one_hot_encode (h : set_order) (transactions : list transaction)
  : DataFrame :=
  let all_items := sorted (tuple_of h (list_to_set (concat transactions))) in
  let data :=
    foldl
      (λ data txn,
         let row :=
           foldl (λ row item, <[item := if bool_decide (item ∈ txn) then 1 else 0]> row)
             ∅ all_items in
         data ++ [row])
      [] transactions in
  DataFrame_of_dicts data all_items.

(** * Asking for the arguments: [src/run_all.py] *)

(** The terminal: the lines still to be typed, each without its line end,
    and what has been written so far. *)
Record console := {
  stdin : list (list ascii);
  stdout : list (list ascii);
}.

(** [print(s)] *)
Definition print (s : list ascii) (w : console) : console :=
  {| stdin := stdin w; stdout := stdout w ++ [s ++ [LF]] |}.

(** [input(prompt)] *)
Definition input (prompt : list ascii) (w : console)
  : io_result (list ascii * console) :=
  match stdin w with
  | [] => Throw EOFError
  | line :: rest => Return (line, {| stdin := rest; stdout := stdout w ++ [prompt] |})
  end.

(** [s.endswith(suffix)] *)
Definition endswith (s suffix : list ascii) : bool :=
  bool_decide (length suffix ≤ length s ∧
               drop (length s - length suffix) s = suffix).

(** [sorted([f[:-4] for f in files if f.endswith(".csv")])] *)
Definition dataset_names (files : list string) : list string :=
  sorted ((λ f, str (take (length (chars f) - 4) (chars f)))
          <$> filter (λ f, endswith (chars f) (chars ".csv") = true) files).

Section Prompt.
Context `{PyFloat}.

(** The float that the int [1] compares as. *)
Variable fone : float.
(** [float(s)], [None] where it raises [ValueError]. *)
Variable float_of_str : list ascii → option float.
(** [s.isdigit()] *)
Variable isdigit : list ascii → bool.
(** [int(s)], [None] where it raises [ValueError]. *)
Variable int_of_str : list ascii → option Z.
(** [os.listdir("data")], [None] where there is no such directory. *)
Variable listdir_data : option (list string).

(** The block under [if not data:]. *)
Definition select_dataset (w : console) : io_result (list ascii * console) :=
  match listdir_data with
  | None => Throw FileNotFoundError
  | Some files =>
      let datasets := dataset_names files in
      if decide (datasets = []) then Throw FileNotFoundError
      else
        let w := print (LF :: chars "Available datasets:") w in
        let w :=
          foldl (λ w '(idx, name),
                   print (chars "  " ++ chars (pretty idx) ++ chars ". " ++ chars name) w)
            w (zip (seq 1 (length datasets)) datasets) in
        '(line, w) ← input (LF :: chars "Select dataset by number or name: ") w;
        let sel := strip line in
        chosen ←
          (if isdigit sel then
             match int_of_str sel with
             | None => Throw ValueError
             | Some i =>
                 if decide (i < 1 ∨ Z.of_nat (length datasets) < i)%Z
                 then Throw ValueError
                 else
                   match datasets !! Z.to_nat (i - 1) with
                   | Some name => Return name
                   | None => Throw IndexError
                   end
             end
           else if decide (str sel ∈ datasets) then Return (str sel)
           else Throw ValueError);
        Return (chars "data/" ++ chars chosen ++ chars ".csv", w)
  end.

(** The loop under [if minsup is None:] and under [if minconf is None:]:
    one line of input per iteration. *)
Fixpoint read_threshold (prompt : list ascii) (lines : list (list ascii))
    (out : list (list ascii)) : io_result (float * console) :=
  match lines with
  | [] => Throw EOFError
  | line :: rest =>
      let out := out ++ [prompt] in
      let again :=
        read_threshold prompt rest
          (out ++ [chars "  Invalid input. Please enter a number between 0 and 1."
                   ++ [LF]]) in
      match float_of_str (strip line) with
      | None => again
      | Some x =>
          if py_lt fzero x && py_ge fone x
          then Return (x, {| stdin := rest; stdout := out |})
          else again
      end
  end.

Definition prompt_for_missing_args (data : option (list ascii))
    (minsup minconf : option float) (w : console)
  : io_result (list ascii * float * float * console) :=
  '(data, w) ←
    match data with
    | Some (c :: path) => Return (c :: path, w)
    | _ => select_dataset w
    end;
  '(minsup, w) ←
    match minsup with
    | Some x => Return (x, w)
    | None => read_threshold (chars "Enter minsup (0-1): ") (stdin w) (stdout w)
    end;
  '(minconf, w) ←
    match minconf with
    | Some x => Return (x, w)
    | None => read_threshold (chars "Enter minconf (0-1): ") (stdin w) (stdout w)
    end;
  Return (data, minsup, minconf, w).

End Prompt.

(** * Facts about the model *)

(** ** The order on [str] *)

Lemma ascii_compare_lt_trans a b c :
  Ascii.compare a b = Lt → Ascii.compare b c = Lt → Ascii.compare a c = Lt.
Proof.
  unfold Ascii.compare. rewrite !N.compare_lt_iff. lia.
Qed.

Lemma string_compare_refl s : String.compare s s = Eq.
Proof.
  pose proof (String.compare_antisym s s) as E.
  destruct (String.compare s s); simpl in E; congruence.
Qed.

Lemma string_compare_lt_trans s1 s2 s3 :
  String.compare s1 s2 = Lt → String.compare s2 s3 = Lt →
  String.compare s1 s3 = Lt.
Proof.
  revert s2 s3. induction s1 as [|a s1 IH]; intros [|b s2] [|c s3]; simpl; try done.
  destruct (Ascii.compare a b) eqn:Eab; try done;
    destruct (Ascii.compare b c) eqn:Ebc; try done; intros H12 H23.
  - apply Ascii.compare_eq_iff in Eab, Ebc. subst.
    rewrite (proj2 (N.compare_eq_iff _ _) eq_refl : Ascii.compare c c = Eq). eauto.
  - apply Ascii.compare_eq_iff in Eab. subst. by rewrite Ebc.
  - apply Ascii.compare_eq_iff in Ebc. subst. by rewrite Eab.
  - by rewrite (ascii_compare_lt_trans _ _ _ Eab Ebc).
Qed.

Lemma str_lt_irrefl s : str_lt s s = false.
Proof. unfold str_lt, String.ltb. by rewrite string_compare_refl. Qed.

Lemma str_lt_trans s1 s2 s3 :
  str_lt s1 s2 = true → str_lt s2 s3 = true → str_lt s1 s3 = true.
Proof.
  unfold str_lt, String.ltb. intros H12 H23.
  destruct (String.compare s1 s2) eqn:E12; try done.
  destruct (String.compare s2 s3) eqn:E23; try done.
  by rewrite (string_compare_lt_trans _ _ _ E12 E23).
Qed.

Lemma str_lt_asym s1 s2 : str_lt s1 s2 = true → str_lt s2 s1 = false.
Proof.
  intros H12. destruct (str_lt s2 s1) eqn:H21; [|done].
  by rewrite <- (str_lt_irrefl s1), <- (str_lt_trans _ _ _ H12 H21).
Qed.

Lemma str_lt_total s1 s2 : str_lt s1 s2 = false → str_lt s2 s1 = false → s1 = s2.
Proof.
  unfold str_lt, String.ltb. rewrite (String.compare_antisym s2 s1).
  destruct (String.compare s1 s2) eqn:E; simpl; try done.
  intros _ _. by apply String.compare_eq_iff.
Qed.

(** [s1 <= s2], as the negation of [s2 < s1]. *)
Definition str_le (s1 s2 : string) : Prop := str_lt s2 s1 = false.

#[global] Instance str_le_trans : Transitive str_le.
Proof.
  intros x y z Hxy Hyz. unfold str_le in *.
  destruct (str_lt z x) eqn:Hzx; [|done].
  destruct (str_lt x y) eqn:E.
  - by rewrite (str_lt_trans _ _ _ Hzx E) in Hyz.
  - rewrite (str_lt_total _ _ E Hxy) in Hzx. by rewrite Hzx in Hyz.
Qed.

#[global] Instance str_le_antisym : AntiSymm (=) str_le.
Proof. intros x y Hxy Hyx. by apply str_lt_total. Qed.

(** ** [list.sort] *)

Section SortFacts.
Context {A : Type} (lt : A → A → bool).

Lemma insert_before_Permutation x l : insert_before lt x l ≡ₚ x :: l.
Proof.
  induction l as [|y l IH]; [done|]. simpl.
  destruct (lt y x); [|done]. rewrite IH. apply Permutation_swap.
Qed.

Lemma py_sort_Permutation l : py_sort lt l ≡ₚ l.
Proof.
  induction l as [|x l IH]; [done|].
  unfold py_sort in *. simpl. by rewrite insert_before_Permutation, IH.
Qed.

(** The elements that are sorted all lie in a domain [P] on which [<] is
    asymmetric and "not smaller" is transitive. *)
Variable P : A → Prop.
Hypothesis lt_asym : ∀ x y, P x → P y → lt x y = true → lt y x = false.
Hypothesis ge_trans : ∀ x y z, P x → P y → P z →
  lt y x = false → lt z y = false → lt z x = false.

Lemma insert_before_sorted x l :
  P x → Forall P l →
  StronglySorted (λ a b, lt b a = false) l →
  StronglySorted (λ a b, lt b a = false) (insert_before lt x l).
Proof.
  intros Px HP Hl. induction Hl as [|y l Hl IH Hy]; simpl.
  { repeat constructor. }
  apply Forall_cons in HP as [Py HP].
  destruct (lt y x) eqn:Hyx.
  - constructor; [by apply IH|].
    rewrite insert_before_Permutation. constructor; [by apply lt_asym|done].
  - constructor; [by constructor|].
    constructor; [done|].
    rewrite Forall_forall in Hy, HP |- *. intros z Hz. eauto.
Qed.

Lemma py_sort_sorted l :
  Forall P l → StronglySorted (λ a b, lt b a = false) (py_sort lt l).
Proof.
  induction 1 as [|x l Px HP IH]; [constructor|].
  unfold py_sort in *. simpl. apply insert_before_sorted; [done| |done].
  fold (py_sort lt l). by rewrite py_sort_Permutation.
Qed.

End SortFacts.

Lemma sorted_Permutation l : sorted l ≡ₚ l.
Proof. apply py_sort_Permutation. Qed.

Lemma sorted_StronglySorted l : StronglySorted str_le (sorted l).
Proof.
  apply (py_sort_sorted str_lt (λ _, True)); [auto using str_lt_asym | |].
  - intros x y z _ _ _. apply (str_le_trans x y z).
  - by apply Forall_forall.
Qed.

(** [sorted] depends on the elements only, not on the order they come in. *)
Lemma sorted_unique l1 l2 : l1 ≡ₚ l2 → sorted l1 = sorted l2.
Proof.
  intros E. apply (StronglySorted_unique str_le); auto using sorted_StronglySorted.
  by rewrite !sorted_Permutation.
Qed.

(** ** [itertools.combinations] *)

Section CombinationFacts.
Context {A : Type}.
Implicit Types (l c : list A) (k : nat).

Lemma elem_of_combinations l k c :
  c ∈ combinations l k ↔ c `sublist_of` l ∧ length c = k.
Proof.
  revert k c. induction l as [|x l IH]; intros [|k] c; simpl.
  - rewrite list_elem_of_singleton, sublist_nil_r.
    split; [by intros ->|by intros [-> _]].
  - rewrite elem_of_nil, sublist_nil_r. split; [done|by intros [-> ?]].
  - rewrite list_elem_of_singleton. split; [intros ->; split; [apply sublist_nil_l|done]|].
    intros [_ Hlen]. by destruct c.
  - rewrite elem_of_app, list_elem_of_fmap, sublist_cons_r.
    setoid_rewrite IH. split.
    + intros [(c' & -> & ? & <-)|[? ?]]; [|by auto].
      split; [right; eauto|done].
    + intros [[?|(c' & -> & ?)] Hlen]; [by auto|].
      left. exists c'. simpl in Hlen. split_and!; [done..|lia].
Qed.

Lemma combinations_length_gt l k : length l < k → combinations l k = [].
Proof.
  intros Hlt. destruct (combinations l k) as [|c cs] eqn:E; [done|].
  assert (c ∈ combinations l k) as Hc by (rewrite E; left).
  apply elem_of_combinations in Hc as [Hc%sublist_length ?]. lia.
Qed.

Lemma filter_ext_elem_of (P Q : A → Prop)
    `{∀ x, Decision (P x)} `{∀ x, Decision (Q x)} l :
  (∀ x, x ∈ l → P x ↔ Q x) → filter P l = filter Q l.
Proof.
  induction l as [|x l IH]; intros HPQ; [done|].
  rewrite !filter_cons, IH by (intros y Hy; apply HPQ; by right).
  destruct (decide (P x)) as [HP|HP], (decide (Q x)) as [HQ|HQ]; try done;
    exfalso; apply (HPQ x) in HP || apply (HPQ x) in HQ; done || by left.
Qed.

Lemma sublist_filter_elem_of `{EqDecision A} c l :
  NoDup l → c `sublist_of` l → filter (.∈ c) l = c.
Proof.
  intros Hl Hc. induction Hc as [|x c l Hc IH|x c l Hc IH].
  - done.
  - apply NoDup_cons in Hl as [Hx Hl].
    rewrite filter_cons_True by left. f_equal.
    transitivity (filter (.∈ c) l); [|by apply IH].
    apply filter_ext_elem_of.
    intros y Hy. rewrite elem_of_cons. split; [|by auto].
    intros [->|?]; done.
  - apply NoDup_cons in Hl as [Hx Hl].
    rewrite filter_cons_False; [by apply IH|].
    intros Hx'. apply Hx. by eapply elem_of_sublist.
Qed.

End CombinationFacts.

(** A set of items of the universe is one of its combinations: the items of
    the universe that belong to the set, in the order of the universe. *)
Lemma subset_combination (U : list string) (X : frozenset) :
  NoDup U → X ⊆ list_to_set U →
  ∃ c, c ∈ combinations U (size X) ∧ list_to_set c = X.
Proof.
  intros HU HX. exists (filter (.∈ X) U).
  assert (list_to_set (filter (.∈ X) U) = X) as E.
  { apply set_eq. intros x. rewrite elem_of_list_to_set, list_elem_of_filter.
    split; [by intros [? _]|]. intros Hx. split; [done|].
    apply HX in Hx. by apply elem_of_list_to_set in Hx. }
  split; [|done]. apply elem_of_combinations. split; [apply sublist_filter|].
  transitivity (size (list_to_set (filter (.∈ X) U) : frozenset)); [|by rewrite E].
  symmetry. apply size_list_to_set. by apply NoDup_filter.
Qed.

Lemma combination_size (U c : list string) k :
  NoDup U → c ∈ combinations U k → size (list_to_set c : frozenset) = k.
Proof.
  intros HU [Hc <-]%elem_of_combinations.
  apply size_list_to_set. by eapply sublist_NoDup.
Qed.

(** ** Dicts *)

Section DictFacts.
Context {V : Type}.
Implicit Types (m : dict V) (key : frozenset).

Lemma dict_get_set m key v key' :
  dict_get (dict_set m key v) key' =
  if decide (key = key') then Some v else dict_get m key'.
Proof.
  induction m as [|[k0 v0] m IH]; simpl.
  - by destruct (decide (key = key')).
  - destruct (decide (k0 = key)) as [->|Hne]; simpl.
    + by destruct (decide (key = key')).
    + rewrite IH. destruct (decide (k0 = key')) as [->|]; [|done].
      by rewrite decide_False.
Qed.

Lemma dict_keys_set m key v key' :
  key' ∈ dict_keys (dict_set m key v) ↔ key' = key ∨ key' ∈ dict_keys m.
Proof.
  unfold dict_keys. induction m as [|[k0 v0] m IH]; simpl.
  - rewrite list_elem_of_singleton, elem_of_nil. tauto.
  - destruct (decide (k0 = key)) as [->|Hne]; simpl.
    + rewrite !elem_of_cons. tauto.
    + rewrite !elem_of_cons, IH. tauto.
Qed.

Lemma dict_get_Some_keys m key v : dict_get m key = Some v → key ∈ dict_keys m.
Proof.
  unfold dict_keys. induction m as [|[k0 v0] m IH]; simpl; [done|].
  destruct (decide (k0 = key)) as [->|]; [left|right; auto].
Qed.

Lemma dict_keys_get m key : key ∈ dict_keys m → is_Some (dict_get m key).
Proof.
  unfold dict_keys. induction m as [|[k0 v0] m IH]; simpl; [by rewrite elem_of_nil|].
  destruct (decide (k0 = key)) as [->|Hne]; [by eauto|].
  rewrite elem_of_cons. intros [->|?]; [done|auto].
Qed.

End DictFacts.

(** ** [_support_count] *)

Lemma _support_count_acc (transactions : list transaction) (itemset : frozenset) n :
  fold_left (λ cnt t, if decide (itemset ⊆ list_to_set t) then cnt + 1 else cnt)
    transactions n
  = n + _support_count transactions itemset.
Proof.
  unfold _support_count. revert n.
  induction transactions as [|t ts IH]; intros n; simpl; [lia|].
  rewrite IH, (IH (if decide _ then _ else _)).
  destruct (decide _); lia.
Qed.

Lemma _support_count_cons t (transactions : list transaction) (itemset : frozenset) :
  _support_count (t :: transactions) itemset =
  (if decide (itemset ⊆ list_to_set t) then 1 else 0)
  + _support_count transactions itemset.
Proof.
  unfold _support_count at 1. simpl. rewrite _support_count_acc.
  by destruct (decide _).
Qed.

Lemma _support_count_anti (transactions : list transaction) (A B : frozenset) :
  A ⊆ B → _support_count transactions B ≤ _support_count transactions A.
Proof.
  intros HAB. induction transactions as [|t ts IH]; [done|].
  rewrite !_support_count_cons.
  destruct (decide (B ⊆ _)) as [HB|]; destruct (decide (A ⊆ _)) as [|HA]; try lia.
  destruct HA. set_solver.
Qed.

Lemma _support_count_le (transactions : list transaction) (itemset : frozenset) :
  _support_count transactions itemset ≤ length transactions.
Proof.
  induction transactions as [|t ts IH]; [done|].
  rewrite _support_count_cons. simpl. destruct (decide _); lia.
Qed.

(** ** The enumerator in closed form *)

Lemma unique_items_nil (h : set_order) : unique_items h [] = [].
Proof.
  unfold unique_items. simpl.
  assert (tuple_of h ∅ = []) as ->; [|done].
  apply Permutation_nil_r. by rewrite tuple_of_perm, elements_empty.
Qed.

Section EnumeratorFacts.
Context `{PyFloat} (h : set_order).
Variables (transactions : list transaction) (min_support : float).

(** The support the code computes for a candidate, and its test. *)
Definition support_of (itemset : frozenset) : float :=
  int_div (_support_count transactions itemset) (length transactions).

Definition frequent (itemset : frozenset) : Prop :=
  py_ge (support_of itemset) min_support = true.

#[global] Instance frequent_dec itemset : Decision (frequent itemset).
Proof. unfold frequent. apply _. Defined.

(** The candidates of one level, and those of them that are retained. *)
Definition candidates_at (U : list string) (k : nat) : list frozenset :=
  map list_to_set (combinations U k).

Definition frequents_at (U : list string) (k : nat) : list frozenset :=
  filter frequent (candidates_at U k).

Definition record_of (itemset : frozenset) : freq_record :=
  {| itemset := tuple_of h itemset; support := support_of itemset |}.

Definition record_all (m : dict float) (cs : list frozenset) : dict float :=
  foldl (λ m c, dict_set m c (support_of c)) m cs.

(** The first level from [k] on, within [fuel] levels, that retains nothing. *)
Fixpoint first_empty_level (U : list string) (fuel k : nat) : nat :=
  match fuel with
  | 0 => k
  | S fuel' =>
      match frequents_at U k with
      | [] => k
      | _ :: _ => first_empty_level U fuel' (S k)
      end
  end.

(** The state in which the loop is left at level [K], entered in [st]. *)
Definition final_state (U : list string) (st : bf_state) (K : nat) : bf_state :=
  let fs := seq (k st) (K - k st) ≫= frequents_at U in
  {| k := K;
     support_map := record_all (support_map st) fs;
     freq_this_k := [];
     results := results st ++ map record_of fs;
     evaluated := evaluated st ++ (seq (k st) (K + 1 - k st) ≫= candidates_at U) |}.

Lemma record_all_app m cs1 cs2 :
  record_all m (cs1 ++ cs2) = record_all (record_all m cs1) cs2.
Proof. apply foldl_app. Qed.

Lemma eval_candidate_closed st c :
  transactions ≠ [] →
  eval_candidate h transactions min_support (length transactions) st c
  = Ok (if decide (frequent c) then
          {| k := k st;
             support_map := dict_set (support_map st) c (support_of c);
             freq_this_k := freq_this_k st ++ [c];
             results := results st ++ [record_of c];
             evaluated := evaluated st ++ [c] |}
        else
          {| k := k st; support_map := support_map st;
             freq_this_k := freq_this_k st; results := results st;
             evaluated := evaluated st ++ [c] |}).
Proof.
  intros Hne. unfold eval_candidate, int_truediv.
  destruct (Nat.eqb_spec (length transactions) 0) as [E|_].
  { by destruct transactions. }
  simpl. fold (support_of c).
  destruct (decide (frequent c)) as [Hc|Hc]; unfold frequent in Hc.
  - by rewrite Hc.
  - apply not_true_is_false in Hc. by rewrite Hc.
Qed.

Lemma for_each_eval_candidate cands st :
  transactions ≠ [] ∨ cands = [] →
  for_each (eval_candidate h transactions min_support (length transactions)) cands st
  = Ok {| k := k st;
          support_map := record_all (support_map st) (filter frequent cands);
          freq_this_k := freq_this_k st ++ filter frequent cands;
          results := results st ++ map record_of (filter frequent cands);
          evaluated := evaluated st ++ cands |}.
Proof.
  revert st. induction cands as [|c cands IH]; intros st Hne.
  { simpl. rewrite !app_nil_r. by destruct st. }
  destruct Hne as [Hne|?]; [|done].
  cbn [for_each]. rewrite eval_candidate_closed by done.
  cbn [mbind result_bind]. rewrite IH by auto. rewrite filter_cons.
  destruct (decide (frequent c)); simpl; by rewrite <- ?app_assoc.
Qed.

Lemma first_empty_level_ge U fuel k : k ≤ first_empty_level U fuel k.
Proof.
  revert k. induction fuel as [|fuel IH]; intros k; simpl; [done|].
  destruct (frequents_at U k); [done|]. specialize (IH (S k)). lia.
Qed.

Lemma first_empty_level_le U fuel k : first_empty_level U fuel k ≤ k + fuel.
Proof.
  revert k. induction fuel as [|fuel IH]; intros k; simpl; [lia|].
  destruct (frequents_at U k); [lia|]. specialize (IH (S k)). lia.
Qed.

Lemma first_empty_level_below U fuel k j :
  k ≤ j < first_empty_level U fuel k → frequents_at U j ≠ [].
Proof.
  revert k. induction fuel as [|fuel IH]; intros k; simpl; [lia|].
  destruct (frequents_at U k) eqn:E; [lia|].
  intros Hj. destruct (decide (j = k)) as [->|]; [by rewrite E|].
  apply (IH (S k)). lia.
Qed.

Lemma frequents_at_gt U k : length U < k → frequents_at U k = [].
Proof.
  intros Hk. unfold frequents_at, candidates_at.
  by rewrite combinations_length_gt.
Qed.

Lemma first_empty_level_empty U fuel k :
  length U < k + fuel → frequents_at U (first_empty_level U fuel k) = [].
Proof.
  revert k. induction fuel as [|fuel IH]; intros k Hk; simpl.
  { apply frequents_at_gt. lia. }
  destruct (frequents_at U k) eqn:E; [done|]. apply IH. lia.
Qed.

Lemma level_loop_closed U fuel st :
  transactions ≠ [] ∨ U = [] →
  1 ≤ k st ≤ length U + 1 →
  length U + 2 ≤ fuel + k st →
  level_loop h fuel transactions min_support (length transactions) U st
  = Ok (final_state U st (first_empty_level U (length U + 1 - k st) (k st))).
Proof.
  intros Hne. revert st. induction fuel as [|fuel IH]; intros st Hk Hfuel; [lia|].
  simpl. rewrite for_each_eval_candidate; last first.
  { destruct Hne as [?| ->]; [by left|right].
    destruct (k st) as [|k'] eqn:E; [lia|done]. }
  simpl. fold (candidates_at U (k st)). fold (frequents_at U (k st)).
  destruct (length U + 1 - k st) as [|d] eqn:Ed; simpl.
  - rewrite frequents_at_gt by lia. unfold final_state.
    replace (k st - k st) with 0 by lia. replace (k st + 1 - k st) with 1 by lia.
    simpl. by rewrite !app_nil_r.
  - destruct (frequents_at U (k st)) as [|c cs] eqn:E.
    + unfold final_state.
      replace (k st - k st) with 0 by lia. replace (k st + 1 - k st) with 1 by lia.
      simpl. by rewrite !app_nil_r.
    + rewrite IH by (simpl; lia). simpl.
      replace (length U + 1 - (k st + 1)) with d by lia.
      replace (k st + 1) with (S (k st)) by lia.
      pose proof (first_empty_level_ge U d (S (k st))) as Hge.
      set (K := first_empty_level U d (S (k st))) in *.
      unfold final_state. simpl.
      replace (K - k st) with (S (K - S (k st))) by lia.
      replace (K + 1 - k st) with (S (K + 1 - S (k st))) by lia.
      simpl. rewrite E, record_all_app, map_app, <- !app_assoc. done.
Qed.

(** A level that retains nothing ends the loop at once. *)
Lemma level_loop_stop U fuel st :
  transactions ≠ [] ∨ U = [] →
  1 ≤ k st →
  frequents_at U (k st) = [] →
  level_loop h (S fuel) transactions min_support (length transactions) U st
  = Ok {| k := k st; support_map := support_map st; freq_this_k := [];
          results := results st;
          evaluated := evaluated st ++ candidates_at U (k st) |}.
Proof.
  intros Hne Hk Hempty. simpl. rewrite for_each_eval_candidate; last first.
  { destruct Hne as [?| ->]; [by left|right].
    destruct (k st) as [|k'] eqn:E; [lia|done]. }
  simpl. fold (candidates_at U (k st)). fold (frequents_at U (k st)).
  rewrite Hempty. simpl. by rewrite app_nil_r.
Qed.

(** *** The item universe *)

Lemma unique_items_eq :
  unique_items h transactions = sorted (elements (list_to_set (concat transactions) : frozenset)).
Proof. apply sorted_unique, tuple_of_perm. Qed.

Lemma unique_items_NoDup : NoDup (unique_items h transactions).
Proof.
  rewrite unique_items_eq, sorted_Permutation. apply NoDup_elements.
Qed.

Lemma elem_of_unique_items x :
  x ∈ unique_items h transactions ↔ ∃ t, t ∈ transactions ∧ x ∈ t.
Proof.
  rewrite unique_items_eq, sorted_Permutation, elem_of_elements,
    elem_of_list_to_set, list_elem_of_In, in_concat.
  setoid_rewrite list_elem_of_In. done.
Qed.

Lemma transactions_or_universe :
  transactions ≠ [] ∨ unique_items h transactions = [].
Proof.
  destruct (decide (transactions = [])) as [E|]; [right|by left].
  rewrite E. apply unique_items_nil.
Qed.

(** *** The whole run *)

(** The level at which the loop is left. *)
Definition stop_level : nat :=
  let U := unique_items h transactions in
  first_empty_level U (length U) 1.

(** The retained itemsets, in the order in which they are retained. *)
Definition frequent_sets : list frozenset :=
  seq 1 (stop_level - 1) ≫= frequents_at (unique_items h transactions).

Lemma bruteforce_run_closed fuel :
  length (unique_items h transactions) < fuel →
  bruteforce_run h fuel transactions min_support
  = Ok {| k := stop_level;
          support_map := record_all [] frequent_sets;
          freq_this_k := [];
          results := map record_of frequent_sets;
          evaluated :=
            seq 1 stop_level ≫= candidates_at (unique_items h transactions) |}.
Proof.
  intros Hfuel. unfold bruteforce_run.
  rewrite level_loop_closed; simpl; [|apply transactions_or_universe|lia..].
  unfold final_state, frequent_sets, stop_level. simpl.
  replace (length (unique_items h transactions) + 1 - 1)
    with (length (unique_items h transactions)) by lia.
  do 4 f_equal. lia.
Qed.

Lemma frequent_itemsets_bruteforce_closed fuel :
  length (unique_items h transactions) < fuel →
  frequent_itemsets_bruteforce h fuel transactions min_support
  = Ok (map record_of frequent_sets, record_all [] frequent_sets).
Proof.
  intros Hfuel. unfold frequent_itemsets_bruteforce.
  by rewrite bruteforce_run_closed.
Qed.

Lemma stop_level_bounds : 1 ≤ stop_level ≤ length (unique_items h transactions) + 1.
Proof.
  unfold stop_level. split; [apply first_empty_level_ge|].
  etrans; [apply first_empty_level_le|lia].
Qed.

Lemma stop_level_empty : frequents_at (unique_items h transactions) stop_level = [].
Proof. apply first_empty_level_empty. lia. Qed.

Lemma stop_level_below j :
  1 ≤ j < stop_level → frequents_at (unique_items h transactions) j ≠ [].
Proof. apply first_empty_level_below. Qed.

Lemma stop_level_le j :
  1 ≤ j → frequents_at (unique_items h transactions) j = [] → stop_level ≤ j.
Proof.
  intros Hj Hempty. destruct (decide (stop_level ≤ j)) as [|Hgt]; [done|].
  destruct (stop_level_below j); [lia|done].
Qed.

Lemma elem_of_candidates_at c j :
  c ∈ candidates_at (unique_items h transactions) j ↔
  c ⊆ list_to_set (unique_items h transactions) ∧ size c = j.
Proof.
  unfold candidates_at. rewrite list_elem_of_fmap. split.
  - intros (l & -> & Hl). split; [|by eapply combination_size, Hl; apply unique_items_NoDup].
    apply elem_of_combinations in Hl as [Hl _].
    intros x. rewrite !elem_of_list_to_set. intros Hx. by eapply elem_of_sublist.
  - intros [Hc <-].
    destruct (subset_combination _ c unique_items_NoDup Hc) as (l & ? & ?). eauto.
Qed.

Lemma elem_of_frequents_at c j :
  c ∈ frequents_at (unique_items h transactions) j ↔
  frequent c ∧ c ⊆ list_to_set (unique_items h transactions) ∧ size c = j.
Proof.
  unfold frequents_at. by rewrite list_elem_of_filter, elem_of_candidates_at.
Qed.

Lemma elem_of_frequent_sets c :
  c ∈ frequent_sets ↔
  frequent c ∧ c ⊆ list_to_set (unique_items h transactions) ∧
  1 ≤ size c < stop_level.
Proof.
  unfold frequent_sets. rewrite list_elem_of_bind.
  setoid_rewrite elem_of_seq. setoid_rewrite elem_of_frequents_at.
  pose proof stop_level_bounds. split.
  - intros (j & (? & ? & <-) & ?). split_and!; [done..|lia|lia].
  - intros (? & ? & ?). exists (size c). split_and!; [done..|lia|lia].
Qed.

Lemma dict_get_record_all m cs c :
  dict_get (record_all m cs) c =
  if decide (c ∈ cs) then Some (support_of c) else dict_get m c.
Proof.
  revert m. induction cs as [|c' cs IH]; intros m.
  { destruct (decide (c ∈ [])) as [Hc|]; [by apply elem_of_nil in Hc|done]. }
  change (record_all m (c' :: cs))
    with (record_all (dict_set m c' (support_of c')) cs).
  rewrite IH, dict_get_set.
  destruct (decide (c ∈ c' :: cs)) as [Hc'|Hc'], (decide (c ∈ cs)) as [Hc|Hc],
    (decide (c' = c)) as [E|Hne]; try done;
    rewrite elem_of_cons in Hc'; intuition congruence.
Qed.

Lemma dict_keys_record_all m cs c :
  c ∈ dict_keys (record_all m cs) ↔ c ∈ dict_keys m ∨ c ∈ cs.
Proof.
  revert m. induction cs as [|c' cs IH]; intros m.
  { rewrite elem_of_nil. simpl. tauto. }
  change (record_all m (c' :: cs))
    with (record_all (dict_set m c' (support_of c')) cs).
  rewrite IH, dict_keys_set, elem_of_cons. tauto.
Qed.

End EnumeratorFacts.

(** ** Two interpreter processes *)

Lemma sorted_Permutation_elements (s : frozenset) : sorted (elements s) ≡ₚ elements s.
Proof. apply sorted_Permutation. Qed.

(** Iteration in ascending order of the items. *)
Definition ascending_order : set_order :=
  {| tuple_of := λ s, sorted (elements s);
     tuple_of_perm := sorted_Permutation_elements |}.

Lemma reverse_sorted_Permutation_elements (s : frozenset) :
  reverse (sorted (elements s)) ≡ₚ elements s.
Proof. rewrite reverse_Permutation. apply sorted_Permutation_elements. Qed.

(** Iteration in descending order of the items. *)
Definition descending_order : set_order :=
  {| tuple_of := λ s, reverse (sorted (elements s));
     tuple_of_perm := reverse_sorted_Permutation_elements |}.

(** ** More on the universe and on single levels *)

Lemma StronglySorted_str_lt l :
  StronglySorted str_le l → NoDup l →
  StronglySorted (λ a b, str_lt a b = true) l.
Proof.
  induction 1 as [|x l Hl IH Hx]; intros Hnd; [constructor|].
  apply NoDup_cons in Hnd as [Hnx Hnd]. constructor; [auto|].
  rewrite Forall_forall in Hx |- *. intros y Hy.
  destruct (str_lt x y) eqn:E; [done|].
  destruct Hnx. by rewrite (str_lt_total x y E (Hx y Hy)).
Qed.

Lemma unique_items_sorted h transactions :
  StronglySorted (λ a b, str_lt a b = true) (unique_items h transactions).
Proof.
  apply StronglySorted_str_lt; [apply sorted_StronglySorted|apply unique_items_NoDup].
Qed.

Lemma combinations_1 {A} (l : list A) : combinations l 1 = map (λ x, [x]) l.
Proof.
  induction l as [|x l IH]; [done|]. simpl. rewrite <- IH. by destruct l.
Qed.

Lemma length_tuple_of h (c : frozenset) : length (tuple_of h c) = size c.
Proof. by rewrite tuple_of_perm. Qed.

Lemma StronglySorted_bind_levels {A} (size_of : A → nat) (f : nat → list A) a n :
  (∀ j x, x ∈ f j → size_of x = j) →
  StronglySorted (λ x y, size_of x ≤ size_of y) (seq a n ≫= f).
Proof.
  intros Hf. revert a. induction n as [|n IH]; intros a; [constructor|].
  simpl. apply StronglySorted_app_2; [| |apply IH].
  - intros x y Hx (j & Hy & [? _]%elem_of_seq)%list_elem_of_bind.
    rewrite (Hf _ _ Hx), (Hf _ _ Hy). lia.
  - assert (Forall (λ x, size_of x = a) (f a)) as Ha
      by (apply Forall_forall; eauto).
    induction Ha as [|x l Hx Hl IHl]; constructor; [done|].
    eapply Forall_impl; [exact Hl|]. simpl. lia.
Qed.

(** ** Subsets of retained itemsets *)

Lemma list_to_set_tuple_of h (c : frozenset) : list_to_set (tuple_of h c) = c.
Proof.
  apply set_eq. intros x.
  by rewrite elem_of_list_to_set, tuple_of_perm, elem_of_elements.
Qed.

Lemma NoDup_tuple_of h (c : frozenset) : NoDup (tuple_of h c).
Proof. rewrite tuple_of_perm. apply NoDup_elements. Qed.

Lemma subset_of_size (X : frozenset) j :
  j ≤ size X → ∃ Y : frozenset, Y ⊆ X ∧ size Y = j.
Proof.
  intros Hj. exists (list_to_set (take j (elements X))). split.
  - intros x. rewrite elem_of_list_to_set. intros Hx.
    apply elem_of_elements. eapply elem_of_sublist; [exact Hx|apply sublist_take].
  - rewrite size_list_to_set.
    + rewrite length_take. unfold size, set_size in Hj. simpl in Hj. lia.
    + apply (sublist_NoDup _ (elements X)); [apply NoDup_elements|apply sublist_take].
Qed.

Lemma _support_count_filter (transactions : list transaction) (itemset : frozenset) :
  _support_count transactions itemset
  = length (filter (λ t, itemset ⊆ list_to_set t) transactions).
Proof.
  induction transactions as [|t ts IH]; [done|].
  rewrite _support_count_cons, filter_cons, IH. by destruct (decide _).
Qed.

Section DownwardClosure.
Context {F : PyFloat} {laws : PyFloatLaws F} {mono : IntDivMonotone F}.
Context (h : set_order).
Variables (transactions : list transaction) (min_support : float).
Hypothesis nonempty : transactions ≠ [].

Lemma frequent_subset (A B : frozenset) :
  A ⊆ B → frequent transactions min_support B → frequent transactions min_support A.
Proof.
  unfold frequent, support_of. intros HAB HB.
  eapply py_ge_trans; [|exact HB].
  apply int_div_mono; [by apply _support_count_anti|apply _support_count_le|].
  destruct transactions; [done|simpl; lia].
Qed.

Lemma frequent_below_stop_level (S : frozenset) :
  S ⊆ list_to_set (unique_items h transactions) →
  frequent transactions min_support S →
  size S < stop_level h transactions min_support.
Proof.
  intros HS Hfreq.
  destruct (decide (size S < stop_level h transactions min_support)) as [|Hge]; [done|].
  destruct (subset_of_size S (stop_level h transactions min_support))
    as (Y & HY & Hsize); [lia|].
  assert (Y ∈ frequents_at transactions min_support
                (unique_items h transactions)
                (stop_level h transactions min_support)) as HYin.
  { apply elem_of_frequents_at. split_and!; [|set_solver|done].
    by apply (frequent_subset Y S). }
  rewrite stop_level_empty in HYin. by apply elem_of_nil in HYin.
Qed.

Lemma elem_of_frequent_sets_laws (S : frozenset) :
  S ∈ frequent_sets h transactions min_support ↔
  S ≠ ∅ ∧ S ⊆ list_to_set (unique_items h transactions) ∧
  frequent transactions min_support S.
Proof.
  rewrite elem_of_frequent_sets. split.
  - intros (? & ? & Hsize). split_and!; [|done..].
    intros ->. rewrite size_empty in Hsize. lia.
  - intros (Hne & ? & ?). split_and!; [done..| |by apply frequent_below_stop_level].
    destruct (decide (size S = 0)) as [E%size_empty_iff|]; [|lia].
    destruct Hne. by apply leibniz_equiv.
Qed.

End DownwardClosure.

(** ** The rule deriver in closed form *)

Lemma for_each_extend {A B} (body : list B → A → result (list B))
    (g : A → list B) (xs : list A) (s : list B) :
  (∀ s x, x ∈ xs → body s x = Ok (s ++ g x)) →
  for_each body xs s = Ok (s ++ (xs ≫= g)).
Proof.
  revert s. induction xs as [|x xs IH]; intros s Hbody.
  { simpl. by rewrite app_nil_r. }
  cbn [for_each]. rewrite Hbody by left. cbn [mbind result_bind].
  rewrite IH by (intros ???; apply Hbody; by right).
  by rewrite bind_cons, app_assoc.
Qed.

(** The candidate antecedents of an itemset, as the two inner loops visit
    them. *)
Definition antecedents_of (h : set_order) (L : frozenset) : list (list string) :=
  seq 1 (length (tuple_of h L) - 1) ≫= combinations (tuple_of h L).

Lemma elem_of_antecedents_of h (L : frozenset) (antecedent : list string) :
  antecedent ∈ antecedents_of h L →
  let A : frozenset := list_to_set antecedent in
  A ≠ ∅ ∧ A ⊂ L ∧ L ∖ A ≠ ∅ ∧ NoDup antecedent.
Proof.
  intros (r & Hant & [Hr1 Hr2]%elem_of_seq)%list_elem_of_bind A.
  rewrite length_tuple_of in Hr2.
  apply elem_of_combinations in Hant as [Hsub Hlen].
  assert (NoDup antecedent) as Hnd
    by (eapply sublist_NoDup; [apply (NoDup_tuple_of h L)|done]).
  assert (size A = r) as HsA by (unfold A; by rewrite size_list_to_set).
  assert (A ⊆ L) as HAL.
  { intros x Hx%elem_of_list_to_set.
    rewrite <- (list_to_set_tuple_of h L), elem_of_list_to_set.
    by eapply elem_of_sublist. }
  assert (size (L ∖ A) ≠ 0) as Hdiff by (rewrite size_difference by done; lia).
  split_and!; [| | |done].
  - intros E. rewrite E, size_empty in HsA. lia.
  - split; [done|]. intros HLA. apply subseteq_size in HLA. lia.
  - intros E. by rewrite E, size_empty in Hdiff.
Qed.

Section DeriverFacts.
Context `{PyFloat} (h : set_order).
Variables (support_map : dict float) (min_confidence : float).

(** What one candidate antecedent contributes. *)
Definition rule_of (L : frozenset) (L_support : float)
    (antecedent : list string) : option rule :=
  let A : frozenset := list_to_set antecedent in
  let B := L ∖ A in
  if decide (B = ∅) then None
  else
    match dict_get support_map A with
    | None => None
    | Some sup_A =>
        if py_eq sup_A fzero then None
        else if py_ge (fdiv L_support sup_A) min_confidence then
          Some {| antecedent := sorted (tuple_of h A);
                  consequent := sorted (tuple_of h B);
                  rule_support := L_support;
                  confidence := fdiv L_support sup_A |}
        else None
    end.

Definition rules_from (L : frozenset) : list rule :=
  match dict_get support_map L with
  | Some L_support =>
      antecedents_of h L ≫= (λ antecedent, option_list (rule_of L L_support antecedent))
  | None => []
  end.

Lemma rule_candidate_closed L L_support rules antecedent :
  rule_candidate h support_map min_confidence L L_support rules antecedent
  = Ok (rules ++ option_list (rule_of L L_support antecedent)).
Proof.
  unfold rule_candidate, rule_of, float_truediv.
  destruct (decide (_ = ∅)); [by rewrite app_nil_r|].
  destruct (dict_get support_map _) as [sup_A|]; [|by rewrite app_nil_r].
  destruct (py_eq sup_A fzero); [by rewrite app_nil_r|].
  cbn [mbind result_bind].
  destruct (py_ge _ min_confidence); [done|by rewrite app_nil_r].
Qed.

Lemma rules_of_itemset_closed rules L :
  L ∈ dict_keys support_map →
  rules_of_itemset h support_map min_confidence rules L = Ok (rules ++ rules_from L).
Proof.
  intros [L_support HL]%dict_keys_get.
  unfold rules_of_itemset, rules_from, dict_item, antecedents_of. rewrite HL.
  cbn [mbind result_bind].
  rewrite (for_each_extend _
    (λ r, combinations (tuple_of h L) r ≫=
            (λ antecedent, option_list (rule_of L L_support antecedent)))).
  - f_equal. f_equal. induction (seq 1 _) as [|r rs IH]; [done|].
    by rewrite !bind_cons, bind_app, IH.
  - intros s r _. apply for_each_extend.
    intros s' antecedent _. apply rule_candidate_closed.
Qed.

Lemma association_rules_from_frequents_closed :
  association_rules_from_frequents h support_map min_confidence
  = Ok (py_sort (λ x y, key_lt (sort_key x) (sort_key y))
          (filter (λ iset, 2 ≤ size iset) (dict_keys support_map) ≫= rules_from)).
Proof.
  unfold association_rules_from_frequents.
  rewrite (for_each_extend _ rules_from); [done|].
  intros s L [_ HL]%list_elem_of_filter. by apply rules_of_itemset_closed.
Qed.

End DeriverFacts.

(** ** Positive thresholds *)


(** ** Comparisons that behave like a total preorder *)

Record cmp_ok {A} (P : A → Prop) (cmp : A → A → comparison) : Prop := {
  cmp_antisym : ∀ x y, P x → P y → cmp y x = CompOpp (cmp x y);
  cmp_le_trans : ∀ x y z, P x → P y → P z →
    cmp x y ≠ Gt → cmp y z ≠ Gt → cmp x z ≠ Gt;
}.

Section CmpFacts.
Context {A} (P : A → Prop) (cmp : A → A → comparison) (ok : cmp_ok P cmp).

Lemma cmp_squeeze x y z :
  P x → P y → P z →
  cmp x y ≠ Gt → cmp y z ≠ Gt → cmp x z = Eq → cmp x y = Eq ∧ cmp y z = Eq.
Proof.
  intros Px Py Pz Hxy Hyz Hxz.
  assert (cmp z x ≠ Gt) as Hzx by (rewrite (cmp_antisym _ _ ok x z), Hxz; done).
  pose proof (cmp_le_trans _ _ ok y z x Py Pz Px Hyz Hzx) as Hyx.
  pose proof (cmp_le_trans _ _ ok z x y Pz Px Py Hzx Hxy) as Hzy.
  rewrite (cmp_antisym _ _ ok x y) in Hyx by done.
  rewrite (cmp_antisym _ _ ok y z) in Hzy by done.
  split; [destruct (cmp x y)|destruct (cmp y z)]; done.
Qed.

Lemma cmp_eq_trans x y z :
  P x → P y → P z → cmp x y = Eq → cmp y z = Eq → cmp x z = Eq.
Proof.
  intros Px Py Pz Hxy Hyz.
  assert (cmp x z ≠ Gt) as H1.
  { apply (cmp_le_trans _ _ ok x y z); try done; by rewrite ?Hxy, ?Hyz. }
  assert (cmp z x ≠ Gt) as H2.
  { apply (cmp_le_trans _ _ ok z y x); try done.
    - by rewrite (cmp_antisym _ _ ok y z), Hyz.
    - by rewrite (cmp_antisym _ _ ok x y), Hxy. }
  rewrite (cmp_antisym _ _ ok x z) in H2 by done.
  by destruct (cmp x z).
Qed.

Lemma cmp_lt_trans x y z :
  P x → P y → P z →
  cmp x y ≠ Gt → cmp y z ≠ Gt → cmp x y = Lt ∨ cmp y z = Lt → cmp x z = Lt.
Proof.
  intros Px Py Pz Hxy Hyz Hlt.
  pose proof (cmp_le_trans _ _ ok x y z Px Py Pz Hxy Hyz) as Hxz.
  destruct (cmp x z) eqn:E; [|done..].
  destruct (cmp_squeeze x y z) as [E1 E2]; try done.
  rewrite E1, E2 in Hlt. by destruct Hlt.
Qed.

End CmpFacts.

(** The order of two keys compared component by component. *)
Definition lex_cmp {A B} (c1 : A → A → comparison) (c2 : B → B → comparison)
    (p q : A * B) : comparison :=
  match c1 p.1 q.1 with
  | Eq => c2 p.2 q.2
  | c => c
  end.

Lemma lex_cmp_ok {A B} (P1 : A → Prop) (P2 : B → Prop) c1 c2 :
  cmp_ok P1 c1 → cmp_ok P2 c2 →
  cmp_ok (λ p, P1 p.1 ∧ P2 p.2) (lex_cmp c1 c2).
Proof.
  intros ok1 ok2. split.
  - intros [x1 x2] [y1 y2] [??] [??]. unfold lex_cmp. simpl in *.
    rewrite (cmp_antisym _ _ ok1 x1 y1), (cmp_antisym _ _ ok2 x2 y2) by done.
    by destruct (c1 x1 y1).
  - intros [x1 x2] [y1 y2] [z1 z2] [??] [??] [??]. unfold lex_cmp. simpl in *.
    intros Hxy Hyz.
    assert (c1 x1 y1 ≠ Gt) as Hle1 by (by destruct (c1 x1 y1)).
    assert (c1 y1 z1 ≠ Gt) as Hle2 by (by destruct (c1 y1 z1)).
    destruct (c1 x1 y1) eqn:E1; [|clear Hxy|done].
    + destruct (c1 y1 z1) eqn:E2; [|clear Hyz|done].
      * rewrite (cmp_eq_trans _ _ ok1 x1 y1 z1) by done.
        by apply (cmp_le_trans _ _ ok2 x2 y2 z2).
      * rewrite (cmp_lt_trans _ _ ok1 x1 y1 z1); try done;
          rewrite ?E1, ?E2; auto.
    + rewrite (cmp_lt_trans _ _ ok1 x1 y1 z1); try done;
        rewrite ?E1; auto.
Qed.

Lemma flip_cmp_ok {A} (P : A → Prop) cmp :
  cmp_ok P cmp → cmp_ok P (λ x y, cmp y x).
Proof.
  intros ok. split.
  - intros x y ??. by apply (cmp_antisym _ _ ok).
  - intros x y z ??? Hxy Hyz. by apply (cmp_le_trans _ _ ok z y x).
Qed.

Lemma preimage_cmp_ok {A B} (f : A → B) (P : B → Prop) cmp :
  cmp_ok P cmp → cmp_ok (λ x, P (f x)) (λ x y, cmp (f x) (f y)).
Proof.
  intros ok. split.
  - intros x y ??. by apply (cmp_antisym _ _ ok).
  - intros x y z ???. by apply (cmp_le_trans _ _ ok).
Qed.

(** *** Tuples of strings *)

Fixpoint tuple_cmp (t1 t2 : list string) : comparison :=
  match t1, t2 with
  | [], [] => Eq
  | [], _ :: _ => Lt
  | _ :: _, [] => Gt
  | x :: t1', y :: t2' =>
      match String.compare x y with
      | Eq => tuple_cmp t1' t2'
      | c => c
      end
  end.

Lemma string_compare_Eq x y : String.compare x y = Eq ↔ x = y.
Proof.
  split; [apply String.compare_eq_iff|intros ->; apply string_compare_refl].
Qed.

Lemma tuple_lt_cmp t1 t2 : tuple_lt t1 t2 = true ↔ tuple_cmp t1 t2 = Lt.
Proof.
  revert t2. induction t1 as [|x t1 IH]; intros [|y t2]; simpl; try done.
  destruct (String.eqb_spec x y) as [->|Hne].
  - by rewrite string_compare_refl.
  - unfold str_lt, String.ltb. destruct (String.compare x y) eqn:E; try done.
    by apply string_compare_Eq in E.
Qed.

Lemma string_compare_ok : cmp_ok (λ _, True) String.compare.
Proof.
  split; [intros x y _ _; apply String.compare_antisym|].
  intros x y z _ _ _ Hxy Hyz Hxz.
  assert (String.compare z x = Lt) as Hzx
    by (rewrite String.compare_antisym, Hxz; done).
  destruct (String.compare x y) eqn:E1; [| |done].
  - apply String.compare_eq_iff in E1. subst y. done.
  - pose proof (string_compare_lt_trans _ _ _ Hzx E1) as Hzy.
    rewrite String.compare_antisym, Hzy in Hyz. done.
Qed.

Lemma tuple_cmp_ok : cmp_ok (λ _, True) tuple_cmp.
Proof.
  split.
  - intros x y _ _. revert y. induction x as [|a x IH]; intros [|b y]; simpl; try done.
    rewrite (String.compare_antisym b a), IH.
    by destruct (String.compare a b).
  - intros x y z _ _ _. revert y z.
    induction x as [|a x IH]; intros [|b y] [|c z]; simpl; try done.
    intros Hxy Hyz.
    assert (String.compare a b ≠ Gt) as H1 by (by destruct (String.compare a b)).
    assert (String.compare b c ≠ Gt) as H2 by (by destruct (String.compare b c)).
    destruct (String.compare a b) eqn:E1; [|clear Hxy|done].
    + destruct (String.compare b c) eqn:E2; [|clear Hyz|done].
      * rewrite (cmp_eq_trans _ _ string_compare_ok a b c) by done. eauto.
      * rewrite (cmp_lt_trans _ _ string_compare_ok a b c); try done;
          rewrite ?E1, ?E2; auto.
    + rewrite (cmp_lt_trans _ _ string_compare_ok a b c); try done;
        rewrite ?E1; auto.
Qed.

(** *** Floats away from NaN *)

Section FloatOrder.
Context {F : PyFloat} {laws : PyFloatLaws F}.

Definition ordered (x : float) : Prop := fcompare x x = Some Eq.

Definition fcmp (x y : float) : comparison := default Eq (fcompare x y).

Lemma fcompare_ordered x y : ordered x → ordered y → fcompare x y = Some (fcmp x y).
Proof.
  unfold ordered, fcmp. intros Hx Hy. destruct (fcompare x y) eqn:E; [done|].
  apply fcompare_unordered in E as [E|E]; congruence.
Qed.

Lemma py_ge_ordered x y : py_ge x y = true → ordered x ∧ ordered y.
Proof.
  unfold py_ge, ordered. intros Hge.
  split; [destruct (fcompare_refl x) as [|Hn]|destruct (fcompare_refl y) as [|Hn]];
    try done;
    (assert (fcompare x y = None) as E by (apply fcompare_unordered; auto));
    by rewrite E in Hge.
Qed.

Lemma fcmp_le_ge x y : ordered x → ordered y → fcmp x y ≠ Gt ↔ py_ge y x = true.
Proof.
  intros Hx Hy. unfold py_ge.
  rewrite (fcompare_antisym x y), (fcompare_ordered x y) by done. simpl.
  by destruct (fcmp x y).
Qed.

Lemma fcmp_ok : cmp_ok ordered fcmp.
Proof.
  split.
  - intros x y _ _. unfold fcmp. rewrite (fcompare_antisym x y).
    by destruct (fcompare x y).
  - intros x y z Hx Hy Hz. rewrite !fcmp_le_ge by done.
    intros ??. by eapply py_ge_trans.
Qed.

(** The order in which [list.sort] leaves two rules: higher confidence
    first, then higher support, then the smaller antecedent tuple. *)
Definition rule_cmp (x y : rule) : comparison :=
  lex_cmp (λ a b, fcmp b a) (lex_cmp (λ a b, fcmp b a) tuple_cmp)
    (confidence x, (rule_support x, antecedent x))
    (confidence y, (rule_support y, antecedent y)).

Definition rule_ordered (x : rule) : Prop :=
  ordered (confidence x) ∧ ordered (rule_support x) ∧ True.

Lemma rule_cmp_ok : cmp_ok rule_ordered rule_cmp.
Proof.
  apply (preimage_cmp_ok (λ x, (confidence x, (rule_support x, antecedent x)))
           (λ p, ordered p.1 ∧ ordered p.2.1 ∧ True)).
  apply (lex_cmp_ok ordered (λ q : float * list string, ordered q.1 ∧ True));
    [apply flip_cmp_ok, fcmp_ok|].
  apply (lex_cmp_ok ordered (λ _ : list string, True));
    [apply flip_cmp_ok, fcmp_ok|apply tuple_cmp_ok].
Qed.

Lemma key_lt_rule_cmp x y :
  rule_ordered x → rule_ordered y →
  key_lt (sort_key x) (sort_key y) = true ↔ rule_cmp x y = Lt.
Proof.
  intros (Hcx & Hsx & _) (Hcy & Hsy & _).
  unfold key_lt, sort_key, rule_cmp, lex_cmp, py_eq, py_lt. simpl.
  rewrite !fcompare_fneg.
  rewrite (fcompare_ordered (confidence y) (confidence x)) by done.
  rewrite (fcompare_ordered (rule_support y) (rule_support x)) by done.
  destruct (fcmp (confidence y) (confidence x)); simpl; try done.
  destruct (fcmp (rule_support y) (rule_support x)); simpl; try done.
  apply tuple_lt_cmp.
Qed.

(** The same order, spelled out on the fields of two rules. *)
Definition rule_before (x y : rule) : Prop :=
  py_lt (confidence y) (confidence x) = true ∨
  (py_eq (confidence x) (confidence y) = true ∧
   (py_lt (rule_support y) (rule_support x) = true ∨
    (py_eq (rule_support x) (rule_support y) = true ∧
     tuple_lt (antecedent y) (antecedent x) = false))).

Lemma rule_cmp_before x y :
  rule_ordered x → rule_ordered y → rule_cmp x y ≠ Gt → rule_before x y.
Proof.
  intros (Hcx & Hsx & _) (Hcy & Hsy & _).
  unfold rule_cmp, lex_cmp, rule_before, py_eq, py_lt. simpl.
  rewrite (fcompare_antisym (confidence y) (confidence x)).
  rewrite (fcompare_antisym (rule_support y) (rule_support x)).
  rewrite (fcompare_ordered (confidence y) (confidence x)) by done.
  rewrite (fcompare_ordered (rule_support y) (rule_support x)) by done.
  destruct (fcmp (confidence y) (confidence x)); simpl; [|by left|done].
  intros Hrest. right. split; [done|].
  destruct (fcmp (rule_support y) (rule_support x)); simpl in *; [|by left|done].
  right. split; [done|].
  destruct (tuple_lt (antecedent y) (antecedent x)) eqn:E; [|done].
  apply tuple_lt_cmp in E.
  rewrite (cmp_antisym _ _ tuple_cmp_ok (antecedent y) (antecedent x)), E in Hrest; done.
Qed.

End FloatOrder.

Lemma py_sort_sorted_cmp {A} (lt : A → A → bool) (P : A → Prop) cmp l :
  cmp_ok P cmp →
  (∀ x y, P x → P y → lt x y = true ↔ cmp x y = Lt) →
  Forall P l →
  StronglySorted (λ a b, cmp a b ≠ Gt) (py_sort lt l).
Proof.
  intros ok Hlt HP.
  assert (∀ x y, P x → P y → lt y x = false ↔ cmp x y ≠ Gt) as Hle.
  { intros x y Px Py. rewrite <- not_true_iff_false, (Hlt y x) by done.
    rewrite (cmp_antisym _ _ ok x y) by done. by destruct (cmp x y). }
  assert (Forall P (py_sort lt l)) as HP' by by rewrite py_sort_Permutation.
  pose proof (py_sort_sorted lt P) as Hsorted.
  assert (StronglySorted (λ a b, lt b a = false) (py_sort lt l)) as Hs.
  { apply Hsorted; [| |done].
    - intros x y Px Py Hxy. apply Hle; [done..|]. by rewrite (proj1 (Hlt x y Px Py) Hxy).
    - intros x y z Px Py Pz Hxy Hyz. apply Hle; [done..|].
      apply (cmp_le_trans _ _ ok x y z); [done..| |]; by apply Hle. }
  clear Hsorted. induction Hs as [|x s Hs IH Hx]; [constructor|].
  apply Forall_cons in HP' as [Px HP']. constructor; [by apply IH|].
  rewrite Forall_forall in Hx, HP' |- *. intros y Hy. apply Hle; auto.
Qed.

(** ** The emitted rules *)

Lemma list_to_set_sorted_tuple_of h (X : frozenset) :
  list_to_set (sorted (tuple_of h X)) = X.
Proof.
  apply set_eq. intros x.
  by rewrite elem_of_list_to_set, sorted_Permutation, tuple_of_perm, elem_of_elements.
Qed.

Lemma sorted_tuple_of_strict h (X : frozenset) :
  StronglySorted (λ a b, str_lt a b = true) (sorted (tuple_of h X)).
Proof.
  apply StronglySorted_str_lt; [apply sorted_StronglySorted|].
  rewrite sorted_Permutation. apply NoDup_tuple_of.
Qed.

Lemma sorted_tuple_of_nil h (X : frozenset) : sorted (tuple_of h X) = [] → X = ∅.
Proof. intros E. by rewrite <- (list_to_set_sorted_tuple_of h X), E. Qed.

Lemma elem_of_rules_from `{PyFloat} h (support_map : dict float) min_confidence L r :
  r ∈ rules_from h support_map min_confidence L →
  ∃ (A : frozenset) sup_A,
    A ≠ ∅ ∧ A ⊂ L ∧ L ∖ A ≠ ∅ ∧
    antecedent r = sorted (tuple_of h A) ∧
    consequent r = sorted (tuple_of h (L ∖ A)) ∧
    dict_get support_map L = Some (rule_support r) ∧
    dict_get support_map A = Some sup_A ∧
    py_eq sup_A fzero = false ∧
    confidence r = fdiv (rule_support r) sup_A ∧
    py_ge (confidence r) min_confidence = true.
Proof.
  unfold rules_from. destruct (dict_get support_map L) as [L_support|] eqn:HL;
    [|by intros ?%elem_of_nil].
  intros (antecedent & Hr & Hant)%list_elem_of_bind.
  apply elem_of_antecedents_of in Hant as (HA & HAL & HB & _).
  exists (list_to_set antecedent). unfold rule_of in Hr.
  destruct (decide (_ = ∅)); [by apply elem_of_nil in Hr|].
  destruct (dict_get support_map (list_to_set antecedent)) as [sup_A|] eqn:HgA;
    [|by apply elem_of_nil in Hr].
  destruct (py_eq sup_A fzero) eqn:Hz; [by apply elem_of_nil in Hr|].
  destruct (py_ge _ min_confidence) eqn:Hc; [|by apply elem_of_nil in Hr].
  apply list_elem_of_singleton in Hr as ->. simpl.
  exists sup_A. split_and!; done.
Qed.

(** ** More fuel changes nothing *)

Lemma level_loop_fuel_mono `{PyFloat} h fuel fuel' transactions min_support n_tx U st r :
  level_loop h fuel transactions min_support n_tx U st = Ok r →
  fuel ≤ fuel' →
  level_loop h fuel' transactions min_support n_tx U st = Ok r.
Proof.
  revert fuel' st. induction fuel as [|fuel IH]; intros fuel' st; [done|].
  intros Hrun Hle. destruct fuel' as [|fuel']; [lia|].
  cbn [level_loop] in *.
  destruct (for_each _ _ _) as [st'| |]; [|done..].
  cbn [mbind result_bind] in *.
  destruct (freq_this_k st'); [done|]. apply IH; [done|lia].
Qed.

Lemma frequent_itemsets_bruteforce_Ok `{PyFloat} h fuel transactions min_support r :
  frequent_itemsets_bruteforce h fuel transactions min_support = Ok r →
  r = (map (record_of h transactions) (frequent_sets h transactions min_support),
       record_all transactions [] (frequent_sets h transactions min_support)).
Proof.
  unfold frequent_itemsets_bruteforce, bruteforce_run.
  destruct (level_loop _ _ _ _ _ _ _) as [st| |] eqn:Hrun; [|done..].
  cbn [mbind result_bind]. intros [= <-].
  apply (level_loop_fuel_mono _ _ (fuel + S (length (unique_items h transactions))))
    in Hrun; [|lia].
  pose proof (bruteforce_run_closed h transactions min_support
                (fuel + S (length (unique_items h transactions)))) as Hclosed.
  unfold bruteforce_run in Hclosed. rewrite Hrun in Hclosed.
  specialize (Hclosed ltac:(lia)). by injection Hclosed as ->.
Qed.

(** The retained itemsets do not depend on the iteration order of sets. *)
Lemma unique_items_order h h' transactions :
  unique_items h transactions = unique_items h' transactions.
Proof. by rewrite !unique_items_eq. Qed.

Lemma frequent_sets_order `{PyFloat} h h' transactions min_support :
  frequent_sets h transactions min_support = frequent_sets h' transactions min_support.
Proof.
  unfold frequent_sets, stop_level. by rewrite (unique_items_order h h').
Qed.

Lemma tuple_of_singleton h x : tuple_of h {[x]} = [x].
Proof.
  apply Permutation_singleton_r. by rewrite tuple_of_perm, elements_singleton.
Qed.

(** ** A stable sort does not see the order of distinguishable elements *)

Section StableSort.
Context {A K : Type} (lt : A → A → bool) (P : A → Prop) (cmp : A → A → comparison).
Context (f : A → K).
Hypothesis ok : cmp_ok P cmp.
Hypothesis lt_cmp : ∀ x y, P x → P y → lt x y = true ↔ cmp x y = Lt.
Hypothesis cmp_key : ∀ x y, P x → P y → cmp x y = Eq → f x = f y.

Lemma lt_false_cmp x y : P x → P y → lt x y = false ↔ cmp x y ≠ Lt.
Proof. intros Px Py. by rewrite <- not_true_iff_false, lt_cmp. Qed.

Lemma lt_total_distinct x y :
  P x → P y → f x ≠ f y → lt x y = negb (lt y x).
Proof.
  intros Px Py Hne.
  destruct (lt y x) eqn:Eyx; simpl.
  - apply lt_false_cmp; [done..|]. apply lt_cmp in Eyx; [|done..].
    rewrite (cmp_antisym _ _ ok y x), Eyx; done.
  - apply lt_cmp; [done..|]. apply lt_false_cmp in Eyx; [|done..].
    rewrite (cmp_antisym _ _ ok x y) in Eyx by done.
    destruct (cmp x y) eqn:E; [|done..]. destruct Hne. by apply cmp_key.
Qed.

Lemma lt_le_trans x y z :
  P x → P y → P z → lt z x = false → lt z y = true → lt x y = true.
Proof.
  intros Px Py Pz Hzx Hzy.
  apply lt_false_cmp in Hzx; [|done..]. apply lt_cmp in Hzy; [|done..].
  apply lt_cmp; [done..|].
  apply (cmp_lt_trans _ _ ok x z y); try done.
  - rewrite (cmp_antisym _ _ ok z x) by done. by destruct (cmp z x).
  - by rewrite Hzy.
  - by right.
Qed.

Lemma insert_before_comm x y s :
  P x → P y → Forall P s → f x ≠ f y →
  insert_before lt x (insert_before lt y s)
  = insert_before lt y (insert_before lt x s).
Proof.
  intros Px Py Hs Hne. induction Hs as [|z s Pz Hs IH]; simpl.
  - rewrite (lt_total_distinct x y) by done. by destruct (lt y x).
  - destruct (lt z y) eqn:Ezy, (lt z x) eqn:Ezx; simpl; rewrite ?Ezy, ?Ezx.
    + by rewrite IH.
    + by rewrite (lt_le_trans x y z).
    + by rewrite (lt_le_trans y x z).
    + rewrite (lt_total_distinct x y) by done. by destruct (lt y x).
Qed.

Lemma foldr_insert_before_Forall s l :
  Forall P s → Forall P l → Forall P (foldr (insert_before lt) s l).
Proof.
  intros Hs Hl. induction Hl as [|x l Px Hl IH]; [done|].
  simpl. rewrite insert_before_Permutation. by constructor.
Qed.

Lemma foldr_insert_before_Permutation s l l' :
  l ≡ₚ l' → Forall P s → Forall P l → NoDup (f <$> l) →
  foldr (insert_before lt) s l = foldr (insert_before lt) s l'.
Proof.
  intros Hperm Hs. induction Hperm as [|x l l' Hperm IH|x y l|l l' l'' H1 IH1 H2 IH2];
    intros Hl Hnd.
  - done.
  - apply Forall_cons in Hl as [_ Hl]. apply NoDup_cons in Hnd as [_ Hnd].
    simpl. by rewrite IH.
  - apply Forall_cons in Hl as [Py [Px Hl]%Forall_cons].
    apply NoDup_cons in Hnd as [Hyx _]. simpl in *.
    apply insert_before_comm; [done..|by apply foldr_insert_before_Forall|].
    intros E. apply Hyx. rewrite E. left.
  - rewrite IH1 by done. apply IH2; by rewrite <- H1.
Qed.

(** Blocks that are permutations of each other, sorted after concatenation. *)
Lemma py_sort_bind_Permutation {B} (g g' : B → list A) (bs : list B) :
  (∀ b, b ∈ bs → g b ≡ₚ g' b ∧ Forall P (g b) ∧ NoDup (f <$> g b)) →
  py_sort lt (bs ≫= g) = py_sort lt (bs ≫= g').
Proof.
  unfold py_sort. induction bs as [|b bs IH]; intros Hbs; [done|].
  rewrite !bind_cons, !foldr_app.
  destruct (Hbs b) as (Hperm & HP & Hnd); [left|].
  rewrite <- IH by (intros ??; apply Hbs; by right).
  apply foldr_insert_before_Permutation; [done| |done..].
  apply foldr_insert_before_Forall; [constructor|].
  apply Forall_forall. intros x (b' & Hx & Hb')%list_elem_of_bind.
  destruct (Hbs b') as (_ & HP' & _); [by right|].
  rewrite Forall_forall in HP'. auto.
Qed.

End StableSort.

(** ** The rule deriver and the iteration order of sets *)

Lemma combinations_NoDup {A} (l : list A) k : NoDup l → NoDup (combinations l k).
Proof.
  intros Hl. revert k. induction Hl as [|x l Hx Hl IH]; intros [|k]; simpl.
  - apply NoDup_singleton.
  - constructor.
  - apply NoDup_singleton.
  - apply NoDup_app. split_and!; [|
      |apply IH].
    + apply (NoDup_fmap_2 _), IH.
    + intros c (c' & -> & _)%list_elem_of_fmap [Hc _]%elem_of_combinations.
      apply Hx. eapply elem_of_sublist; [|exact Hc]. left.
Qed.

Lemma list_to_set_sublist_inj (T c1 c2 : list string) :
  NoDup T → c1 `sublist_of` T → c2 `sublist_of` T →
  list_to_set (C:=frozenset) c1 = list_to_set c2 → c1 = c2.
Proof.
  intros HT H1 H2 E.
  rewrite <- (sublist_filter_elem_of c1 T HT H1), <- (sublist_filter_elem_of c2 T HT H2).
  apply filter_ext_elem_of. intros x _.
  by rewrite <- !(elem_of_list_to_set (C:=frozenset)), E.
Qed.

(** The antecedents of an itemset as sets, in the order of the loops. *)
Definition antecedent_sets (h : set_order) (L : frozenset) : list frozenset :=
  list_to_set <$> antecedents_of h L.

Lemma antecedent_sets_NoDup h L : NoDup (antecedent_sets h L).
Proof.
  unfold antecedent_sets, antecedents_of.
  apply NoDup_fmap_2_strong.
  - intros c1 c2 (r1 & [H1 L1]%elem_of_combinations & _)%list_elem_of_bind
      (r2 & [H2 L2]%elem_of_combinations & _)%list_elem_of_bind.
    apply (list_to_set_sublist_inj (tuple_of h L)); [apply NoDup_tuple_of|done..].
  - apply NoDup_bind; [|intros; apply combinations_NoDup, NoDup_tuple_of|apply NoDup_seq].
    intros r1 r2 c _ _ [_ <-]%elem_of_combinations [_ <-]%elem_of_combinations. done.
Qed.

Lemma elem_of_antecedent_sets h L (A : frozenset) :
  A ∈ antecedent_sets h L ↔ A ≠ ∅ ∧ A ⊂ L.
Proof.
  unfold antecedent_sets. rewrite list_elem_of_fmap. split.
  - intros (c & -> & Hc). by apply elem_of_antecedents_of in Hc as (? & ? & _).
  - intros [HA HAL].
    destruct (subset_combination (tuple_of h L) A) as (c & Hc & <-).
    { apply NoDup_tuple_of. }
    { rewrite list_to_set_tuple_of. by destruct HAL. }
    exists c. split; [done|]. unfold antecedents_of.
    apply list_elem_of_bind. eexists. split; [exact Hc|].
    apply elem_of_seq. rewrite length_tuple_of.
    pose proof (subset_size _ _ HAL).
    destruct (decide (size (list_to_set c : frozenset) = 0))
      as [E%size_empty_iff%leibniz_equiv|]; [done|lia].
Qed.

Lemma antecedent_sets_order h h' L : antecedent_sets h L ≡ₚ antecedent_sets h' L.
Proof.
  apply NoDup_Permutation; [apply antecedent_sets_NoDup..|].
  intros A. by rewrite !elem_of_antecedent_sets.
Qed.

Section DeriverOrder.
Context {F : PyFloat} {laws : PyFloatLaws F}.
Variables (support_map : dict float) (min_confidence : float).

Lemma rule_of_order h h' L L_support (c c' : list string) :
  list_to_set (C:=frozenset) c = list_to_set c' →
  rule_of h support_map min_confidence L L_support c
  = rule_of h' support_map min_confidence L L_support c'.
Proof.
  intros E. unfold rule_of. rewrite E.
  by rewrite (sorted_unique (tuple_of h (list_to_set c')) (tuple_of h' (list_to_set c'))),
    (sorted_unique (tuple_of h (L ∖ list_to_set c')) (tuple_of h' (L ∖ list_to_set c')))
    by (by rewrite !tuple_of_perm).
Qed.

(** What an antecedent, as a set, contributes. *)
Definition rules_of_set (L : frozenset) (A : frozenset) : list rule :=
  match dict_get support_map L with
  | Some L_support =>
      option_list (rule_of ascending_order support_map min_confidence L L_support
                     (elements A))
  | None => []
  end.

Lemma rules_from_sets h L :
  rules_from h support_map min_confidence L
  = antecedent_sets h L ≫= rules_of_set L.
Proof.
  unfold rules_from, antecedent_sets, rules_of_set.
  destruct (dict_get support_map L) as [L_support|].
  - rewrite list_fmap_bind. induction (antecedents_of h L) as [|c cs IH]; [done|].
    rewrite !bind_cons, IH. f_equal. simpl. f_equal.
    apply rule_of_order. apply set_eq. intros x.
    by rewrite !elem_of_list_to_set, elem_of_elements, elem_of_list_to_set.
  - by induction (antecedents_of h L).
Qed.

Lemma elem_of_rules_of_set L A r :
  r ∈ rules_of_set L A → antecedent r = sorted (elements A).
Proof.
  unfold rules_of_set, rule_of.
  destruct (dict_get support_map L); [|by intros ?%elem_of_nil].
  destruct (decide _); [by intros ?%elem_of_nil|].
  destruct (dict_get _ _); [|by intros ?%elem_of_nil].
  destruct (py_eq _ _); [by intros ?%elem_of_nil|].
  destruct (py_ge _ _); [|by intros ?%elem_of_nil].
  intros ->%list_elem_of_singleton. cbn [antecedent].
  apply sorted_unique. rewrite tuple_of_perm. apply elements_proper.
  intros x. by rewrite elem_of_list_to_set, elem_of_elements.
Qed.

Lemma rules_of_sets_NoDup L (sets : list frozenset) :
  NoDup sets → NoDup (antecedent <$> (sets ≫= rules_of_set L)).
Proof.
  induction 1 as [|A sets HA Hsets IH]; [constructor|].
  rewrite bind_cons, fmap_app. apply NoDup_app. split_and!; [| |done].
  - unfold rules_of_set. destruct (dict_get support_map L); [|constructor].
    destruct (rule_of _ _ _ _ _ _); simpl; [apply NoDup_singleton|constructor].
  - intros t (r & -> & Hr)%list_elem_of_fmap
      (r' & E & (A' & Hr' & HA')%list_elem_of_bind)%list_elem_of_fmap.
    apply elem_of_rules_of_set in Hr, Hr'. rewrite Hr, Hr' in E.
    apply HA. replace A with A'; [done|].
    apply set_eq. intros x.
    by rewrite <- !elem_of_elements, <- (sorted_Permutation (elements A)),
      <- (sorted_Permutation (elements A')), E.
Qed.

Lemma rules_from_ordered h L :
  Forall rule_ordered (rules_from h support_map min_confidence L).
Proof.
  apply Forall_forall. intros r Hr.
  apply elem_of_rules_from in Hr
    as (A & sup_A & _ & _ & _ & _ & _ & _ & _ & _ & Hc & Hmc).
  apply py_ge_ordered in Hmc as [Hconf _]. split_and!; [done| |done].
  destruct (fcompare_refl (rule_support r)) as [|Hnan]; [done|].
  apply (fdiv_nan _ sup_A) in Hnan. unfold ordered in Hconf.
  rewrite Hc in Hconf. congruence.
Qed.

Lemma rule_cmp_Eq_antecedent x y : rule_cmp x y = Eq → antecedent x = antecedent y.
Proof.
  unfold rule_cmp, lex_cmp. simpl.
  destruct (fcmp _ _); [|done..]. destruct (fcmp _ _); [|done..].
  generalize (antecedent x) (antecedent y).
  intros t1. induction t1 as [|a t1 IH]; intros [|b t2]; simpl; try done.
  destruct (String.compare a b) eqn:E; [|done..].
  apply String.compare_eq_iff in E as ->. intros ?. f_equal. auto.
Qed.

(** The returned rules are the same for every iteration order of sets. *)
Theorem association_rules_order h h' :
  association_rules_from_frequents h support_map min_confidence
  = association_rules_from_frequents h' support_map min_confidence.
Proof.
  rewrite !association_rules_from_frequents_closed. f_equal.
  apply (py_sort_bind_Permutation _ rule_ordered rule_cmp antecedent rule_cmp_ok).
  - intros x y. apply key_lt_rule_cmp.
  - intros x y _ _. apply rule_cmp_Eq_antecedent.
  - intros L _. split_and!.
    + rewrite !rules_from_sets. by rewrite (antecedent_sets_order h h').
    + apply rules_from_ordered.
    + rewrite rules_from_sets. apply rules_of_sets_NoDup, antecedent_sets_NoDup.
Qed.

End DeriverOrder.

(** ** binary64 satisfies the laws of the comparison *)

Lemma Z_compare_ok : cmp_ok (λ _, True) Z.compare.
Proof.
  split.
  - intros x y _ _. apply Z.compare_antisym.
  - intros x y z _ _ _. rewrite !Z.compare_le_iff. lia.
Qed.

(** A non-NaN float as a point of [Z * (Z * Z)] in lexicographic order:
    the class (infinities, signs, zero), then exponent, then mantissa. *)
Definition b64_rank (x : spec_float) : Z * (Z * Z) :=
  match x with
  | S754_nan => (0, (0, 0))
  | S754_zero _ => (0, (0, 0))
  | S754_infinity s => (if s then -2 else 2, (0, 0))
  | S754_finite s m e => if s then (-1, (- e, Z.neg m)) else (1, (e, Z.pos m))
  end%Z.

Definition b64_rank_cmp : Z * (Z * Z) → Z * (Z * Z) → comparison :=
  lex_cmp Z.compare (lex_cmp Z.compare Z.compare).

Lemma b64_rank_cmp_ok : cmp_ok (λ _, True) b64_rank_cmp.
Proof.
  pose proof (lex_cmp_ok (λ _ : Z, True) (λ q : Z * Z, True ∧ True) _ _ Z_compare_ok
                (lex_cmp_ok (λ _ : Z, True) (λ _ : Z, True) _ _ Z_compare_ok Z_compare_ok))
    as ok.
  split.
  - intros x y _ _. by apply (cmp_antisym _ _ ok).
  - intros x y z _ _ _. by apply (cmp_le_trans _ _ ok).
Qed.

Lemma SFcompare_rank x y :
  x ≠ S754_nan → y ≠ S754_nan →
  SFcompare x y = Some (b64_rank_cmp (b64_rank x) (b64_rank y)).
Proof.
  intros Hx Hy. unfold b64_rank_cmp, lex_cmp.
  destruct x as [sx|sx| |sx mx ex], y as [sy|sy| |sy my ey]; try done;
    try (by destruct sx); try (by destruct sy); try (by destruct sx, sy).
  destruct sx, sy; simpl; try done;
    rewrite ?Z.compare_opp, ?(Z.compare_antisym ex ey); by destruct (ex ?= ey)%Z.
Qed.

Lemma b64_nan_cases (x : spec_float) : x = S754_nan ∨ x ≠ S754_nan.
Proof. destruct x; auto. Qed.

Lemma SFcompare_None x y : SFcompare x y = None ↔ x = S754_nan ∨ y = S754_nan.
Proof.
  split.
  - destruct (b64_nan_cases x) as [|Hx]; [by left|].
    destruct (b64_nan_cases y) as [|Hy]; [by right|].
    by rewrite SFcompare_rank.
  - intros [->| ->]; [done|by destruct x].
Qed.

Lemma b64_py_ge x y :
  @py_ge binary64 x y = true ↔
  x ≠ S754_nan ∧ y ≠ S754_nan ∧ b64_rank_cmp (b64_rank y) (b64_rank x) ≠ Gt.
Proof.
  unfold py_ge. simpl. split.
  - intros Hge.
    assert (x ≠ S754_nan) as Hx by (by intros ->).
    assert (y ≠ S754_nan) as Hy by (intros ->; by destruct x).
    rewrite SFcompare_rank in Hge by done.
    rewrite (cmp_antisym _ _ b64_rank_cmp_ok (b64_rank x) (b64_rank y)) by done.
    split_and!; [done..|]. by destruct (b64_rank_cmp _ _).
  - intros (Hx & Hy & Hle). rewrite SFcompare_rank by done.
    rewrite (cmp_antisym _ _ b64_rank_cmp_ok (b64_rank x) (b64_rank y)) in Hle by done.
    by destruct (b64_rank_cmp _ _).
Qed.

#[global] Instance binary64_laws : PyFloatLaws binary64.
Proof.
  split.
  - intros x y. simpl.
    destruct (b64_nan_cases x) as [->|Hx]; [by destruct y|].
    destruct (b64_nan_cases y) as [->|Hy]; [by destruct x|].
    rewrite !SFcompare_rank by done. simpl. f_equal.
    by apply (cmp_antisym _ _ b64_rank_cmp_ok).
  - intros x y. simpl. rewrite !SFcompare_None. tauto.
  - intros x. simpl. destruct x as [s|s| |s m e]; auto; left; simpl.
    + by destruct s.
    + destruct s; by rewrite Z.compare_refl, Pos.compare_cont_refl.
  - intros x y z. rewrite !b64_py_ge. intros (Hx & Hy & Hxy) (_ & Hz & Hyz).
    split_and!; [done..|]. by apply (cmp_le_trans _ _ b64_rank_cmp_ok _ (b64_rank y)).
  - intros x y. simpl.
    destruct x as [sx|sx| |sx mx ex], y as [sy|sy| |sy my ey]; try done;
      try (by destruct sx); try (by destruct sy); try (by destruct sx, sy).
    destruct sx, sy; simpl; try done;
      rewrite (Z.compare_antisym ex ey); destruct (ex ?= ey)%Z; simpl;
      by rewrite ?(Pos.compare_cont_antisym my mx), ?(Pos.compare_cont_antisym mx my),
        ?CompOpp_involutive.
  - intros x y. simpl. intros [->|Hy]%SFcompare_None; [done|]. by rewrite Hy.
Qed.

(** ** binary64 rounds the quotient of two ints monotonically *)

Section Binary64Division.
Local Open Scope Z_scope.

Lemma digits2_pos_size p : digits2_pos p = Pos.size p.
Proof. induction p; simpl; congruence. Qed.

Lemma Zdigits2_bounds m : 0 < m → 2 ^ (Zdigits2 m - 1) ≤ m < 2 ^ Zdigits2 m.
Proof.
  destruct m as [|p|p]; try lia. intros _. simpl. rewrite digits2_pos_size.
  pose proof (Pos.size_gt p) as Hgt. pose proof (Pos.size_le p) as Hle.
  split.
  - assert (2 ^ Z.pos (Pos.size p) ≤ 2 * Z.pos p) as H.
    { apply Pos2Z.pos_le_pos in Hle. rewrite Pos2Z.inj_pow in Hle.
      by rewrite Pos2Z.inj_xO in Hle. }
    replace (Z.pos (Pos.size p)) with (Z.succ (Z.pos (Pos.size p) - 1)) in H by lia.
    rewrite Z.pow_succ_r in H by lia. lia.
  - rewrite <- Pos2Z.inj_pow. apply Pos2Z.pos_lt_pos. exact Hgt.
Qed.

Lemma Zdigits2_unique m d : 0 < m → 2 ^ (d - 1) ≤ m < 2 ^ d → Zdigits2 m = d.
Proof.
  intros Hm [H1 H2]. pose proof (Zdigits2_bounds m Hm) as [H3 H4].
  assert (0 < d).
  { destruct (Z_lt_le_dec 0 d); [done|].
    assert (2 ^ d ≤ 1); [|lia].
    destruct (Z.eq_dec d 0) as [->|]; [simpl; lia|rewrite Z.pow_neg_r by lia; lia]. }
  assert (0 < Zdigits2 m). { destruct m; simpl; lia. }
  destruct (Z.lt_trichotomy (Zdigits2 m) d) as [Hlt|[->|Hgt]]; [|done|].
  - assert (2 ^ Zdigits2 m ≤ 2 ^ (d - 1)) by (apply Z.pow_le_mono_r; lia). lia.
  - assert (2 ^ d ≤ 2 ^ (Zdigits2 m - 1)) by (apply Z.pow_le_mono_r; lia). lia.
Qed.

Definition core_e (a n : Z) : Z := Z.max (Zdigits2 a - Zdigits2 n - 53) (-1074).
Definition core_q (a n : Z) : Z := (a * 2 ^ (- core_e a n)) / n.
Definition core_r (a n : Z) : Z := (a * 2 ^ (- core_e a n)) mod n.

Lemma Zdigits2_mono a n : 0 < a → a ≤ n → Zdigits2 a ≤ Zdigits2 n.
Proof.
  intros Ha Han.
  pose proof (Zdigits2_bounds a Ha) as [H1 _].
  pose proof (Zdigits2_bounds n ltac:(lia)) as [_ H2].
  destruct (Z_le_gt_dec (Zdigits2 a) (Zdigits2 n)) as [|Hgt]; [done|].
  assert (2 ^ Zdigits2 n ≤ 2 ^ (Zdigits2 a - 1)); [|lia].
  apply Z.pow_le_mono_r; [lia|].
  assert (0 < Zdigits2 n) by (destruct n; simpl; lia). lia.
Qed.

Lemma core_e_bounds a n : 0 < a → a ≤ n → -1074 ≤ core_e a n ≤ -53.
Proof.
  intros Ha Han. pose proof (Zdigits2_mono a n Ha Han). unfold core_e. lia.
Qed.

Lemma SFdiv_core_binary_eq a n :
  0 < a → a ≤ n →
  SFdiv_core_binary b64_prec b64_emax a 0 n 0
  = (core_q a n, core_e a n, new_location n (core_r a n)).
Proof.
  intros Ha Han. pose proof (core_e_bounds a n Ha Han) as He.
  unfold SFdiv_core_binary, fexp, emin, b64_prec, b64_emax.
  rewrite !Z.add_0_r. 
  change (3 - 1024 - 53) with (-1074).
  fold (core_e a n).
  rewrite Z.min_l by lia.
  replace (0 - 0 - core_e a n) with (- core_e a n) by lia.
  destruct (- core_e a n) as [|s|s] eqn:Es; [lia| |lia].
  rewrite Z.shiftl_mul_pow2 by lia.
  unfold core_q, core_r. rewrite Es.
  unfold Z.div, Z.modulo. by destruct (Z.div_eucl _ _).
Qed.

(** The position of a quotient between two integers, as a number. *)
Definition loc_code (l : location) : Z :=
  match l with
  | loc_Exact => 0
  | loc_Inexact Lt => 1
  | loc_Inexact Eq => 2
  | loc_Inexact Gt => 3
  end.

Definition rec_code (mrs : shr_record) : Z :=
  4 * shr_m mrs + loc_code (loc_of_shr_record mrs).

(** Twice the integer part of [2 * X / n], plus one when [n] does not divide
    [X]: the integer part of [X / n], its first fractional bit and whether
    anything follows. *)
Definition tau (X n : Z) : Z := 2 * (X / n) + (if X mod n =? 0 then 0 else 1).

Lemma div_mod_small x n : 0 ≤ x < n → x / n = 0 ∧ x mod n = x.
Proof. intros. split; [by apply Z.div_small|by apply Z.mod_small]. Qed.

Lemma div_mod_second x n : n ≤ x < 2 * n → x / n = 1 ∧ x mod n = x - n.
Proof.
  intros. assert (x / n = 1) as E.
  { symmetry. apply (Z.div_unique x n 1 (x - n)); lia. }
  split; [done|]. pose proof (Z.div_mod x n ltac:(lia)). rewrite E in *. lia.
Qed.

Lemma new_location_code n r :
  0 < n → 0 ≤ r < n →
  loc_code (new_location n r)
  = 2 * ((2 * r) / n) + (if (2 * r) mod n =? 0 then 0 else 1).
Proof.
  intros Hn Hr. unfold new_location, new_location_even, new_location_odd.
  destruct (Z.eqb_spec r 0) as [->|Hr0].
  { replace (2 * 0) with 0 by lia. rewrite Zdiv_0_l, Zmod_0_l. simpl.
    by destruct (IntDef.Z.even n). }
  change (IntDef.Z.even n) with (Z.even n).
  destruct (Z.even n) eqn:Heven.
  - destruct (Z.compare_spec (2 * r) n) as [E|Hlt|Hgt]; simpl;
      (destruct (Z.eqb_spec r 0) as [|_]; [done|]).
    + rewrite E, Z.div_same, Z.mod_same by lia. done.
    + destruct (div_mod_small (2 * r) n) as [-> ->]; [lia|].
      destruct (Z.eqb_spec (2 * r) 0); [lia|done].
    + destruct (div_mod_second (2 * r) n) as [-> ->]; [lia|].
      destruct (Z.eqb_spec (2 * r - n) 0); [lia|done].
  - assert (Z.odd n = true) as Hodd by (by rewrite <- Z.negb_even, Heven).
    apply Z.odd_spec in Hodd as [k Hk].
    destruct (Z.compare_spec (2 * r + 1) n) as [E|Hlt|Hgt]; simpl;
      (destruct (Z.eqb_spec r 0) as [|_]; [done|]).
    + destruct (div_mod_small (2 * r) n) as [-> ->]; [lia|].
      destruct (Z.eqb_spec (2 * r) 0); [lia|done].
    + destruct (div_mod_small (2 * r) n) as [-> ->]; [lia|].
      destruct (Z.eqb_spec (2 * r) 0); [lia|done].
    + destruct (div_mod_second (2 * r) n) as [-> ->]; [lia|].
      destruct (Z.eqb_spec (2 * r - n) 0); [lia|done].
Qed.

Lemma shr_record_of_loc_code m l : rec_code (shr_record_of_loc m l) = 4 * m + loc_code l.
Proof. unfold rec_code. by destruct l as [|[]]. Qed.

Lemma shr_1_code mrs :
  0 ≤ shr_m mrs →
  rec_code (shr_1 mrs)
  = 2 * shr_m mrs + (if loc_code (loc_of_shr_record mrs) =? 0 then 0 else 1) ∧
  shr_m (shr_1 mrs) = shr_m mrs / 2.
Proof.
  destruct mrs as [m r s]. unfold rec_code. intros Hm. simpl in Hm.
  destruct m as [|[p|p|]|]; try lia; destruct r, s; simpl; split; try lia;
    try (apply Z.div_unique with (r := 1); lia);
    try (apply Z.div_unique with (r := 0); lia).
Qed.

Lemma core_q_normal a n :
  0 < a → a ≤ n → -1074 ≤ Zdigits2 a - Zdigits2 n - 53 →
  2 ^ 52 ≤ core_q a n < 2 ^ 54.
Proof.
  intros Ha Han Hnorm. pose proof (Zdigits2_mono a n Ha Han) as Hd.
  pose proof (Zdigits2_bounds a Ha) as [Ha1 Ha2].
  pose proof (Zdigits2_bounds n ltac:(lia)) as [Hn1 Hn2].
  assert (0 < Zdigits2 a) as Hda by (destruct a; simpl; lia).
  unfold core_q, core_e. rewrite Z.max_l by lia.
  set (k := Zdigits2 n - Zdigits2 a) in *.
  replace (- (Zdigits2 a - Zdigits2 n - 53)) with (53 + k) by lia.
  replace (Zdigits2 n - 1) with ((Zdigits2 a - 1) + k) in Hn1 by lia.
  replace (Zdigits2 n) with (1 + ((Zdigits2 a - 1) + k)) in Hn2 by lia.
  replace (Zdigits2 a) with (1 + (Zdigits2 a - 1)) in Ha2 by lia.
  rewrite !Z.pow_add_r in * by lia.
  change (2 ^ 1) with 2 in *.
  set (A := 2 ^ (Zdigits2 a - 1)) in *. set (K := 2 ^ k) in *.
  assert (0 < A) by (apply Z.pow_pos_nonneg; lia).
  assert (0 < K) by (apply Z.pow_pos_nonneg; lia).
  change (2 ^ 54) with (2 * 2 ^ 53). change (2 ^ 52) with (2 ^ 53 / 2).
  set (P := 2 ^ 53) in *. assert (P = 2 * (P / 2)) as HP by (by vm_compute).
  assert (0 < P / 2) by (by vm_compute).
  split.
  - apply Z.div_le_lower_bound; [lia|]. nia.
  - apply Z.div_lt_upper_bound; [lia|]. nia.
Qed.

Lemma core_q_subnormal a n :
  0 < a → a ≤ n → Zdigits2 a - Zdigits2 n - 53 < -1074 →
  0 ≤ core_q a n < 2 ^ 53.
Proof.
  intros Ha Han Hsub.
  pose proof (Zdigits2_bounds a Ha) as [Ha1 Ha2].
  pose proof (Zdigits2_bounds n ltac:(lia)) as [Hn1 Hn2].
  assert (0 < Zdigits2 a) as Hda by (destruct a; simpl; lia).
  unfold core_q, core_e. rewrite Z.max_r by lia.
  change (- -1074) with (1022 + 52).
  set (k := Zdigits2 n - Zdigits2 a - 1022) in *.
  replace (Zdigits2 n - 1) with ((Zdigits2 a - 1) + 1022 + k) in Hn1 by lia.
  replace (Zdigits2 a) with (1 + (Zdigits2 a - 1)) in Ha2 by lia.
  rewrite !Z.pow_add_r in * by lia.
  change (2 ^ 1) with 2 in *.
  set (A := 2 ^ (Zdigits2 a - 1)) in *. set (K := 2 ^ k) in *.
  set (Q := 2 ^ 1022) in *.
  assert (0 < A) by (apply Z.pow_pos_nonneg; lia).
  assert (0 < K) by (apply Z.pow_pos_nonneg; lia).
  assert (0 < Q) by (apply Z.pow_pos_nonneg; lia).
  change (2 ^ 53) with (2 * 2 ^ 52).
  set (P := 2 ^ 52) in *. assert (0 < P) by (by vm_compute).
  split.
  - apply Z.div_pos; nia.
  - apply Z.div_lt_upper_bound; [lia|]. nia.
Qed.

Lemma Zdigits2_le q k : 0 ≤ k → 0 ≤ q < 2 ^ k → Zdigits2 q ≤ k.
Proof.
  intros Hk [Hq0 Hq]. destruct (Z.eq_dec q 0) as [->|]; [simpl; lia|].
  pose proof (Zdigits2_bounds q ltac:(lia)) as [H1 _].
  destruct (Z_le_gt_dec (Zdigits2 q) k); [done|].
  assert (2 ^ k ≤ 2 ^ (Zdigits2 q - 1)) by (apply Z.pow_le_mono_r; lia). lia.
Qed.

Lemma Zdigits2_gt q k : 0 ≤ k → 2 ^ k ≤ q → k < Zdigits2 q.
Proof.
  intros Hk Hq. assert (0 < 2 ^ k) by (apply Z.pow_pos_nonneg; lia).
  pose proof (Zdigits2_bounds q ltac:(lia)) as [_ H2].
  destruct (Z_lt_le_dec k (Zdigits2 q)); [done|].
  assert (0 < Zdigits2 q) by (destruct q; simpl; lia).
  assert (2 ^ Zdigits2 q ≤ 2 ^ k) by (apply Z.pow_le_mono_r; lia). lia.
Qed.

(** The exponent after the first alignment. *)
Definition e1_of (a n : Z) : Z :=
  Z.max (Zdigits2 (core_q a n) + core_e a n - 53) (-1074).

Lemma tau_double X n :
  0 < n → 0 ≤ X →
  tau (2 * X) n
  = 4 * (X / n) + (2 * ((2 * (X mod n)) / n)
                   + (if (2 * (X mod n)) mod n =? 0 then 0 else 1)).
Proof.
  intros Hn HX. unfold tau.
  pose proof (Z.div_mod X n ltac:(lia)) as E.
  pose proof (Z.mod_pos_bound X n Hn) as Hr.
  set (q := X / n) in *. set (r := X mod n) in *.
  assert (2 * X = 2 * r + (2 * q) * n) as -> by lia.
  rewrite Z.div_add, Z.mod_add by lia. lia.
Qed.

Lemma tau_halve X n c :
  0 < n → 0 ≤ X →
  c = 2 * ((2 * (X mod n)) / n) + (if (2 * (X mod n)) mod n =? 0 then 0 else 1) →
  2 * (X / n) + (if c =? 0 then 0 else 1) = tau X n.
Proof.
  intros Hn HX ->. unfold tau. f_equal.
  pose proof (Z.mod_pos_bound X n Hn) as Hr. set (r := X mod n) in *.
  destruct (Z.eqb_spec r 0) as [E|Hr0].
  { rewrite E. replace (2 * 0) with 0 by lia. by rewrite Zdiv_0_l, Zmod_0_l. }
  destruct (Z_lt_le_dec (2 * r) n).
  - destruct (div_mod_small (2 * r) n) as [-> ->]; [lia|].
    destruct (Z.eqb_spec (2 * r) 0); [lia|done].
  - destruct (div_mod_second (2 * r) n) as [-> ->]; [lia|].
    by destruct (2 * r - n =? 0).
Qed.

Lemma shr_m_of_loc m l : shr_m (shr_record_of_loc m l) = m.
Proof. by destruct l as [|[]]. Qed.

Lemma loc_of_shr_record_of_loc m l : loc_of_shr_record (shr_record_of_loc m l) = l.
Proof. by destruct l as [|[]]. Qed.

Lemma first_shift a n :
  0 < a → a ≤ n →
  ∃ mrs,
    shr_fexp b64_prec b64_emax (core_q a n) (core_e a n)
      (new_location n (core_r a n)) = (mrs, e1_of a n) ∧
    rec_code mrs = tau (a * 2 ^ (1 - e1_of a n)) n ∧
    0 ≤ shr_m mrs < 2 ^ 53 ∧
    (-1074 < e1_of a n → 2 ^ 52 ≤ shr_m mrs).
Proof.
  intros Ha Han. pose proof (core_e_bounds a n Ha Han) as He.
  unfold shr_fexp, fexp, emin, b64_prec, b64_emax.
  change (3 - 1024 - 53) with (-1074). fold (e1_of a n).
  set (X := a * 2 ^ (- core_e a n)).
  assert (0 ≤ X) as HX by (unfold X; apply Z.mul_nonneg_nonneg; [lia|apply Z.pow_nonneg; lia]).
  pose proof (Z.mod_pos_bound X n ltac:(lia)) as Hr. fold (core_r a n) in Hr.
  assert (loc_code (new_location n (core_r a n))
          = 2 * ((2 * (X mod n)) / n) + (if (2 * (X mod n)) mod n =? 0 then 0 else 1))
    as Hcode by (apply new_location_code; [lia|done]).
  assert (core_q a n = X / n) as Hq by done.
  assert (a * 2 ^ (1 - core_e a n) = 2 * X) as HX2.
  { unfold X. replace (1 - core_e a n) with (1 + - core_e a n) by lia.
    rewrite Z.pow_add_r by lia. change (2 ^ 1) with 2. lia. }
  assert (e1_of a n = core_e a n →
          ∃ mrs,
            shr (shr_record_of_loc (core_q a n) (new_location n (core_r a n)))
              (core_e a n) (e1_of a n - core_e a n) = (mrs, e1_of a n) ∧
            rec_code mrs = tau (a * 2 ^ (1 - e1_of a n)) n ∧
            shr_m mrs = core_q a n) as Hnoshift.
  { intros ->. rewrite Z.sub_diag. simpl shr. eexists. split; [done|].
    rewrite shr_record_of_loc_code, shr_m_of_loc, Hcode, HX2, tau_double by lia.
    by rewrite Hq. }
  destruct (Z_le_gt_dec (-1074) (Zdigits2 a - Zdigits2 n - 53)) as [Hnorm|Hsub].
  - pose proof (core_q_normal a n Ha Han Hnorm) as [Hq1 Hq2].
    pose proof (Zdigits2_gt (core_q a n) 52 ltac:(lia) Hq1) as Hd1.
    pose proof (Zdigits2_le (core_q a n) 54 ltac:(lia) ltac:(lia)) as Hd2.
    pose proof (Zdigits2_bounds (core_q a n) ltac:(lia)) as [Hb1 Hb2].
    destruct (Z.eq_dec (Zdigits2 (core_q a n)) 53) as [E53|Hne].
    + destruct Hnoshift as (mrs & Hshr & Hc & Hm); [unfold e1_of; lia|].
      rewrite E53 in Hb2.
      exists mrs. rewrite Hm. split_and!; [done|done|lia|lia|intros _; lia].
    + assert (Zdigits2 (core_q a n) = 54) as E54 by lia.
      assert (e1_of a n = core_e a n + 1) as -> by (unfold e1_of; lia).
      replace (core_e a n + 1 - core_e a n) with 1 by lia. simpl shr.
      eexists. split; [done|].
      destruct (shr_1_code (shr_record_of_loc (core_q a n) (new_location n (core_r a n))))
        as [Hc Hm].
      { rewrite shr_m_of_loc. lia. }
      rewrite shr_m_of_loc, loc_of_shr_record_of_loc in Hc.
      rewrite shr_m_of_loc in Hm. rewrite Hc, Hm.
      replace (1 - (core_e a n + 1)) with (- core_e a n) by lia. fold X.
      rewrite E54 in Hb1, Hb2. change (54 - 1) with 53 in Hb1.
      split; [rewrite Hq; apply tau_halve; [lia|done|exact Hcode]|]. split.
      * split; [apply Z.div_pos; lia|]. apply Z.div_lt_upper_bound; [lia|].
        change (2 * 2 ^ 53) with (2 ^ 54). lia.
      * intros _. apply Z.div_le_lower_bound; [lia|].
        change (2 * 2 ^ 52) with (2 ^ 53). lia.
  - pose proof (core_q_subnormal a n Ha Han ltac:(lia)) as [Hq1 Hq2].
    pose proof (Zdigits2_le (core_q a n) 53 ltac:(lia) ltac:(lia)) as Hd2.
    assert (core_e a n = -1074) as Ee by (unfold core_e; lia).
    assert (e1_of a n = -1074) as E1 by (unfold e1_of; lia).
    destruct Hnoshift as (mrs & Hshr & Hc & Hm); [lia|].
    exists mrs. rewrite Hm. split_and!; [done|done|lia|lia|intros ?; lia].
Qed.

(** Rounding to nearest, ties to even, on a code [4 * m + c]. *)
Definition rne4 (t : Z) : Z :=
  let m := t / 4 in
  let c := t mod 4 in
  if c <? 2 then m
  else if c =? 2 then (if Z.even m then m else m + 1)
  else m + 1.

Lemma loc_code_bounds l : 0 ≤ loc_code l < 4.
Proof. destruct l as [|[]]; simpl; lia. Qed.

Lemma rec_code_div mrs : rec_code mrs / 4 = shr_m mrs ∧ rec_code mrs mod 4 = loc_code (loc_of_shr_record mrs).
Proof.
  unfold rec_code. pose proof (loc_code_bounds (loc_of_shr_record mrs)) as Hc.
  set (c := loc_code _) in *. set (m := shr_m mrs).
  assert ((4 * m + c) / 4 = m) as E.
  { symmetry. apply (Z.div_unique _ 4 m c); lia. }
  split; [done|]. pose proof (Z.div_mod (4 * m + c) 4 ltac:(lia)). lia.
Qed.

Lemma round_nearest_even_code mrs :
  round_nearest_even (shr_m mrs) (loc_of_shr_record mrs) = rne4 (rec_code mrs).
Proof.
  unfold rne4. destruct (rec_code_div mrs) as [-> ->].
  change IntDef.Z.even with Z.even.
  by destruct (loc_of_shr_record mrs) as [|[]].
Qed.

(** The float with mantissa [m <= 2^53] at exponent [e]. *)
Definition finish (m e : Z) : spec_float :=
  match m with
  | Z0 => S754_zero false
  | Zpos p =>
      if m =? 2 ^ 53 then S754_finite false (Z.to_pos (2 ^ 52)) (e + 1)
      else S754_finite false p e
  | Zneg _ => S754_nan
  end.

Lemma second_shift m e :
  0 ≤ m ≤ 2 ^ 53 → -1074 ≤ e ≤ 900 →
  (let '(mrs, e') := shr_fexp b64_prec b64_emax m e loc_Exact in
   match shr_m mrs with
   | Z0 => S754_zero false
   | Zpos p => if e' <=? b64_emax - b64_prec then S754_finite false p e'
               else S754_infinity false
   | Zneg _ => S754_nan
   end) = finish m e.
Proof.
  intros Hm He. unfold shr_fexp, fexp, emin, b64_prec, b64_emax.
  change (3 - 1024 - 53) with (-1074). change (1024 - 53) with 971.
  destruct (Z.eq_dec m (2 ^ 53)) as [->|Hne].
  - change (Zdigits2 (2 ^ 53)) with 54.
    replace (Z.max (54 + e - 53) (-1074) - e) with 1 by lia.
    simpl. destruct (Z.leb_spec (e + 1) 971); [done|lia].
  - pose proof (Zdigits2_le m 53 ltac:(lia) ltac:(lia)) as Hd.
    assert (Z.max (Zdigits2 m + e - 53) (-1074) - e ≤ 0) as Hs by lia.
    destruct (Z.max (Zdigits2 m + e - 53) (-1074) - e) as [|s|s] eqn:Es; [|lia|];
      simpl; unfold finish; destruct m as [|p|p]; try lia; try done;
      (destruct (Z.eqb_spec (Z.pos p) (2 ^ 53)); [done|]);
      (destruct (Z.leb_spec e 971); [done|lia]).
Qed.

Lemma rne4_bounds t :
  0 ≤ t → t / 4 ≤ rne4 t ≤ t / 4 + 1.
Proof.
  intros Ht. unfold rne4.
  destruct (t mod 4 <? 2); [lia|]. destruct (t mod 4 =? 2); [|lia].
  destruct (Z.even (t / 4)); lia.
Qed.

Lemma b64_div_pos_eq a n :
  0 < a → a ≤ n →
  let t := tau (a * 2 ^ (1 - e1_of a n)) n in
  b64_div_pos a n = finish (rne4 t) (e1_of a n) ∧
  0 ≤ t ∧ t / 4 < 2 ^ 53 ∧ (-1074 < e1_of a n → 2 ^ 52 ≤ t / 4) ∧
  -1074 ≤ e1_of a n ≤ -52.
Proof.
  intros Ha Han t. unfold b64_div_pos.
  rewrite SFdiv_core_binary_eq by done.
  destruct (first_shift a n Ha Han) as (mrs & Hshr & Hc & Hm & Hnorm).
  pose proof (core_e_bounds a n Ha Han) as He.
  assert (-1074 ≤ e1_of a n ≤ -52) as He1.
  { split; [unfold e1_of; lia|].
    destruct (Z_le_gt_dec (-1074) (Zdigits2 a - Zdigits2 n - 53)) as [Hn|Hs].
    - pose proof (core_q_normal a n Ha Han Hn) as [Hq1 Hq2].
      pose proof (Zdigits2_le (core_q a n) 54 ltac:(lia) ltac:(lia)).
      unfold e1_of. lia.
    - pose proof (core_q_subnormal a n Ha Han ltac:(lia)) as [Hq1 Hq2].
      pose proof (Zdigits2_le (core_q a n) 53 ltac:(lia) ltac:(lia)).
      unfold e1_of. lia. }
  destruct (rec_code_div mrs) as [Hdiv Hmod].
  fold t in Hc. rewrite Hc in Hdiv.
  assert (0 ≤ t) as Ht.
  { rewrite <- Hc. unfold rec_code.
    pose proof (loc_code_bounds (loc_of_shr_record mrs)). lia. }
  split_and!; [|done|lia|rewrite Hdiv; exact Hnorm|lia|lia].
  unfold binary_round_aux. rewrite Hshr, round_nearest_even_code, Hc.
  apply second_shift; [|lia].
  pose proof (rne4_bounds t Ht). lia.
Qed.

Lemma tau_mono X X' n : 0 < n → 0 ≤ X → X ≤ X' → tau X n ≤ tau X' n.
Proof.
  intros Hn HX HXX'. unfold tau.
  pose proof (Z.div_le_mono X X' n Hn HXX') as Hq.
  pose proof (Z.div_mod X n ltac:(lia)) as E.
  pose proof (Z.div_mod X' n ltac:(lia)) as E'.
  pose proof (Z.mod_pos_bound X n Hn) as Hr.
  pose proof (Z.mod_pos_bound X' n Hn) as Hr'.
  destruct (Z.eqb_spec (X mod n) 0) as [E0|Hne], (Z.eqb_spec (X' mod n) 0) as [E0'|Hne'];
    try lia.
  destruct (Z.eq_dec (X / n) (X' / n)) as [Eq|]; [|lia].
  rewrite Eq in E. lia.
Qed.

Lemma rne4_mono t t' : 0 ≤ t → t ≤ t' → rne4 t ≤ rne4 t'.
Proof.
  intros Ht Htt'.
  pose proof (rne4_bounds t Ht) as Hb. pose proof (rne4_bounds t' ltac:(lia)) as Hb'.
  pose proof (Z.div_le_mono t t' 4 ltac:(lia) Htt') as Hq.
  destruct (Z.eq_dec (t / 4) (t' / 4)) as [Eq|]; [|lia].
  pose proof (Z.div_mod t 4 ltac:(lia)) as E.
  pose proof (Z.div_mod t' 4 ltac:(lia)) as E'.
  pose proof (Z.mod_pos_bound t 4 ltac:(lia)) as Hr.
  pose proof (Z.mod_pos_bound t' 4 ltac:(lia)) as Hr'.
  assert (t mod 4 ≤ t' mod 4) as Hc by lia.
  unfold rne4. rewrite <- Eq.
  destruct (Z.ltb_spec (t mod 4) 2), (Z.ltb_spec (t' mod 4) 2),
    (Z.eqb_spec (t mod 4) 2), (Z.eqb_spec (t' mod 4) 2),
    (Z.even (t / 4)); lia.
Qed.

Lemma e1_of_mono a b n : 0 < a → a ≤ b → b ≤ n → e1_of a n ≤ e1_of b n.
Proof.
  intros Ha Hab Hbn. unfold e1_of.
  pose proof (core_e_bounds a n Ha ltac:(lia)) as Hea.
  pose proof (core_e_bounds b n ltac:(lia) Hbn) as Heb.
  destruct (Z.eq_dec (core_q a n) 0) as [Eq0|Hq0].
  { rewrite Eq0. simpl Zdigits2.
    destruct (Z_le_gt_dec (-1074) (Zdigits2 a - Zdigits2 n - 53)) as [Hn|Hs].
    - pose proof (core_q_normal a n Ha ltac:(lia) Hn). lia.
    - assert (core_e a n = -1074) by (unfold core_e; lia). lia. }
  assert (0 ≤ core_q a n) as Hqa.
  { unfold core_q. apply Z.div_pos; [|lia].
    apply Z.mul_nonneg_nonneg; [lia|apply Z.pow_nonneg; lia]. }
  assert (0 ≤ core_q b n) as Hqb.
  { unfold core_q. apply Z.div_pos; [|lia].
    apply Z.mul_nonneg_nonneg; [lia|apply Z.pow_nonneg; lia]. }
  pose proof (Zdigits2_bounds (core_q a n) ltac:(lia)) as [Hda _].
  assert (core_q b n < 2 ^ Zdigits2 (core_q b n)) as Hdb.
  { destruct (Z.eq_dec (core_q b n) 0) as [->|]; [done|].
    by apply Zdigits2_bounds; lia. }
  assert (0 < Zdigits2 (core_q a n)) as Hdapos by (destruct (core_q a n); simpl; lia).
  assert (0 ≤ Zdigits2 (core_q b n)) as Hdbpos by (destruct (core_q b n); simpl; lia).
  enough (Zdigits2 (core_q a n) + core_e a n ≤ Zdigits2 (core_q b n) + core_e b n) by lia.
  destruct (Z_le_gt_dec (Zdigits2 (core_q a n) + core_e a n)
              (Zdigits2 (core_q b n) + core_e b n)) as [|Hgt]; [done|exfalso].
  set (sa := - core_e a n) in *. set (sb := - core_e b n) in *.
  set (da := Zdigits2 (core_q a n)) in *. set (db := Zdigits2 (core_q b n)) in *.
  assert (core_q a n * n ≤ a * 2 ^ sa) as Hxa.
  { unfold core_q. fold sa. rewrite Z.mul_comm. apply Z.mul_div_le. lia. }
  assert (b * 2 ^ sb < (core_q b n + 1) * n) as Hxb.
  { unfold core_q. fold sb.
    pose proof (Z.div_mod (b * 2 ^ sb) n ltac:(lia)).
    pose proof (Z.mod_pos_bound (b * 2 ^ sb) n ltac:(lia)). lia. }
  assert (0 < 2 ^ sa) by (apply Z.pow_pos_nonneg; lia).
  assert (0 < 2 ^ sb) by (apply Z.pow_pos_nonneg; lia).
  assert (2 ^ (db + sa) ≤ 2 ^ (da - 1 + sb)) as Hpow
    by (apply Z.pow_le_mono_r; lia).
  rewrite !Z.pow_add_r in Hpow by lia.
  set (Pa := 2 ^ sa) in *. set (Pb := 2 ^ sb) in *.
  set (Da := 2 ^ (da - 1)) in *. set (Db := 2 ^ db) in *.
  assert (0 < Da) by (apply Z.pow_pos_nonneg; lia).
  set (qa := core_q a n) in *. set (qb := core_q b n) in *.
  clearbody Pa Pb Da Db qa qb. clear -Ha Hab Hbn Hda Hdb Hxa Hxb Hpow H H0 H1.
  assert (b * Pb * Pa < Db * n * Pa) as S1.
  { apply Z.mul_lt_mono_pos_r; [done|]. nia. }
  assert (Db * n * Pa ≤ Da * n * Pb) as S2 by nia.
  assert (Da * n * Pb ≤ a * Pa * Pb) as S3.
  { apply Z.mul_le_mono_nonneg_r; [lia|]. nia. }
  assert (a * Pa * Pb ≤ b * Pb * Pa) as S4 by nia.
  lia.
Qed.

Lemma b64_py_ge_finite m m' e e' :
  e < e' ∨ (e = e' ∧ (m ≤ m')%positive) →
  @py_ge binary64 (S754_finite false m' e') (S754_finite false m e) = true.
Proof.
  unfold py_ge. simpl. intros [Hlt|[-> Hle]].
  - by rewrite (proj2 (Z.compare_gt_iff e' e)) by lia.
  - rewrite Z.compare_refl.
    change (PosDef.Pos.compare_cont Eq m' m) with (m' ?= m)%positive.
    destruct (Pos.compare_spec m' m); try done. lia.
Qed.

Lemma finish_le_same m m' e :
  0 ≤ m → m ≤ m' → m' ≤ 2 ^ 53 → @py_ge binary64 (finish m' e) (finish m e) = true.
Proof.
  intros Hm Hmm' Hm'. unfold finish.
  destruct m as [|p|p]; [|clear Hm|lia].
  { destruct m' as [|p'|p']; [done| |lia]. by destruct (_ =? _). }
  destruct m' as [|p'|p']; [lia| |lia].
  destruct (Z.eqb_spec (Z.pos p') (2 ^ 53)) as [E'|Hne'],
    (Z.eqb_spec (Z.pos p) (2 ^ 53)) as [E|Hne]; apply b64_py_ge_finite; lia.
Qed.

Lemma finish_le_cross m m' e e' :
  0 ≤ m ≤ 2 ^ 53 → 2 ^ 52 ≤ m' ≤ 2 ^ 53 → e < e' →
  @py_ge binary64 (finish m' e') (finish m e) = true.
Proof.
  intros Hm Hm' He. unfold finish.
  destruct m' as [|p'|p']; [lia| |lia].
  destruct m as [|p|p]; [|clear Hm|lia].
  { by destruct (_ =? _). }
  destruct (Z.eqb_spec (Z.pos p') (2 ^ 53)) as [E'|Hne'],
    (Z.eqb_spec (Z.pos p) (2 ^ 53)) as [E|Hne]; apply b64_py_ge_finite; lia.
Qed.

Theorem b64_div_pos_mono a b n :
  0 < a → a ≤ b → b ≤ n →
  @py_ge binary64 (b64_div_pos b n) (b64_div_pos a n) = true.
Proof.
  intros Ha Hab Hbn.
  destruct (b64_div_pos_eq a n Ha ltac:(lia)) as (-> & Hta & Hma & _ & Hea).
  destruct (b64_div_pos_eq b n ltac:(lia) Hbn) as (-> & Htb & Hmb & Hnb & Heb).
  pose proof (e1_of_mono a b n Ha Hab Hbn) as He.
  pose proof (rne4_bounds _ Hta) as Hra. pose proof (rne4_bounds _ Htb) as Hrb.
  destruct (Z.eq_dec (e1_of a n) (e1_of b n)) as [E|Hne].
  - rewrite E in *. apply finish_le_same; [| |lia].
    + assert (0 ≤ tau (a * 2 ^ (1 - e1_of b n)) n / 4) by (apply Z.div_pos; lia). lia.
    + apply rne4_mono; [done|]. apply tau_mono; [lia| |].
      * apply Z.mul_nonneg_nonneg; [lia|apply Z.pow_nonneg; lia].
      * apply Z.mul_le_mono_nonneg_r; [apply Z.pow_nonneg; lia|done].
  - apply finish_le_cross; [| |lia].
    + assert (0 ≤ tau (a * 2 ^ (1 - e1_of a n)) n / 4) by (apply Z.div_pos; lia). lia.
    + specialize (Hnb ltac:(lia)). lia.
Qed.

Theorem b64_div_pos_zero b n :
  0 < b → b ≤ n → @py_ge binary64 (b64_div_pos b n) (S754_zero false) = true.
Proof.
  intros Hb Hbn.
  destruct (b64_div_pos_eq b n Hb Hbn) as (-> & Htb & Hmb & Hnb & Heb).
  pose proof (rne4_bounds _ Htb) as Hrb.
  assert (0 ≤ tau (b * 2 ^ (1 - e1_of b n)) n / 4) by (apply Z.div_pos; lia).
  unfold finish. destruct (rne4 _) as [|p|p]; [done| |lia].
  by destruct (_ =? _).
Qed.

End Binary64Division.

#[global] Instance binary64_int_div_mono : IntDivMonotone binary64.
Proof.
  intros a b n Hab Hbn Hn. simpl.
  destruct n as [|n]; [lia|]. destruct b as [|b].
  { assert (a = 0) as -> by lia. done. }
  destruct a as [|a]; [apply b64_div_pos_zero; lia|].
  apply b64_div_pos_mono; lia.
Qed.

(** ** Sets of two items *)

Lemma tuple_of_pair h (x y : string) : x ≠ y → tuple_of h {[x; y]} ≡ₚ [x; y].
Proof.
  intros Hne. rewrite tuple_of_perm, elements_union_singleton by set_solver.
  by rewrite elements_singleton.
Qed.

(** * The claims *)

(** ** Concrete inputs *)

(** The transactions [[{A,B}, {A,B,C}, {A}, {B,C}]]. *)
Definition scenario : list transaction :=
  [["A"; "B"]; ["A"; "B"; "C"]; ["A"]; ["B"; "C"]].

(** The doubles [0.5], [0.75], [0.6], [1.0] and [0.5 / 0.75]. *)
Definition b64_0_5 : spec_float := S754_finite false 4503599627370496 (-53).
Definition b64_0_75 : spec_float := S754_finite false 6755399441055744 (-53).
Definition b64_0_6 : spec_float := S754_finite false 5404319552844595 (-53).
Definition b64_1_0 : spec_float := S754_finite false 4503599627370496 (-52).
Definition b64_0_5_div_0_75 : spec_float := S754_finite false 6004799503160661 (-53).

(** The support table of the scenario at [min_support = 0.5]. *)
Definition scenario_table : dict spec_float :=
  [({["A"]}, b64_0_75); ({["B"]}, b64_0_75); ({["C"]}, b64_0_5);
   ({["A"; "B"]}, b64_0_5); ({["B"; "C"]}, b64_0_5)].

(** Records and rules over binary64. *)
Definition record64 (itemset : list string) (support : spec_float)
  : @freq_record binary64 :=
  @Build_freq_record binary64 itemset support.

Definition rule64 (antecedent consequent : list string)
    (support confidence : spec_float) : @rule binary64 :=
  @Build_rule binary64 antecedent consequent support confidence.

(** One transaction [["A", "B"]]: every itemset has support [1.0]. *)
Definition one_transaction : list transaction := [["A"; "B"]].

Definition one_transaction_table : dict spec_float :=
  [({["A"]}, b64_1_0); ({["B"]}, b64_1_0); ({["A"; "B"]}, b64_1_0)].


(** C1, as stated, does not hold: on the scenario the function does not
    return four records ending with the single pair [{A,B}], whatever the
    iteration order of sets and the fuel. *)
Lemma C1_scenario_counterexample :
  ¬ ∃ (h : set_order) (fuel : nat) (t_AB : list string) (smap : dict spec_float),
      @frequent_itemsets_bruteforce binary64 h fuel scenario b64_0_5
      = Ok ([record64 ["A"] b64_0_75;
             record64 ["B"] b64_0_75;
             record64 ["C"] b64_0_5;
             record64 (t_AB) b64_0_5], smap).
Proof.
  intros (h & fuel & t_AB & smap & E).
  apply (frequent_itemsets_bruteforce_Ok (H:=binary64)) in E. injection E as E _.
  apply (f_equal length) in E.
  rewrite length_map, (frequent_sets_order (H:=binary64) h ascending_order) in E.
  replace (@frequent_sets binary64 ascending_order scenario b64_0_5)
    with [{["A"]}; {["B"]}; {["C"]}; {["A"; "B"]}; {["B"; "C"]} : frozenset] in E
    by reflexivity.
  discriminate.
Qed.

(** C1, amended.  On [[{A,B}, {A,B,C}, {A}, {B,C}]] with [min_support = 0.5]
    the function returns A (0.75), B (0.75), C (0.5), then the two pairs
    [{A,B}] (0.5) and [{B,C}] (0.5), and nothing of size 3; with
    [min_confidence = 0.6] the rules are C→B (confidence 1.0), then A→B, B→A
    and B→C (confidence 0.5/0.75 each), in this order. *)
Theorem C1_scenario (h : set_order) (fuel : nat) :
  4 ≤ fuel →
  tuple_of h {["A"; "B"]} ≡ₚ ["A"; "B"] ∧
  tuple_of h {["B"; "C"]} ≡ₚ ["B"; "C"] ∧
  @frequent_itemsets_bruteforce binary64 h fuel scenario b64_0_5
  = Ok ([record64 ["A"] b64_0_75;
         record64 ["B"] b64_0_75;
         record64 ["C"] b64_0_5;
         record64 (tuple_of h {["A"; "B"]}) b64_0_5;
         record64 (tuple_of h {["B"; "C"]}) b64_0_5],
        scenario_table) ∧
  @association_rules_from_frequents binary64 h scenario_table b64_0_6
  = Ok [rule64 ["C"] ["B"] b64_0_5 b64_1_0;
        rule64 ["A"] ["B"] b64_0_5 b64_0_5_div_0_75;
        rule64 ["B"] ["A"] b64_0_5 b64_0_5_div_0_75;
        rule64 ["B"] ["C"] b64_0_5 b64_0_5_div_0_75].
Proof.
  intros Hfuel. split_and!.
  - by apply tuple_of_pair.
  - by apply tuple_of_pair.
  - rewrite (frequent_itemsets_bruteforce_closed (H:=binary64)); last first.
    { rewrite (unique_items_order h ascending_order).
      eapply Nat.lt_le_trans; [|exact Hfuel]. vm_compute. lia. }
    rewrite (frequent_sets_order (H:=binary64) h ascending_order).
    replace (@frequent_sets binary64 ascending_order scenario b64_0_5)
      with [{["A"]}; {["B"]}; {["C"]}; {["A"; "B"]}; {["B"; "C"]} : frozenset]
      by reflexivity.
    replace (@record_all binary64 scenario [] _) with scenario_table
      by reflexivity.
    apply (f_equal (λ l, Ok (l, scenario_table))).
    cbn [map]. unfold record_of, record64. rewrite !tuple_of_singleton.
    repeat (f_equal; [f_equal; reflexivity|]). done.
  - rewrite (association_rules_order (F:=binary64) _ _ h ascending_order).
    reflexivity.
Qed.

Lemma C1_scenario_witness :
  tuple_of ascending_order {["A"; "B"]} ≡ₚ ["A"; "B"] ∧
  tuple_of ascending_order {["B"; "C"]} ≡ₚ ["B"; "C"] ∧
  @frequent_itemsets_bruteforce binary64 ascending_order 4 scenario b64_0_5
  = Ok ([record64 ["A"] b64_0_75;
         record64 ["B"] b64_0_75;
         record64 ["C"] b64_0_5;
         record64 (tuple_of ascending_order {["A"; "B"]}) b64_0_5;
         record64 (tuple_of ascending_order {["B"; "C"]}) b64_0_5],
        scenario_table) ∧
  @association_rules_from_frequents binary64 ascending_order scenario_table b64_0_6
  = Ok [rule64 ["C"] ["B"] b64_0_5 b64_1_0;
        rule64 ["A"] ["B"] b64_0_5 b64_0_5_div_0_75;
        rule64 ["B"] ["A"] b64_0_5 b64_0_5_div_0_75;
        rule64 ["B"] ["C"] b64_0_5 b64_0_5_div_0_75].
Proof. apply (C1_scenario ascending_order 4). lia. Defined.

Lemma _support_count_supersets (transactions : list transaction) (S : frozenset) :
  _support_count transactions S
  = length (filter (λ t : transaction, set_Forall (λ x, x ∈ t) S) transactions).
Proof.
  induction transactions as [|t ts IH]; [done|].
  assert (S ⊆ list_to_set t ↔ set_Forall (λ x, x ∈ t) S) as Hiff.
  { split; intros Hs x Hx.
    - apply Hs in Hx. by apply elem_of_list_to_set in Hx.
    - apply elem_of_list_to_set. by apply Hs. }
  rewrite _support_count_cons, filter_cons, IH.
  destruct (decide (S ⊆ list_to_set t)) as [Hs|Hs];
    destruct (decide (set_Forall (λ x, x ∈ t) S)) as [Hf|Hf];
    [simpl; lia|by destruct Hf; apply Hiff|by destruct Hs; apply Hiff|done].
Qed.

Lemma length_unique_items (h : set_order) (transactions : list transaction) :
  length (unique_items h transactions)
  = size (list_to_set (concat transactions) : frozenset).
Proof.
  unfold unique_items. by rewrite sorted_Permutation, length_tuple_of.
Qed.

(** C2. On a non-empty transaction list, every non-empty set [S] of items
    that occur in the transactions, whose support (the number of
    transactions that hold every item of [S], divided by the number of
    transactions) reaches [min_support], equality included, is in the
    returned list and in the support table, with that support; and every
    recorded itemset, in the list and in the table, carries that support of
    its own, which reaches [min_support].  One unit of fuel per distinct
    item and one more suffice. *)
Theorem C2_frequents_complete {F : PyFloat} {laws : PyFloatLaws F}
    {mono : IntDivMonotone F} (h : set_order)
    (transactions : list transaction) (min_support : float) (fuel : nat) :
  transactions ≠ [] →
  size (list_to_set (concat transactions) : frozenset) < fuel →
  ∃ results smap,
    frequent_itemsets_bruteforce h fuel transactions min_support
      = Ok (results, smap) ∧
    ∀ S : frozenset,
      let sup :=
        int_div
          (length (filter (λ t : transaction, set_Forall (λ x, x ∈ t) S) transactions))
          (length transactions) in
      (S ≠ ∅ → (∀ x, x ∈ S → ∃ t, t ∈ transactions ∧ x ∈ t) →
       py_ge sup min_support = true →
       {| itemset := tuple_of h S; support := sup |} ∈ results ∧
       dict_get smap S = Some sup) ∧
      (∀ r, r ∈ results → list_to_set (itemset r) = S →
         support r = sup ∧ py_ge sup min_support = true) ∧
      (∀ v, dict_get smap S = Some v → v = sup ∧ py_ge sup min_support = true).
Proof.
  intros Hne Hfuel. eexists _, _.
  split; [apply frequent_itemsets_bruteforce_closed; by rewrite length_unique_items|].
  intros S sup.
  assert (sup = support_of transactions S) as Hsup.
  { unfold sup, support_of. by rewrite _support_count_supersets. }
  clearbody sup. subst sup. split_and!.
  - intros HS HU Hfreq.
    assert (S ∈ frequent_sets h transactions min_support) as Hin.
    { apply elem_of_frequent_sets_laws; [done|]. split_and!; [done| |done].
      intros x Hx. apply elem_of_list_to_set, elem_of_unique_items. by apply HU. }
    split.
    + apply list_elem_of_fmap. by exists S.
    + rewrite dict_get_record_all. by rewrite decide_True.
  - intros r (c & -> & Hc)%list_elem_of_fmap. simpl.
    rewrite list_to_set_tuple_of. intros ->.
    by apply elem_of_frequent_sets in Hc as (Hc & _).
  - intros v. rewrite dict_get_record_all.
    destruct (decide _) as [Hc|]; [|done]. intros [= <-].
    by apply elem_of_frequent_sets in Hc as (Hc & _).
Qed.

Lemma C2_frequents_complete_witness :
  ∃ results smap,
    @frequent_itemsets_bruteforce binary64 ascending_order 4 scenario b64_0_5
      = Ok (results, smap) ∧
    ∀ S : frozenset,
      let sup :=
        @int_div binary64
          (length (filter (λ t : transaction, set_Forall (λ x, x ∈ t) S) scenario))
          (length scenario) in
      (S ≠ ∅ → (∀ x, x ∈ S → ∃ t, t ∈ scenario ∧ x ∈ t) →
       @py_ge binary64 sup b64_0_5 = true →
       {| itemset := tuple_of ascending_order S; support := sup |} ∈ results ∧
       dict_get smap S = Some sup) ∧
      (∀ r, r ∈ results → list_to_set (itemset r) = S →
         support r = sup ∧ @py_ge binary64 sup b64_0_5 = true) ∧
      (∀ v, dict_get smap S = Some v →
         v = sup ∧ @py_ge binary64 sup b64_0_5 = true).
Proof.
  apply (C2_frequents_complete (F:=binary64) ascending_order scenario b64_0_5 4).
  - discriminate.
  - vm_compute. lia.
Defined.

(** C3 fails on the code.  On [[["A", "B"]]] with [min_support = 0.5] the
    record of the itemset [{A,B}] holds [tuple(cand)], the items in the
    iteration order of the frozenset: [("A", "B")] in a process that iterates
    it in ascending order, [("B", "A")] in one that iterates it in descending
    order.  The two returned record lists differ; the support tables and the
    derived rules do not. *)
Theorem C3_itemset_tuple_follows_set_order :
  @frequent_itemsets_bruteforce binary64 ascending_order 3 one_transaction b64_0_5
  = Ok ([record64 ["A"] b64_1_0; record64 ["B"] b64_1_0;
         record64 ["A"; "B"] b64_1_0], one_transaction_table) ∧
  @frequent_itemsets_bruteforce binary64 descending_order 3 one_transaction b64_0_5
  = Ok ([record64 ["A"] b64_1_0; record64 ["B"] b64_1_0;
         record64 ["B"; "A"] b64_1_0], one_transaction_table) ∧
  @frequent_itemsets_bruteforce binary64 ascending_order 3 one_transaction b64_0_5
  ≠ @frequent_itemsets_bruteforce binary64 descending_order 3 one_transaction b64_0_5 ∧
  @association_rules_from_frequents binary64 ascending_order one_transaction_table b64_0_5
  = @association_rules_from_frequents binary64 descending_order one_transaction_table b64_0_5.
Proof.
  assert (@frequent_itemsets_bruteforce binary64 ascending_order 3 one_transaction b64_0_5
          = Ok ([record64 ["A"] b64_1_0; record64 ["B"] b64_1_0;
                 record64 ["A"; "B"] b64_1_0], one_transaction_table)) as Easc
    by reflexivity.
  assert (@frequent_itemsets_bruteforce binary64 descending_order 3 one_transaction b64_0_5
          = Ok ([record64 ["A"] b64_1_0; record64 ["B"] b64_1_0;
                 record64 ["B"; "A"] b64_1_0], one_transaction_table)) as Edesc
    by reflexivity.
  split_and!; [done..| |].
  - rewrite Easc, Edesc. by intros [=].
  - apply (association_rules_order (F:=binary64)).
Qed.

(** C4. [association_rules_from_frequents] returns, on every support table
    and [min_confidence]: each rule has a non-empty antecedent and a
    non-empty consequent, disjoint, each a strictly ascending tuple; their
    union is a key of size at least 2 of the table; the rule's support is the
    table's value for the union; its confidence is that support divided by
    the table's value for the antecedent, and reaches [min_confidence]; and
    the list is ordered by confidence descending, then support descending,
    then antecedent tuple ascending. *)
Theorem C4_rules_valid_and_sorted {F : PyFloat} {laws : PyFloatLaws F}
    (h : set_order) (support_map : dict float) (min_confidence : float) :
  ∃ rules,
    association_rules_from_frequents h support_map min_confidence = Ok rules ∧
    (∀ r, r ∈ rules →
       let A : frozenset := list_to_set (antecedent r) in
       let B : frozenset := list_to_set (consequent r) in
       antecedent r ≠ [] ∧ consequent r ≠ [] ∧ A ## B ∧
       StronglySorted (λ a b, str_lt a b = true) (antecedent r) ∧
       StronglySorted (λ a b, str_lt a b = true) (consequent r) ∧
       A ∪ B ∈ dict_keys support_map ∧ 2 ≤ size (A ∪ B) ∧
       dict_get support_map (A ∪ B) = Some (rule_support r) ∧
       (∃ sup_A, dict_get support_map A = Some sup_A ∧
                 py_eq sup_A fzero = false ∧
                 confidence r = fdiv (rule_support r) sup_A) ∧
       py_ge (confidence r) min_confidence = true) ∧
    StronglySorted rule_before rules.
Proof.
  eexists. split; [apply association_rules_from_frequents_closed|].
  set (emitted := filter _ _ ≫= _).
  assert (∀ r, r ∈ emitted →
            ∃ L (A : frozenset) sup_A,
              L ∈ dict_keys support_map ∧ 2 ≤ size L ∧
              A ≠ ∅ ∧ A ⊂ L ∧ L ∖ A ≠ ∅ ∧
              antecedent r = sorted (tuple_of h A) ∧
              consequent r = sorted (tuple_of h (L ∖ A)) ∧
              dict_get support_map L = Some (rule_support r) ∧
              dict_get support_map A = Some sup_A ∧
              py_eq sup_A fzero = false ∧
              confidence r = fdiv (rule_support r) sup_A ∧
              py_ge (confidence r) min_confidence = true) as Hemitted.
  { intros r (L & Hr & [HsL HL]%list_elem_of_filter)%list_elem_of_bind.
    apply elem_of_rules_from in Hr as (A & sup_A & Hr). by exists L, A, sup_A. }
  split.
  - intros r Hr. rewrite py_sort_Permutation in Hr.
    destruct (Hemitted r Hr)
      as (L & A & sup_A & HL & HsL & HA & [HAL _] & HB & -> & -> & HgL & HgA & Hz & Hc & Hmc).
    cbn zeta. rewrite !list_to_set_sorted_tuple_of.
    assert (A ∪ L ∖ A = L) as -> by (symmetry; by apply union_difference_L).
    split_and!; try done.
    + by intros ?%sorted_tuple_of_nil.
    + by intros ?%sorted_tuple_of_nil.
    + apply disjoint_difference_r1. done.
    + apply sorted_tuple_of_strict.
    + apply sorted_tuple_of_strict.
    + by exists sup_A.
  - assert (Forall rule_ordered emitted) as Hord.
    { apply Forall_forall. intros r Hr.
      destruct (Hemitted r Hr)
        as (L & A & sup_A & _ & _ & _ & _ & _ & _ & _ & _ & _ & _ & Hc & Hmc).
      apply py_ge_ordered in Hmc as [Hconf _]. split_and!; [done| |done].
      destruct (fcompare_refl (rule_support r)) as [|Hnan]; [done|].
      apply (fdiv_nan _ sup_A) in Hnan. unfold ordered in Hconf.
      rewrite Hc in Hconf. congruence. }
    pose proof (py_sort_sorted_cmp (λ x y, key_lt (sort_key x) (sort_key y))
                  rule_ordered rule_cmp emitted rule_cmp_ok key_lt_rule_cmp Hord)
      as Hsorted.
    assert (Forall rule_ordered
              (py_sort (λ x y, key_lt (sort_key x) (sort_key y)) emitted)) as Hord'
      by by rewrite py_sort_Permutation.
    induction Hsorted as [|x s Hs IH Hx]; [constructor|].
    apply Forall_cons in Hord' as [Px Hord']. constructor; [by apply IH|].
    rewrite Forall_forall in Hx, Hord' |- *. intros y Hy.
    apply rule_cmp_before; auto.
Qed.


Lemma C4_rules_valid_and_sorted_witness :
  ∃ rules,
    @association_rules_from_frequents binary64 ascending_order scenario_table b64_0_6
      = Ok rules ∧
    (∀ r, r ∈ rules →
       let A : frozenset := list_to_set (antecedent r) in
       let B : frozenset := list_to_set (consequent r) in
       antecedent r ≠ [] ∧ consequent r ≠ [] ∧ A ## B ∧
       StronglySorted (λ a b, str_lt a b = true) (antecedent r) ∧
       StronglySorted (λ a b, str_lt a b = true) (consequent r) ∧
       A ∪ B ∈ dict_keys scenario_table ∧ 2 ≤ size (A ∪ B) ∧
       dict_get scenario_table (A ∪ B) = Some (rule_support r) ∧
       (∃ sup_A, dict_get scenario_table A = Some sup_A ∧
                 @py_eq binary64 sup_A (S754_zero false) = false ∧
                 confidence r = SFdiv b64_prec b64_emax (rule_support r) sup_A) ∧
       @py_ge binary64 (confidence r) b64_0_6 = true) ∧
    StronglySorted rule_before rules.
Proof.
  exact (C4_rules_valid_and_sorted (F:=binary64) ascending_order scenario_table b64_0_6).
Defined.

(** C5. If no candidate of size [k] reaches [min_support], the returned list
    and the support table hold no itemset of size [k] or more, and no
    candidate of a size above [k] is handed to [_support_count]. *)
Theorem C5_level_stop `{PyFloat} (h : set_order)
    (transactions : list transaction) (min_support : float) (fuel k0 : nat) :
  length (unique_items h transactions) < fuel →
  1 ≤ k0 →
  Forall (λ c, py_ge (support_of transactions (list_to_set c)) min_support = false)
    (combinations (unique_items h transactions) k0) →
  ∃ st,
    bruteforce_run h fuel transactions min_support = Ok st ∧
    frequent_itemsets_bruteforce h fuel transactions min_support
      = Ok (results st, support_map st) ∧
    (∀ r, r ∈ results st → length (itemset r) < k0) ∧
    (∀ key, key ∈ dict_keys (support_map st) → size key < k0) ∧
    (∀ c, c ∈ evaluated st → size c ≤ k0).
Proof.
  intros Hfuel Hk0 Hnone.
  assert (stop_level h transactions min_support ≤ k0) as Hstop.
  { apply stop_level_le; [done|]. unfold frequents_at, candidates_at.
    induction Hnone as [|c cs Hc _ IH]; [done|].
    cbn [map]. rewrite filter_cons_False; [exact IH|].
    unfold frequent. by rewrite Hc. }
  eexists. split; [by apply bruteforce_run_closed|].
  split; [by rewrite frequent_itemsets_bruteforce_closed|]. simpl.
  split_and!.
  - intros r (c & -> & Hc)%list_elem_of_fmap.
    apply elem_of_frequent_sets in Hc as (_ & _ & Hc).
    simpl. rewrite length_tuple_of. lia.
  - intros key [Hkey|Hkey]%dict_keys_record_all; [by apply elem_of_nil in Hkey|].
    apply elem_of_frequent_sets in Hkey as (_ & _ & Hc). lia.
  - intros c (j & Hc & [_ Hj]%elem_of_seq)%list_elem_of_bind.
    apply elem_of_candidates_at in Hc as [_ <-]. lia.
Qed.

Lemma C5_level_stop_witness :
  ∃ st,
    @bruteforce_run binary64 ascending_order 4 scenario b64_0_5 = Ok st ∧
    @frequent_itemsets_bruteforce binary64 ascending_order 4 scenario b64_0_5
      = Ok (results st, support_map st) ∧
    (∀ r, r ∈ results st → length (itemset r) < 3) ∧
    (∀ key, key ∈ dict_keys (support_map st) → size key < 3) ∧
    (∀ c, c ∈ evaluated st → size c ≤ 3).
Proof.
  apply (C5_level_stop (H:=binary64) ascending_order scenario b64_0_5 4 3).
  - vm_compute. lia.
  - lia.
  - replace (combinations (unique_items ascending_order scenario) 3)
      with [["A"; "B"; "C"]] by (by vm_compute).
    constructor; [by vm_compute|constructor].
Defined.

(** C6. The returned records come level by level, sizes ascending: for
    [k = 1, 2, ...] up to the last level that retains something, the retained
    candidates of size [k] in the order of
    [itertools.combinations(unique_items, k)], where [unique_items] is the
    strictly ascending list of the items that occur in the transactions. *)
Theorem C6_result_order `{PyFloat} (h : set_order)
    (transactions : list transaction) (min_support : float) (fuel : nat) :
  length (unique_items h transactions) < fuel →
  let U := unique_items h transactions in
  StronglySorted (λ a b, str_lt a b = true) U ∧
  (∀ x, x ∈ U ↔ ∃ t, t ∈ transactions ∧ x ∈ t) ∧
  ∃ K results smap,
    frequent_itemsets_bruteforce h fuel transactions min_support
      = Ok (results, smap) ∧
    results =
      seq 1 K ≫= (λ k,
        (λ c, {| itemset := tuple_of h c; support := support_of transactions c |})
        <$> filter (λ c, py_ge (support_of transactions c) min_support = true)
              (list_to_set <$> combinations U k)) ∧
    (∀ k, 1 ≤ k ≤ K →
       filter (λ c, py_ge (support_of transactions c) min_support = true)
         (list_to_set <$> combinations U k) ≠ []) ∧
    StronglySorted (λ r1 r2, length (itemset r1) ≤ length (itemset r2)) results.
Proof.
  intros Hfuel U.
  split; [apply unique_items_sorted|]. split; [apply elem_of_unique_items|].
  pose proof (stop_level_bounds h transactions min_support) as HK.
  exists (stop_level h transactions min_support - 1).
  eexists _, _.
  split; [by apply frequent_itemsets_bruteforce_closed|].
  assert (map (record_of h transactions)
            (frequent_sets h transactions min_support)
          = seq 1 (stop_level h transactions min_support - 1) ≫= (λ k,
              record_of h transactions <$> frequents_at transactions min_support U k))
    as E.
  { unfold frequent_sets. fold U.
    induction (seq 1 _) as [|j js IH]; [done|].
    rewrite !bind_cons, map_app. by rewrite IH. }
  split; [exact E|]. split.
  - intros j Hj. apply (stop_level_below h transactions min_support). lia.
  - rewrite E. apply StronglySorted_bind_levels.
    intros j r (c & -> & Hc)%list_elem_of_fmap. simpl.
    rewrite length_tuple_of.
    by apply (elem_of_frequents_at h) in Hc as (_ & _ & ?).
Qed.

Lemma C6_result_order_witness :
  let U := unique_items ascending_order scenario in
  StronglySorted (λ a b, str_lt a b = true) U ∧
  (∀ x, x ∈ U ↔ ∃ t, t ∈ scenario ∧ x ∈ t) ∧
  ∃ K results smap,
    @frequent_itemsets_bruteforce binary64 ascending_order 4 scenario b64_0_5
      = Ok (results, smap) ∧
    results =
      seq 1 K ≫= (λ k,
        (λ c, {| itemset := tuple_of ascending_order c;
                 support := @support_of binary64 scenario c |})
        <$> filter (λ c, @py_ge binary64 (support_of scenario c) b64_0_5 = true)
              (list_to_set <$> combinations U k)) ∧
    (∀ k, 1 ≤ k ≤ K →
       filter (λ c, @py_ge binary64 (support_of scenario c) b64_0_5 = true)
         (list_to_set <$> combinations U k) ≠ []) ∧
    StronglySorted (λ r1 r2, length (itemset r1) ≤ length (itemset r2)) results.
Proof.
  apply (C6_result_order (H:=binary64) ascending_order scenario b64_0_5 4).
  vm_compute. lia.
Defined.

(** C7. For a fixed transaction list and itemsets [A ⊆ B], [_support_count]
    of [B] is at most that of [A]; and, the transaction list not being empty,
    both supports (count divided by the number of transactions) are computed
    and the support of [A] is [>=] the support of [B]. *)
Theorem C7_support_monotone {F : PyFloat} {mono : IntDivMonotone F}
    (transactions : list transaction) (A B : frozenset) :
  A ⊆ B →
  _support_count transactions B ≤ _support_count transactions A ∧
  (transactions ≠ [] →
   ∃ sA sB,
     int_truediv (_support_count transactions A) (length transactions) = Ok sA ∧
     int_truediv (_support_count transactions B) (length transactions) = Ok sB ∧
     py_ge sA sB = true).
Proof.
  intros HAB. pose proof (_support_count_anti transactions A B HAB) as Hcnt.
  split; [done|]. intros Hne. unfold int_truediv.
  destruct (Nat.eqb_spec (length transactions) 0) as [E|Hn].
  { by destruct transactions. }
  eexists _, _. split_and!; [done..|].
  apply int_div_mono; [done|apply _support_count_le|lia].
Qed.

Lemma C7_support_monotone_witness :
  _support_count scenario {["A"; "B"]} ≤ _support_count scenario {["A"]} ∧
  ∃ sA sB : spec_float,
    @int_truediv binary64 (_support_count scenario {["A"]}) (length scenario) = Ok sA ∧
    @int_truediv binary64 (_support_count scenario {["A"; "B"]}) (length scenario) = Ok sB ∧
    @py_ge binary64 sA sB = true.
Proof.
  destruct (C7_support_monotone (F:=binary64) scenario {["A"]} {["A"; "B"]})
    as [Hcnt Hsup]; [set_solver|].
  split; [exact Hcnt|]. apply Hsup. discriminate.
Defined.

(** C8. On the empty transaction list the function returns an empty record
    list and an empty support table and raises nothing: no candidate exists,
    so the loop body, and with it the division by the transaction count, is
    never run.  Likewise, on any transaction list, when no single item of
    the universe reaches [min_support]. *)
Theorem C8_empty_result `{PyFloat} (h : set_order) (min_support : float) (fuel : nat) :
  (bruteforce_run h (S fuel) [] min_support
     = Ok {| k := 1; support_map := []; freq_this_k := []; results := [];
             evaluated := [] |} ∧
   frequent_itemsets_bruteforce h (S fuel) [] min_support = Ok ([], [])) ∧
  (∀ transactions : list transaction,
     Forall (λ i, py_ge (support_of transactions {[i]}) min_support = false)
       (unique_items h transactions) →
     frequent_itemsets_bruteforce h (S fuel) transactions min_support = Ok ([], [])).
Proof.
  split.
  - unfold frequent_itemsets_bruteforce, bruteforce_run.
    rewrite (level_loop_stop h [] min_support); simpl.
    + by rewrite unique_items_nil.
    + right. apply unique_items_nil.
    + done.
    + by rewrite unique_items_nil.
  - intros transactions Hnone.
    unfold frequent_itemsets_bruteforce, bruteforce_run.
    rewrite level_loop_stop; simpl; [done|apply transactions_or_universe|done|].
    unfold frequents_at, candidates_at. rewrite combinations_1, map_map.
    induction Hnone as [|i U Hi _ IH]; [done|].
    cbn [map]. rewrite filter_cons_False; [exact IH|].
    unfold frequent. cbn [list_to_set foldr].
    rewrite (right_id_L ∅ (∪)). by rewrite Hi.
Qed.



(** C10. [frequent_itemsets_bruteforce] terminates on every transaction list
    and every [min_support]: one unit of fuel per level, [|universe| + 1]
    units are enough, the loop is left at a level [k <= |universe| + 1], and
    level [|universe| + 1] has no candidate. *)
Theorem C10_terminates `{PyFloat} (h : set_order)
    (transactions : list transaction) (min_support : float) (fuel : nat) :
  length (unique_items h transactions) < fuel →
  ∃ st,
    bruteforce_run h fuel transactions min_support = Ok st ∧
    frequent_itemsets_bruteforce h fuel transactions min_support
      = Ok (results st, support_map st) ∧
    k st ≤ length (unique_items h transactions) + 1 ∧
    combinations (unique_items h transactions)
      (length (unique_items h transactions) + 1) = [].
Proof.
  intros Hfuel. eexists. split; [by apply bruteforce_run_closed|].
  split; [by rewrite frequent_itemsets_bruteforce_closed|].
  split; [apply stop_level_bounds|]. apply combinations_length_gt. lia.
Qed.

Lemma C10_terminates_witness :
  ∃ st,
    @bruteforce_run binary64 ascending_order 4 scenario (S754_zero true) = Ok st ∧
    @frequent_itemsets_bruteforce binary64 ascending_order 4 scenario (S754_zero true)
      = Ok (results st, support_map st) ∧
    k st ≤ length (unique_items ascending_order scenario) + 1 ∧
    combinations (unique_items ascending_order scenario)
      (length (unique_items ascending_order scenario) + 1) = [].
Proof.
  apply (C10_terminates (H:=binary64) ascending_order scenario (S754_zero true) 4).
  vm_compute. lia.
Defined.

(** * Further properties of the code *)

(** ** The enumerator and the rule deriver: [src/brute_force.py] *)

(** *** The support table and the record list *)

Section TableFacts.
Context `{PyFloat} (h : set_order).
Variables (transactions : list transaction) (min_support : float).

Lemma dict_set_fresh {V} (m : dict V) key v :
  key ∉ dict_keys m → dict_set m key v = m ++ [(key, v)].
Proof.
  unfold dict_keys. induction m as [|[k0 v0] m IH]; simpl; [done|].
  rewrite not_elem_of_cons. intros [Hne Hm].
  rewrite decide_False by done. by rewrite IH.
Qed.

Lemma record_all_fresh (m : dict float) cs :
  NoDup cs → (∀ c, c ∈ cs → c ∉ dict_keys m) →
  record_all transactions m cs = m ++ map (λ c, (c, support_of transactions c)) cs.
Proof.
  intros Hcs. revert m. induction Hcs as [|c cs Hc Hcs IH]; intros m Hm.
  { simpl. by rewrite app_nil_r. }
  change (record_all transactions m (c :: cs))
    with (record_all transactions (dict_set m c (support_of transactions c)) cs).
  rewrite dict_set_fresh by (apply Hm; left).
  rewrite IH.
  - by rewrite <- app_assoc.
  - intros c' Hc'. unfold dict_keys. rewrite fmap_app, elem_of_app. simpl.
    rewrite list_elem_of_singleton. intros [Hin| ->]; [|done].
    by apply (Hm c'); [right|].
Qed.

Lemma candidates_at_NoDup j : NoDup (candidates_at (unique_items h transactions) j).
Proof.
  unfold candidates_at. apply NoDup_fmap_2_strong.
  - intros c1 c2 [H1 _]%elem_of_combinations [H2 _]%elem_of_combinations.
    apply (list_to_set_sublist_inj (unique_items h transactions));
      [apply unique_items_NoDup|done..].
  - apply combinations_NoDup, unique_items_NoDup.
Qed.

Lemma frequent_sets_NoDup : NoDup (frequent_sets h transactions min_support).
Proof.
  unfold frequent_sets. apply NoDup_bind; [| |apply NoDup_seq].
  - intros j1 j2 c _ _ (_ & _ & <-)%elem_of_frequents_at (_ & _ & <-)%elem_of_frequents_at.
    done.
  - intros j _. unfold frequents_at. apply NoDup_filter, candidates_at_NoDup.
Qed.

Lemma record_all_frequent_sets :
  record_all transactions [] (frequent_sets h transactions min_support)
  = map (λ c, (c, support_of transactions c)) (frequent_sets h transactions min_support).
Proof.
  rewrite record_all_fresh; [done|apply frequent_sets_NoDup|].
  intros c _. apply not_elem_of_nil.
Qed.

End TableFacts.

(** X1. The table and the record list hold the same itemsets with the same
    supports, in the same order and once each; a recorded itemset is a non-
    empty tuple of distinct items that occur in the transactions. *)
Theorem table_matches_records `{PyFloat} (h : set_order)
    (transactions : list transaction) (min_support : float) (fuel : nat) :
  length (unique_items h transactions) < fuel →
  ∃ results smap,
    frequent_itemsets_bruteforce h fuel transactions min_support = Ok (results, smap) ∧
    smap = map (λ r, (list_to_set (itemset r), support r)) results ∧
    NoDup (dict_keys smap) ∧
    ∀ r, r ∈ results →
      itemset r ≠ [] ∧ NoDup (itemset r) ∧
      ∀ x, x ∈ itemset r → ∃ t, t ∈ transactions ∧ x ∈ t.
Proof.
  intros Hfuel. eexists _, _.
  split; [by apply frequent_itemsets_bruteforce_closed|].
  rewrite record_all_frequent_sets. split_and!.
  - rewrite map_map. apply map_ext. intros c. simpl.
    by rewrite list_to_set_tuple_of.
  - unfold dict_keys. rewrite <- list_fmap_compose.
    rewrite (list_fmap_ext _ id (frequent_sets h transactions min_support))
      by done.
    rewrite list_fmap_id. apply frequent_sets_NoDup.
  - intros r (c & -> & Hc)%list_elem_of_fmap. simpl.
    apply elem_of_frequent_sets in Hc as (_ & HcU & Hsize).
    split_and!.
    + intros E. apply (f_equal length) in E. rewrite length_tuple_of in E.
      simpl in E. lia.
    + apply NoDup_tuple_of.
    + intros x Hx. apply (elem_of_unique_items h).
      rewrite <- (list_to_set_tuple_of h c) in HcU.
      apply (elem_of_list_to_set (C:=frozenset)). apply HcU.
      by apply elem_of_list_to_set.
Qed.

Lemma table_matches_records_witness :
  ∃ results smap,
    @frequent_itemsets_bruteforce binary64 ascending_order 4 scenario b64_0_5
      = Ok (results, smap) ∧
    smap = map (λ r, (list_to_set (itemset r), support r)) results ∧
    NoDup (dict_keys smap) ∧
    ∀ r, r ∈ results →
      itemset r ≠ [] ∧ NoDup (itemset r) ∧
      ∀ x, x ∈ itemset r → ∃ t, t ∈ scenario ∧ x ∈ t.
Proof.
  apply (table_matches_records (H:=binary64) ascending_order scenario b64_0_5 4).
  vm_compute. lia.
Defined.

(** *** Transactions as a multiset of item sets *)

Lemma _support_count_sets (transactions : list transaction) (itemset : frozenset) :
  _support_count transactions itemset
  = foldr (λ (s : frozenset) n, (if decide (itemset ⊆ s) then 1 else 0) + n) 0
      (list_to_set <$> transactions).
Proof.
  induction transactions as [|t ts IH]; [done|].
  rewrite _support_count_cons, IH. done.
Qed.

Lemma _support_count_Permutation (ts ts' : list transaction) (itemset : frozenset) :
  (list_to_set <$> ts : list frozenset) ≡ₚ list_to_set <$> ts' →
  _support_count ts itemset = _support_count ts' itemset.
Proof.
  rewrite !_support_count_sets.
  generalize (list_to_set <$> ts : list frozenset)
    (list_to_set <$> ts' : list frozenset).
  induction 1 as [|s l l' _ IH|s1 s2 l|l1 l2 l3 _ IH1 _ IH2]; simpl; lia.
Qed.

Lemma list_to_set_concat (ts : list transaction) :
  list_to_set (C:=frozenset) (concat ts) = ⋃ (list_to_set <$> ts).
Proof.
  induction ts as [|t ts IH]; [done|].
  simpl. by rewrite list_to_set_app_L, IH.
Qed.

Lemma unique_items_Permutation h (ts ts' : list transaction) :
  (list_to_set <$> ts : list frozenset) ≡ₚ list_to_set <$> ts' →
  unique_items h ts = unique_items h ts'.
Proof.
  intros Hperm. unfold unique_items. rewrite !list_to_set_concat.
  do 2 f_equal. apply set_eq. intros x. rewrite !elem_of_union_list.
  by setoid_rewrite Hperm.
Qed.

Section EnumeratorExt.
Context `{PyFloat} (h : set_order).
Variables (ts ts' : list transaction) (min_support : float).
Hypothesis same_counts : ∀ c, _support_count ts c = _support_count ts' c.

Lemma eval_candidate_ext n_tx st c :
  eval_candidate h ts min_support n_tx st c
  = eval_candidate h ts' min_support n_tx st c.
Proof. unfold eval_candidate. by rewrite same_counts. Qed.

Lemma for_each_eval_candidate_ext n_tx cands st :
  for_each (eval_candidate h ts min_support n_tx) cands st
  = for_each (eval_candidate h ts' min_support n_tx) cands st.
Proof.
  revert st. induction cands as [|c cands IH]; intros st; [done|].
  cbn [for_each]. rewrite eval_candidate_ext.
  destruct (eval_candidate h ts' min_support n_tx st c); [|done..].
  cbn [mbind result_bind]. apply IH.
Qed.

Lemma level_loop_ext fuel n_tx U st :
  level_loop h fuel ts min_support n_tx U st
  = level_loop h fuel ts' min_support n_tx U st.
Proof.
  revert st. induction fuel as [|fuel IH]; intros st; [done|].
  cbn [level_loop]. rewrite for_each_eval_candidate_ext.
  destruct (for_each _ _ _) as [st'| |]; [|done..].
  cbn [mbind result_bind]. destruct (freq_this_k st'); [done|]. apply IH.
Qed.

End EnumeratorExt.

(** X2. The enumerator sees the transactions as a multiset of item sets:
    neither the order of the transactions nor the order and repetition of
    items inside a transaction changes what it returns. *)
Theorem transactions_as_multiset_of_sets `{PyFloat} (h : set_order)
    (ts ts' : list transaction) (min_support : float) (fuel : nat) :
  (list_to_set <$> ts : list frozenset) ≡ₚ list_to_set <$> ts' →
  frequent_itemsets_bruteforce h fuel ts min_support
  = frequent_itemsets_bruteforce h fuel ts' min_support.
Proof.
  intros Hperm. unfold frequent_itemsets_bruteforce, bruteforce_run.
  rewrite (unique_items_Permutation h ts ts' Hperm).
  assert (length ts = length ts') as ->.
  { apply Permutation_length in Hperm. by rewrite !length_fmap in Hperm. }
  rewrite (level_loop_ext h ts ts'); [done|].
  intros c. by apply _support_count_Permutation.
Qed.

(** The scenario with its transactions in reverse order, the items of each
    in reverse order and one of them twice. *)
Definition scenario_shuffled : list transaction :=
  [["C"; "B"]; ["A"; "A"]; ["C"; "B"; "A"]; ["B"; "A"]].

Lemma transactions_as_multiset_of_sets_witness :
  @frequent_itemsets_bruteforce binary64 ascending_order 4 scenario b64_0_5
  = @frequent_itemsets_bruteforce binary64 ascending_order 4 scenario_shuffled b64_0_5.
Proof.
  apply (transactions_as_multiset_of_sets (H:=binary64)).
  replace (list_to_set <$> scenario_shuffled : list frozenset)
    with (reverse (list_to_set <$> scenario : list frozenset)) by reflexivity.
  symmetry. apply reverse_Permutation.
Defined.

(** *** Raising the thresholds *)

Lemma filter_bind {A B} (P : B → Prop) `{∀ x, Decision (P x)}
    (f : A → list B) (l : list A) :
  filter P (l ≫= f) = l ≫= (λ x, filter P (f x)).
Proof.
  induction l as [|x l IH]; [done|].
  by rewrite !bind_cons, filter_app, IH.
Qed.

Lemma bind_nil_all {A B} (f : A → list B) (l : list A) :
  (∀ x, x ∈ l → f x = []) → l ≫= f = [].
Proof.
  induction l as [|x l IH]; intros Hf; [done|].
  rewrite bind_cons, Hf, IH; [done| |left].
  intros y Hy. apply Hf. by right.
Qed.

Section MinSupport.
Context {F : PyFloat} {laws : PyFloatLaws F} {mono : IntDivMonotone F}.
Context (h : set_order).
Variables (transactions : list transaction) (m1 m2 : float).
Hypothesis m_le : py_ge m2 m1 = true.

Lemma frequent_weaken c : frequent transactions m2 c → frequent transactions m1 c.
Proof. unfold frequent. intros Hc. by eapply py_ge_trans. Qed.

Lemma frequents_at_filter U j :
  frequents_at transactions m2 U j
  = filter (frequent transactions m2) (frequents_at transactions m1 U j).
Proof.
  unfold frequents_at. rewrite list_filter_filter.
  apply filter_ext_elem_of. intros c _. split; [|by intros [? _]].
  intros Hc. split; [done|by apply frequent_weaken].
Qed.

Lemma stop_level_mono :
  stop_level h transactions m2 ≤ stop_level h transactions m1.
Proof.
  apply stop_level_le; [apply stop_level_bounds|].
  by rewrite frequents_at_filter, stop_level_empty.
Qed.

Lemma frequents_at_above_stop_level j :
  stop_level h transactions m2 ≤ j →
  frequents_at transactions m2 (unique_items h transactions) j = [].
Proof.
  intros Hj.
  destruct (frequents_at transactions m2 (unique_items h transactions) j)
    as [|c cs] eqn:E; [done|].
  assert (c ∈ frequents_at transactions m2 (unique_items h transactions) j) as Hc
    by (rewrite E; left).
  apply elem_of_frequents_at in Hc as (Hfreq & HcU & Hsize).
  destruct (transactions_or_universe h transactions) as [Hne|HU].
  - pose proof (frequent_below_stop_level h transactions m2 Hne c HcU Hfreq). lia.
  - pose proof (stop_level_bounds h transactions m2) as Hb.
    rewrite HU in HcU, Hb. apply subseteq_size in HcU.
    change (list_to_set []) with (∅ : frozenset) in HcU.
    rewrite size_empty in HcU. simpl in Hb. lia.
Qed.

Lemma frequent_sets_filter :
  frequent_sets h transactions m2
  = filter (frequent transactions m2) (frequent_sets h transactions m1).
Proof.
  pose proof stop_level_mono as Hle.
  pose proof (stop_level_bounds h transactions m2) as Hb.
  unfold frequent_sets. rewrite filter_bind.
  replace (stop_level h transactions m1 - 1)
    with ((stop_level h transactions m2 - 1)
          + (stop_level h transactions m1 - stop_level h transactions m2)) by lia.
  rewrite seq_app, bind_app.
  rewrite (bind_nil_all _ (seq (1 + (stop_level h transactions m2 - 1)) _)),
    app_nil_r.
  - induction (seq 1 _) as [|j js IH]; [done|].
    by rewrite !bind_cons, IH, frequents_at_filter.
  - intros j [Hj _]%elem_of_seq. rewrite <- frequents_at_filter.
    apply frequents_at_above_stop_level. lia.
Qed.

End MinSupport.

(** X3. Raising [min_support] removes records and table entries and does
    nothing else: the run at the higher threshold returns the records and
    the table entries of the run at the lower one whose support reaches the
    higher threshold, in the same order. *)
Theorem raising_min_support_filters {F : PyFloat} {laws : PyFloatLaws F}
    {mono : IntDivMonotone F} (h : set_order)
    (transactions : list transaction) (m1 m2 : float) (fuel : nat) :
  py_ge m2 m1 = true →
  length (unique_items h transactions) < fuel →
  ∃ results1 smap1,
    frequent_itemsets_bruteforce h fuel transactions m1 = Ok (results1, smap1) ∧
    frequent_itemsets_bruteforce h fuel transactions m2
    = Ok (filter (λ r, py_ge (support r) m2 = true) results1,
          filter (λ kv, py_ge kv.2 m2 = true) (smap1 : list (frozenset * float))).
Proof.
  intros Hm Hfuel. eexists _, _.
  split; [by apply frequent_itemsets_bruteforce_closed|].
  rewrite frequent_itemsets_bruteforce_closed by done.
  rewrite !record_all_frequent_sets.
  rewrite (frequent_sets_filter h transactions m1 m2 Hm).
  do 2 f_equal.
  - induction (frequent_sets h transactions m1) as [|c cs IH]; [done|].
    cbn [map]. rewrite !filter_cons, <- IH. unfold frequent. simpl.
    by destruct (decide (py_ge (support_of transactions c) m2 = true)).
  - induction (frequent_sets h transactions m1) as [|c cs IH]; [done|].
    cbn [map]. rewrite !filter_cons. unfold frequent in *. simpl.
    destruct (decide (py_ge (support_of transactions c) m2 = true));
      simpl; by rewrite IH.
Qed.

Lemma raising_min_support_filters_witness :
  ∃ results1 smap1,
    @frequent_itemsets_bruteforce binary64 ascending_order 4 scenario b64_0_5
      = Ok (results1, smap1) ∧
    @frequent_itemsets_bruteforce binary64 ascending_order 4 scenario b64_0_75
    = Ok (filter (λ r, @py_ge binary64 (support r) b64_0_75 = true) results1,
          filter (λ kv, @py_ge binary64 kv.2 b64_0_75 = true)
            (smap1 : list (frozenset * spec_float))).
Proof.
  apply (raising_min_support_filters (F:=binary64) ascending_order scenario
           b64_0_5 b64_0_75 4).
  - reflexivity.
  - vm_compute. lia.
Defined.

(** **** [list.sort] and the removal of elements *)

Section SortFilter.
Context {A : Type} (lt : A → A → bool) (P Q : A → Prop) `{∀ x, Decision (Q x)}.
Hypothesis lt_asym : ∀ x y, P x → P y → lt x y = true → lt y x = false.
Hypothesis ge_trans : ∀ x y z, P x → P y → P z →
  lt y x = false → lt z y = false → lt z x = false.

Lemma insert_before_head x l :
  Forall (λ z, lt z x = false) l → insert_before lt x l = x :: l.
Proof. intros [|z l' Hz _]; simpl; [done|by rewrite Hz]. Qed.

Lemma insert_before_filter x l :
  P x → Forall P l →
  StronglySorted (λ a b, lt b a = false) l →
  filter Q (insert_before lt x l)
  = if decide (Q x) then insert_before lt x (filter Q l) else filter Q l.
Proof.
  intros Px HP Hl. induction Hl as [|y l Hl IH Hy]; simpl.
  { rewrite filter_cons, filter_nil. by destruct (decide (Q x)). }
  apply Forall_cons in HP as [Py HP]. specialize (IH HP).
  destruct (lt y x) eqn:Eyx.
  - rewrite !filter_cons, IH.
    destruct (decide (Q y)), (decide (Q x)); simpl; by rewrite ?Eyx.
  - rewrite !filter_cons.
    destruct (decide (Q x)) as [Qx|Qx], (decide (Q y)) as [Qy|Qy]; simpl;
      rewrite ?Eyx; try done.
    symmetry. apply insert_before_head.
    apply Forall_forall. intros z [_ Hz]%list_elem_of_filter.
    rewrite Forall_forall in Hy, HP. apply (ge_trans x y z); auto.
Qed.

Lemma py_sort_filter l :
  Forall P l → filter Q (py_sort lt l) = py_sort lt (filter Q l).
Proof.
  induction 1 as [|x l Px HP IH]; [done|].
  change (py_sort lt (x :: l)) with (insert_before lt x (py_sort lt l)).
  rewrite insert_before_filter; [|done|by rewrite py_sort_Permutation|
    by apply (py_sort_sorted lt P)].
  rewrite filter_cons, IH. by destruct (decide (Q x)).
Qed.

End SortFilter.

Lemma py_sort_filter_cmp {A} (lt : A → A → bool) (P Q : A → Prop)
    `{∀ x, Decision (Q x)} cmp l :
  cmp_ok P cmp →
  (∀ x y, P x → P y → lt x y = true ↔ cmp x y = Lt) →
  Forall P l →
  filter Q (py_sort lt l) = py_sort lt (filter Q l).
Proof.
  intros ok Hlt HP.
  assert (∀ x y, P x → P y → lt y x = false ↔ cmp x y ≠ Gt) as Hle.
  { intros x y Px Py. rewrite <- not_true_iff_false, (Hlt y x) by done.
    rewrite (cmp_antisym _ _ ok x y) by done. by destruct (cmp x y). }
  apply (py_sort_filter lt P Q); [| |done].
  - intros x y Px Py Hxy. apply Hle; [done..|].
    by rewrite (proj1 (Hlt x y Px Py) Hxy).
  - intros x y z Px Py Pz Hxy Hyz. apply Hle; [done..|].
    apply (cmp_le_trans _ _ ok x y z); [done..| |]; by apply Hle.
Qed.

Section MinConfidence.
Context {F : PyFloat} {laws : PyFloatLaws F} (h : set_order).
Variables (support_map : dict float) (c1 c2 : float).
Hypothesis c_le : py_ge c2 c1 = true.

Lemma rule_of_filter L L_support antecedent :
  option_list (rule_of h support_map c2 L L_support antecedent)
  = filter (λ r, py_ge (confidence r) c2 = true)
      (option_list (rule_of h support_map c1 L L_support antecedent)).
Proof.
  unfold rule_of. destruct (decide _); [done|].
  destruct (dict_get support_map _) as [sup_A|]; [|done].
  destruct (py_eq sup_A fzero); [done|].
  destruct (py_ge (fdiv L_support sup_A) c2) eqn:E2.
  - rewrite (py_ge_trans _ _ _ E2 c_le). simpl.
    by rewrite filter_cons_True, filter_nil.
  - destruct (py_ge (fdiv L_support sup_A) c1); simpl; [|done].
    rewrite filter_cons_False, filter_nil; [done|]. simpl. by rewrite E2.
Qed.

Lemma rules_from_filter L :
  rules_from h support_map c2 L
  = filter (λ r, py_ge (confidence r) c2 = true) (rules_from h support_map c1 L).
Proof.
  unfold rules_from. destruct (dict_get support_map L) as [L_support|]; [|done].
  rewrite filter_bind.
  induction (antecedents_of h L) as [|a l IH]; [done|].
  by rewrite !bind_cons, IH, rule_of_filter.
Qed.

End MinConfidence.

(** X4. Raising [min_confidence] removes rules and does nothing else: the
    rules at the higher threshold are the rules at the lower one whose
    confidence reaches the higher threshold, in the same order. *)
Theorem raising_min_confidence_filters {F : PyFloat} {laws : PyFloatLaws F}
    (h : set_order) (support_map : dict float) (c1 c2 : float) :
  py_ge c2 c1 = true →
  ∃ rules1,
    association_rules_from_frequents h support_map c1 = Ok rules1 ∧
    association_rules_from_frequents h support_map c2
    = Ok (filter (λ r, py_ge (confidence r) c2 = true) rules1).
Proof.
  intros Hc. eexists. split; [apply association_rules_from_frequents_closed|].
  rewrite association_rules_from_frequents_closed. f_equal.
  rewrite (py_sort_filter_cmp _ rule_ordered _ rule_cmp);
    [|apply rule_cmp_ok|apply key_lt_rule_cmp|].
  - f_equal. rewrite filter_bind.
    induction (filter _ (dict_keys support_map)) as [|L Ls IH]; [done|].
    by rewrite !bind_cons, IH, (rules_from_filter h support_map c1 c2 Hc).
  - apply Forall_forall. intros r (L & Hr & _)%list_elem_of_bind.
    pose proof (rules_from_ordered support_map c1 h L) as Hord.
    rewrite Forall_forall in Hord. auto.
Qed.

Lemma raising_min_confidence_filters_witness :
  ∃ rules1,
    @association_rules_from_frequents binary64 ascending_order scenario_table b64_0_6
      = Ok rules1 ∧
    @association_rules_from_frequents binary64 ascending_order scenario_table b64_1_0
    = Ok (filter (λ r, @py_ge binary64 (confidence r) b64_1_0 = true) rules1).
Proof.
  apply (raising_min_confidence_filters (F:=binary64) ascending_order scenario_table
           b64_0_6 b64_1_0).
  reflexivity.
Defined.

(** *** Every qualifying rule is emitted, and once *)

(** X5. A pair of a key [L] of the table and a non-empty proper subset [A]
    of it, [A] in the table with a support that is not zero and a confidence
    that reaches [min_confidence], is among the returned rules. *)
Theorem rules_complete `{PyFloat} (h : set_order) (support_map : dict float)
    (min_confidence : float) (L A : frozenset) (L_support sup_A : float) :
  dict_get support_map L = Some L_support →
  A ≠ ∅ → A ⊂ L →
  dict_get support_map A = Some sup_A →
  py_eq sup_A fzero = false →
  py_ge (fdiv L_support sup_A) min_confidence = true →
  ∃ rules,
    association_rules_from_frequents h support_map min_confidence = Ok rules ∧
    {| antecedent := sorted (tuple_of h A);
       consequent := sorted (tuple_of h (L ∖ A));
       rule_support := L_support;
       confidence := fdiv L_support sup_A |} ∈ rules.
Proof.
  intros HL HA HAL HgA Hz Hc. eexists.
  split; [apply association_rules_from_frequents_closed|].
  rewrite py_sort_Permutation. apply list_elem_of_bind. exists L. split.
  - unfold rules_from. rewrite HL.
    assert (A ∈ antecedent_sets h L) as Hin by by apply elem_of_antecedent_sets.
    apply list_elem_of_fmap in Hin as (c & -> & Hc').
    apply list_elem_of_bind. exists c. split; [|done].
    unfold rule_of. rewrite decide_False, HgA, Hz, Hc; [left|].
    intros E. destruct HAL as [HAL1 HAL2]. apply HAL2.
    intros x Hx. destruct (decide (x ∈ (list_to_set c : frozenset))); [done|].
    assert (x ∈ L ∖ list_to_set c) as Hd by (by apply elem_of_difference).
    rewrite E in Hd. by apply elem_of_empty in Hd.
  - apply list_elem_of_filter. split.
    + pose proof (subset_size _ _ HAL) as Hlt.
      destruct (decide (size A = 0)) as [E%size_empty_iff%leibniz_equiv|]; [done|lia].
    + by eapply dict_get_Some_keys.
Qed.

Lemma rules_complete_witness :
  ∃ rules,
    @association_rules_from_frequents binary64 ascending_order scenario_table b64_0_6
      = Ok rules ∧
    rule64 (sorted (tuple_of ascending_order {["A"]}))
      (sorted (tuple_of ascending_order ({["A"; "B"]} ∖ {["A"]})))
      b64_0_5 (SFdiv b64_prec b64_emax b64_0_5 b64_0_75) ∈ rules.
Proof.
  apply (rules_complete (H:=binary64) ascending_order scenario_table b64_0_6
           {["A"; "B"]} {["A"]} b64_0_5 b64_0_75).
  - reflexivity.
  - set_solver.
  - set_solver.
  - reflexivity.
  - reflexivity.
  - reflexivity.
Defined.

Lemma rules_from_union `{PyFloat} h (support_map : dict float) min_confidence L r :
  r ∈ rules_from h support_map min_confidence L →
  list_to_set (antecedent r) ∪ list_to_set (consequent r) = L.
Proof.
  intros (A & sup_A & _ & [HAL _] & _ & -> & -> & _)%elem_of_rules_from.
  rewrite !list_to_set_sorted_tuple_of. symmetry. by apply union_difference_L.
Qed.

(** X6. On a table that holds each key once, as a [dict] does, no rule is
    returned twice: the pairs of antecedent and consequent are distinct. *)
Theorem rules_distinct `{PyFloat} (h : set_order) (support_map : dict float)
    (min_confidence : float) :
  NoDup (dict_keys support_map) →
  ∃ rules,
    association_rules_from_frequents h support_map min_confidence = Ok rules ∧
    NoDup ((λ r, (antecedent r, consequent r)) <$> rules).
Proof.
  intros Hkeys. eexists.
  split; [apply association_rules_from_frequents_closed|].
  rewrite py_sort_Permutation.
  set (Ls := filter _ (dict_keys support_map)).
  apply NoDup_fmap_2_strong.
  - intros r r' (L & Hr & _)%list_elem_of_bind (L' & Hr' & _)%list_elem_of_bind [= Ea Ec].
    pose proof (rules_from_union _ _ _ _ _ Hr) as HL.
    pose proof (rules_from_union _ _ _ _ _ Hr') as HL'.
    rewrite Ea, Ec, HL' in HL. subst L'.
    apply elem_of_rules_from in Hr
      as (A & sup_A & _ & _ & _ & HA & _ & HgL & HgA & _ & Hconf & _).
    apply elem_of_rules_from in Hr'
      as (A' & sup_A' & _ & _ & _ & HA' & _ & HgL' & HgA' & _ & Hconf' & _).
    assert (A = A') as <-.
    { rewrite <- (list_to_set_sorted_tuple_of h A), <- HA, Ea, HA'.
      apply list_to_set_sorted_tuple_of. }
    assert (sup_A = sup_A') as <- by congruence.
    assert (rule_support r = rule_support r') as Es by congruence.
    rewrite <- Es, <- Hconf in Hconf'.
    destruct r, r'; simpl in *; congruence.
  - apply NoDup_bind; [| |by apply NoDup_filter].
    + intros L1 L2 r _ _ Hr1 Hr2.
      by rewrite <- (rules_from_union _ _ _ _ _ Hr1), (rules_from_union _ _ _ _ _ Hr2).
    + intros L _. rewrite rules_from_sets.
      eapply NoDup_fmap_1, rules_of_sets_NoDup, antecedent_sets_NoDup.
Qed.

Lemma rules_distinct_witness :
  ∃ rules,
    @association_rules_from_frequents binary64 ascending_order scenario_table b64_0_6
      = Ok rules ∧
    NoDup ((λ r, (antecedent r, consequent r)) <$> rules).
Proof.
  apply (rules_distinct (H:=binary64) ascending_order scenario_table b64_0_6).
  apply (bool_decide_unpack _). by vm_compute.
Defined.

Lemma list_nil_no_elem {A} (l : list A) : (∀ x, x ∉ l) → l = [].
Proof. destruct l as [|x l]; [done|]. intros Hl. destruct (Hl x). left. Qed.

(** X18. A threshold that is not a number (NaN) is no error and selects
    nothing: the enumerator stops after its first level with no itemset and
    an empty table, whatever the transactions, and the deriver returns no
    rule, whatever the table. *)
Theorem nan_threshold_selects_nothing {F : PyFloat} {laws : PyFloatLaws F}
    (h : set_order) (transactions : list transaction) (support_map : dict float)
    (threshold : float) (fuel : nat) :
  fcompare threshold threshold = None →
  frequent_itemsets_bruteforce h (S fuel) transactions threshold = Ok ([], []) ∧
  association_rules_from_frequents h support_map threshold = Ok [].
Proof.
  intros Hnan.
  assert (∀ x, py_ge x threshold = false) as Hge.
  { intros x. destruct (py_ge x threshold) eqn:E; [|done].
    apply py_ge_ordered in E as [_ E]. unfold ordered in E. congruence. }
  split.
  - unfold frequent_itemsets_bruteforce, bruteforce_run.
    rewrite level_loop_stop; [done|apply transactions_or_universe|simpl; lia|].
    simpl. apply list_nil_no_elem. intros c [Hc _]%list_elem_of_filter.
    unfold frequent in Hc. by rewrite Hge in Hc.
  - rewrite association_rules_from_frequents_closed.
    rewrite bind_nil_all; [done|]. intros L _.
    apply list_nil_no_elem. intros r Hr.
    apply elem_of_rules_from in Hr as (A & sup_A & Hr).
    destruct Hr as (_ & _ & _ & _ & _ & _ & _ & _ & _ & Hc).
    by rewrite Hge in Hc.
Qed.

Lemma nan_threshold_selects_nothing_witness :
  @frequent_itemsets_bruteforce binary64 ascending_order 1 scenario S754_nan
  = Ok ([], []) ∧
  @association_rules_from_frequents binary64 ascending_order scenario_table S754_nan
  = Ok [].
Proof.
  apply (nan_threshold_selects_nothing (F:=binary64) ascending_order scenario
           scenario_table S754_nan 0).
  reflexivity.
Defined.

(** *** Two runs with two iteration orders *)

(** X7. For every input, two processes return the same support table, the
    same rules, and record lists that differ at most in the order of the
    items inside the itemset tuples. *)
Theorem runs_agree_up_to_tuple_order {F : PyFloat} {laws : PyFloatLaws F}
    (h h' : set_order) (transactions : list transaction)
    (min_support min_confidence : float) (fuel : nat) :
  length (unique_items h transactions) < fuel →
  ∃ results results' smap,
    frequent_itemsets_bruteforce h fuel transactions min_support = Ok (results, smap) ∧
    frequent_itemsets_bruteforce h' fuel transactions min_support = Ok (results', smap) ∧
    Forall2 (λ r r', itemset r ≡ₚ itemset r' ∧ support r = support r') results results' ∧
    association_rules_from_frequents h smap min_confidence
    = association_rules_from_frequents h' smap min_confidence.
Proof.
  intros Hfuel. eexists _, _, _. split_and!.
  - by apply frequent_itemsets_bruteforce_closed.
  - rewrite frequent_itemsets_bruteforce_closed
      by by rewrite (unique_items_order h' h).
    by rewrite (frequent_sets_order h' h).
  - induction (frequent_sets h transactions min_support) as [|c cs IH];
      constructor; [|done].
    simpl. by rewrite !tuple_of_perm.
  - apply association_rules_order.
Qed.

Lemma runs_agree_up_to_tuple_order_witness :
  ∃ results results' smap,
    @frequent_itemsets_bruteforce binary64 ascending_order 4 scenario b64_0_5
      = Ok (results, smap) ∧
    @frequent_itemsets_bruteforce binary64 descending_order 4 scenario b64_0_5
      = Ok (results', smap) ∧
    Forall2 (λ r r', itemset r ≡ₚ itemset r' ∧ support r = support r') results results' ∧
    @association_rules_from_frequents binary64 ascending_order smap b64_0_6
    = @association_rules_from_frequents binary64 descending_order smap b64_0_6.
Proof.
  apply (runs_agree_up_to_tuple_order (F:=binary64) ascending_order descending_order
           scenario b64_0_5 b64_0_6 4).
  vm_compute. lia.
Defined.

(** X8. On every support table, whatever it holds, the returned rules are
    the same for every iteration order of sets: [list(L)] shapes the order
    in which the candidates are drawn, not the sorted list that is
    returned. *)
Theorem rules_independent_of_set_order {F : PyFloat} {laws : PyFloatLaws F}
    (h h' : set_order) (support_map : dict float) (min_confidence : float) :
  association_rules_from_frequents h support_map min_confidence
  = association_rules_from_frequents h' support_map min_confidence.
Proof. apply association_rules_order. Qed.

Lemma rules_independent_of_set_order_witness :
  @association_rules_from_frequents binary64 ascending_order scenario_table b64_0_6
  = @association_rules_from_frequents binary64 descending_order scenario_table b64_0_6.
Proof.
  exact (rules_independent_of_set_order (F:=binary64) ascending_order descending_order
           scenario_table b64_0_6).
Defined.

(** ** The loader: [src/src/io_utils.py] *)

(** *** Text *)

Lemma chars_str l : chars (str l) = l.
Proof. apply String.list_ascii_of_string_of_list_ascii. Qed.

Lemma str_chars s : str (chars s) = s.
Proof. apply String.string_of_list_ascii_of_string. Qed.

Lemma str_nil_inv l : str l = "" → l = [].
Proof. intros E. by rewrite <- (chars_str l), E. Qed.

(** **** Prefixes *)

Lemma strip_prefix_Some p s r : strip_prefix p s = Some r ↔ s = p ++ r.
Proof.
  revert s. induction p as [|a p IH]; intros [|b s]; simpl; try done.
  - split; [by intros [= ->]|by intros ->].
  - split; [by intros [= ->]|by intros ->].
  - destruct (decide (a = b)) as [->|Hne].
    + rewrite IH. split; [by intros ->|by intros [= ->]].
    + split; [done|by intros [= -> _]].
Qed.

(** A character that the pattern does not hold stops the match. *)
Lemma strip_prefix_solid p a c b :
  c ∉ p → strip_prefix p (a ++ c :: b) = (λ r, r ++ c :: b) <$> strip_prefix p a.
Proof.
  revert a. induction p as [|x p IH]; intros a Hc; [done|].
  apply not_elem_of_cons in Hc as [Hne Hc].
  destruct a as [|y a]; simpl.
  - by rewrite decide_False.
  - destruct (decide (x = y)); [by apply IH|done].
Qed.

(** The patterns of a set of characters: none is empty, none is the start of
    another. *)
Definition prefix_free (pats : list (list ascii)) : Prop :=
  Forall (λ p, p ≠ [] ∧ Forall (λ q, p `prefix_of` q → p = q) pats) pats.

#[global] Instance prefix_free_dec pats : Decision (prefix_free pats).
Proof. unfold prefix_free. apply _. Defined.

Lemma space_head_inv pats s r :
  space_head pats s = Some r → ∃ p, p ∈ pats ∧ s = p ++ r.
Proof.
  unfold space_head. induction pats as [|p ps IH]; simpl; [done|].
  destruct (strip_prefix p s) as [r'|] eqn:E.
  - intros [= ->]. exists p. split; [left|by apply strip_prefix_Some].
  - intros (p' & ? & ?)%IH. exists p'. split; [by right|done].
Qed.

Lemma space_head_match pats p r : p ∈ pats → is_Some (space_head pats (p ++ r)).
Proof.
  unfold space_head. induction pats as [|q ps IH]; simpl; [by intros ?%elem_of_nil|].
  intros Hp. destruct (strip_prefix q (p ++ r)) as [r'|] eqn:E; [done|].
  apply elem_of_cons in Hp as [<-|Hp]; [|by apply IH].
  by rewrite (proj2 (strip_prefix_Some p (p ++ r) r)) in E.
Qed.

Lemma space_head_solid pats a c b :
  Forall (λ p, c ∉ p) pats →
  space_head pats (a ++ c :: b) = (λ r, r ++ c :: b) <$> space_head pats a.
Proof.
  unfold space_head. induction 1 as [|p ps Hp _ IH]; simpl; [done|].
  rewrite strip_prefix_solid by done.
  destruct (strip_prefix p a); [done|]. apply IH.
Qed.

Section Spaces.
Variable pats : list (list ascii).
Hypothesis pats_ok : prefix_free pats.

Lemma pats_nonempty p : p ∈ pats → p ≠ [].
Proof.
  intros Hp. unfold prefix_free in pats_ok. rewrite Forall_forall in pats_ok.
  by destruct (pats_ok p Hp).
Qed.

Lemma pats_prefix p q : p ∈ pats → q ∈ pats → p `prefix_of` q → p = q.
Proof.
  intros Hp Hq. unfold prefix_free in pats_ok. rewrite Forall_forall in pats_ok.
  destruct (pats_ok p Hp) as [_ H]. rewrite Forall_forall in H. by apply H.
Qed.

Lemma space_head_Some s p r :
  p ∈ pats → s = p ++ r → space_head pats s = Some r.
Proof.
  intros Hp ->. destruct (space_head_match pats p r Hp) as [r' E].
  rewrite E. f_equal.
  apply space_head_inv in E as (p' & Hp' & E).
  assert (p = p') as <-; [|by apply app_inv_head in E].
  apply app_eq_app in E as [l [[-> _]|[-> _]]].
  - symmetry. apply pats_prefix; [done..|]. by exists l.
  - apply pats_prefix; [done..|]. by exists l.
Qed.

Lemma space_head_length s r : space_head pats s = Some r → length r < length s.
Proof.
  intros (p & Hp & ->)%space_head_inv. rewrite length_app.
  pose proof (pats_nonempty p Hp). destruct p; [done|simpl; lia].
Qed.

Lemma space_head_nil : space_head pats [] = None.
Proof.
  destruct (space_head pats []) as [r|] eqn:E; [|done].
  apply space_head_length in E. simpl in E. lia.
Qed.

Lemma space_head_app a b r :
  space_head pats a = Some r → space_head pats (a ++ b) = Some (r ++ b).
Proof.
  intros (p & Hp & ->)%space_head_inv.
  apply (space_head_Some _ p); [done|]. by rewrite app_assoc.
Qed.

Lemma space_head_app_None a b :
  space_head pats (a ++ b) = None → space_head pats a = None.
Proof.
  intros E. destruct (space_head pats a) as [r|] eqn:Ea; [|done].
  by rewrite (space_head_app _ _ _ Ea) in E.
Qed.

(** A character that stands in no pattern except as a first byte does not
    complete a match either. *)
Lemma space_head_snoc_None a c :
  Forall (λ p, c ∉ tail p) pats →
  a ≠ [] → space_head pats a = None → space_head pats (a ++ [c]) = None.
Proof.
  intros Hc Ha E.
  destruct (space_head pats (a ++ [c])) as [r|] eqn:E'; [|done].
  apply space_head_inv in E' as (p & Hp & E').
  rewrite Forall_forall in Hc. specialize (Hc p Hp).
  destruct r as [|x r _] using rev_ind.
  - rewrite app_nil_r in E'. subst p.
    destruct a as [|y a]; [done|]. destruct Hc. simpl.
    apply elem_of_app. right. left.
  - rewrite app_assoc in E'. apply app_inj_tail in E' as [-> _].
    by rewrite (space_head_Some _ p r Hp eq_refl) in E.
Qed.

(** **** The loop *)

Lemma drop_spaces_None fuel s :
  space_head pats s = None → drop_spaces pats fuel s = s.
Proof. intros E. destruct fuel; simpl; by rewrite ?E. Qed.

Lemma drop_spaces_fixed fuel s :
  length s ≤ fuel → space_head pats (drop_spaces pats fuel s) = None.
Proof.
  revert s. induction fuel as [|fuel IH]; intros s Hs; simpl.
  { destruct s; [apply space_head_nil|simpl in Hs; lia]. }
  destruct (space_head pats s) as [r|] eqn:E; [|done].
  apply IH. apply space_head_length in E. lia.
Qed.

Lemma drop_spaces_suffix fuel s : drop_spaces pats fuel s `suffix_of` s.
Proof.
  revert s. induction fuel as [|fuel IH]; intros s; simpl; [done|].
  destruct (space_head pats s) as [r|] eqn:E; [|done].
  apply space_head_inv in E as (p & _ & ->).
  etrans; [apply IH|]. by apply suffix_app_r.
Qed.

Lemma drop_spaces_solid fuel fuel' a c b :
  Forall (λ p, c ∉ p) pats →
  length a ≤ fuel → length a ≤ fuel' →
  drop_spaces pats fuel' (a ++ c :: b) = drop_spaces pats fuel a ++ c :: b.
Proof.
  intros Hc. revert fuel' a. induction fuel as [|fuel IH]; intros fuel' a Ha Ha'.
  { destruct a; [|simpl in Ha; lia]. simpl. apply drop_spaces_None.
    change (c :: b) with ([] ++ c :: b).
    by rewrite (space_head_solid pats [] c b), space_head_nil. }
  simpl. destruct (space_head pats a) as [r|] eqn:E.
  - pose proof (space_head_length _ _ E).
    destruct fuel' as [|fuel']; [lia|]. simpl.
    rewrite space_head_solid, E by done. simpl. apply IH; lia.
  - apply drop_spaces_None. by rewrite space_head_solid, E.
Qed.

(** A trailing character that is itself a pattern and stands in no other:
    it goes when everything before it goes, and stays otherwise. *)
Lemma drop_spaces_snoc fuel fuel' a c :
  [c] ∈ pats → Forall (λ p, c ∉ tail p) pats →
  length a ≤ fuel → length a < fuel' →
  drop_spaces pats fuel' (a ++ [c])
  = match drop_spaces pats fuel a with
    | [] => []
    | x :: r => (x :: r) ++ [c]
    end.
Proof.
  intros Hc Htail. revert fuel' a.
  induction fuel as [|fuel IH]; intros fuel' a Ha Ha'.
  { destruct a; [|simpl in Ha; lia]. simpl.
    destruct fuel' as [|fuel']; [lia|]. simpl.
    rewrite (space_head_Some [c] [c] [] Hc eq_refl).
    by rewrite drop_spaces_None by apply space_head_nil. }
  destruct fuel' as [|fuel']; [lia|]. simpl.
  destruct (space_head pats a) as [r|] eqn:E.
  - pose proof (space_head_length _ _ E).
    rewrite (space_head_app _ _ _ E). apply IH; lia.
  - destruct a as [|x a].
    + simpl. rewrite (space_head_Some [c] [c] [] Hc eq_refl).
      by rewrite drop_spaces_None by apply space_head_nil.
    + by rewrite space_head_snoc_None.
Qed.

End Spaces.

(** **** [strip] *)

Definition rev_whitespace : list (list ascii) := reverse <$> py_whitespace.

Lemma py_whitespace_ok : prefix_free py_whitespace.
Proof. apply (bool_decide_unpack _). by vm_compute. Qed.

Lemma rev_whitespace_ok : prefix_free rev_whitespace.
Proof. apply (bool_decide_unpack _). by vm_compute. Qed.

Lemma comma_not_space : Forall (λ p, comma ∉ p) py_whitespace.
Proof. apply (bool_decide_unpack _). by vm_compute. Qed.

Lemma comma_not_rev_space : Forall (λ p, comma ∉ p) rev_whitespace.
Proof. apply (bool_decide_unpack _). by vm_compute. Qed.

Lemma LF_space : [LF] ∈ py_whitespace.
Proof. apply (bool_decide_unpack _). by vm_compute. Qed.

Lemma LF_rev_space : [LF] ∈ rev_whitespace.
Proof. apply (bool_decide_unpack _). by vm_compute. Qed.

Lemma LF_not_inside : Forall (λ p, LF ∉ tail p) py_whitespace.
Proof. apply (bool_decide_unpack _). by vm_compute. Qed.

Lemma rstrip_eq s :
  rstrip s = reverse (drop_spaces rev_whitespace (length s) (reverse s)).
Proof. done. Qed.

Lemma lstrip_suffix s : lstrip s `suffix_of` s.
Proof. apply drop_spaces_suffix. Qed.

Lemma rstrip_prefix s : rstrip s `prefix_of` s.
Proof.
  rewrite rstrip_eq.
  destruct (drop_spaces_suffix rev_whitespace (length s) (reverse s)) as [k E].
  exists (reverse k). apply (inj reverse).
  by rewrite reverse_app, !reverse_involutive.
Qed.

Lemma elem_of_strip x s : x ∈ strip s → x ∈ s.
Proof.
  unfold strip. intros Hx.
  destruct (rstrip_prefix (lstrip s)) as [k1 E1].
  destruct (lstrip_suffix s) as [k2 E2].
  rewrite E2, E1, !elem_of_app. auto.
Qed.

(** A text with no space at either end. *)
Definition stripped (s : list ascii) : Prop :=
  space_head py_whitespace s = None ∧ space_head rev_whitespace (reverse s) = None.

Lemma lstrip_None s : space_head py_whitespace s = None → lstrip s = s.
Proof. apply drop_spaces_None. Qed.

Lemma rstrip_None s : space_head rev_whitespace (reverse s) = None → rstrip s = s.
Proof.
  intros E. rewrite rstrip_eq, drop_spaces_None by done. apply reverse_involutive.
Qed.

Lemma strip_stripped s : stripped s → strip s = s.
Proof.
  intros [H1 H2]. unfold strip. rewrite lstrip_None by done. by apply rstrip_None.
Qed.

Lemma stripped_strip s : stripped (strip s).
Proof.
  unfold strip. split.
  - destruct (rstrip_prefix (lstrip s)) as [k E].
    apply (space_head_app_None _ py_whitespace_ok _ k). rewrite <- E.
    apply (drop_spaces_fixed _ py_whitespace_ok). done.
  - rewrite rstrip_eq, reverse_involutive.
    apply (drop_spaces_fixed _ rev_whitespace_ok). by rewrite length_reverse.
Qed.

Lemma strip_idemp s : strip (strip s) = strip s.
Proof. apply strip_stripped, stripped_strip. Qed.

(** The line end goes with the spaces around it. *)
Lemma rstrip_snoc_LF s : rstrip (s ++ [LF]) = rstrip s.
Proof.
  rewrite !rstrip_eq, reverse_app. simpl. rewrite length_app. simpl.
  replace (length s + 1) with (S (length s)) by lia.
  cbn [drop_spaces].
  rewrite (space_head_Some _ rev_whitespace_ok (LF :: reverse s) [LF] (reverse s)
             LF_rev_space eq_refl).
  done.
Qed.

Lemma strip_snoc_LF s : strip (s ++ [LF]) = strip s.
Proof.
  unfold strip, lstrip.
  rewrite (drop_spaces_snoc _ py_whitespace_ok (length s) _ s LF
             LF_space LF_not_inside) by (rewrite ?length_app; simpl; lia).
  destruct (drop_spaces py_whitespace (length s) s) as [|x r]; [done|].
  apply rstrip_snoc_LF.
Qed.

(** A comma stands: what is before it is stripped from the left, what is
    after it from the right. *)
Lemma lstrip_comma a b : lstrip (a ++ comma :: b) = lstrip a ++ comma :: b.
Proof.
  unfold lstrip.
  apply (drop_spaces_solid _ py_whitespace_ok); [apply comma_not_space|done|].
  rewrite length_app. lia.
Qed.

Lemma rstrip_comma a b : rstrip (a ++ comma :: b) = a ++ comma :: rstrip b.
Proof.
  rewrite !rstrip_eq.
  replace (reverse (a ++ comma :: b)) with (reverse b ++ comma :: reverse a)
    by (by rewrite reverse_app, reverse_cons, <- app_assoc).
  rewrite (drop_spaces_solid _ rev_whitespace_ok (length b));
    [|apply comma_not_rev_space|by rewrite length_reverse|
     rewrite length_reverse, length_app; simpl; lia].
  by rewrite reverse_app, reverse_cons, reverse_involutive, <- app_assoc.
Qed.

Lemma strip_comma a b : strip (a ++ comma :: b) = lstrip a ++ comma :: rstrip b.
Proof. unfold strip. by rewrite lstrip_comma, rstrip_comma. Qed.

(** **** [split] *)

Lemma elem_of_split_on sep s piece :
  piece ∈ split_on sep s → (sep ∉ piece) ∧ ∀ x, x ∈ piece → x ∈ s.
Proof.
  revert piece. induction s as [|c s IH]; intros piece; simpl.
  { intros ->%list_elem_of_singleton. split; [apply not_elem_of_nil|done]. }
  destruct (decide (c = sep)) as [->|Hne].
  - intros [->|Hin]%elem_of_cons.
    + split; [apply not_elem_of_nil|]. by intros x ?%elem_of_nil.
    + destruct (IH _ Hin) as [? Hsub]. split; [done|]. intros x Hx. right. auto.
  - destruct (split_on sep s) as [|p ps] eqn:E.
    + intros ->%list_elem_of_singleton. split.
      * by intros ->%list_elem_of_singleton.
      * intros x ->%list_elem_of_singleton. left.
    + intros [->|Hin]%elem_of_cons.
      * destruct (IH p) as [Hp Hsub]; [left|]. split.
        -- rewrite not_elem_of_cons. auto.
        -- intros x [->|Hx]%elem_of_cons; [left|right; auto].
      * destruct (IH piece) as [Hp Hsub]; [by right|]. split; [done|].
        intros x Hx. right. auto.
Qed.

Lemma split_once_solid sep a b :
  sep ∉ a → split_once sep (a ++ sep :: b) = [a; b].
Proof.
  induction a as [|c a IH]; intros Ha; simpl.
  { by rewrite decide_True. }
  apply not_elem_of_cons in Ha as [Hne Ha].
  rewrite decide_False by done. by rewrite IH.
Qed.

Lemma split_once_none sep s : sep ∉ s → split_once sep s = [s].
Proof.
  induction s as [|c s IH]; intros Hs; simpl; [done|].
  apply not_elem_of_cons in Hs as [Hne Hs].
  rewrite decide_False by done. by rewrite IH.
Qed.

Lemma split_once_cases sep s :
  ((sep ∉ s) ∧ split_once sep s = [s]) ∨
  (∃ a b, (sep ∉ a) ∧ s = a ++ sep :: b ∧ split_once sep s = [a; b]).
Proof.
  destruct (decide (sep ∈ s)) as [Hin|Hnin]; [right|left; by auto using split_once_none].
  induction s as [|c s IH]; [by apply elem_of_nil in Hin|].
  destruct (decide (c = sep)) as [->|Hne].
  - exists [], s. simpl. rewrite decide_True by done.
    split_and!; [apply not_elem_of_nil|done..].
  - apply elem_of_cons in Hin as [->|Hin]; [done|].
    destruct (IH Hin) as (a & b & Ha & -> & E).
    exists (c :: a), b. split_and!; [|done|].
    + rewrite not_elem_of_cons. auto.
    + change ((c :: a) ++ sep :: b) with (c :: (a ++ sep :: b)).
      cbn [split_once]. rewrite decide_False by done. by rewrite E.
Qed.

(** [sep.join(pieces)] *)
Fixpoint join (sep : ascii) (pieces : list (list ascii)) : list ascii :=
  match pieces with
  | [] => []
  | [piece] => piece
  | piece :: pieces' => piece ++ sep :: join sep pieces'
  end.

Lemma split_on_no_sep sep s : sep ∉ s → split_on sep s = [s].
Proof.
  induction s as [|c s IH]; intros Hs; simpl; [done|].
  apply not_elem_of_cons in Hs as [Hne Hs].
  rewrite decide_False by done. by rewrite IH.
Qed.

Lemma split_on_app sep a b :
  sep ∉ a → split_on sep (a ++ sep :: b) = a :: split_on sep b.
Proof.
  induction a as [|c a IH]; intros Ha; simpl.
  { by rewrite decide_True. }
  apply not_elem_of_cons in Ha as [Hne Ha].
  rewrite decide_False by done. by rewrite IH.
Qed.

Lemma split_on_join sep pieces :
  Forall (λ piece, sep ∉ piece) pieces → pieces ≠ [] →
  split_on sep (join sep pieces) = pieces.
Proof.
  induction 1 as [|p ps Hp Hps IH]; intros Hne; [done|].
  destruct ps as [|q ps]; simpl.
  - by apply split_on_no_sep.
  - rewrite split_on_app by done. f_equal. by apply IH.
Qed.

(** **** Lines *)

Definition single_line (l : list ascii) : Prop := (LF ∉ l) ∧ (CR ∉ l).

Lemma single_line_cons c l :
  single_line (c :: l) ↔ c ≠ LF ∧ c ≠ CR ∧ single_line l.
Proof.
  unfold single_line. rewrite !not_elem_of_cons. split.
  - intros [[??] [??]]. auto.
  - intros (? & ? & ? & ?). auto.
Qed.

Lemma text_lines_single_line l :
  single_line l → text_lines l = if decide (l = []) then [] else [l].
Proof.
  induction l as [|c l IH]; [done|].
  intros (Hlf & Hcr & Hl)%single_line_cons. simpl.
  rewrite !decide_False by done. rewrite IH by done.
  by destruct (decide (l = [])) as [->|].
Qed.

Lemma text_lines_LF l rest :
  single_line l → text_lines (l ++ LF :: rest) = (l ++ [LF]) :: text_lines rest.
Proof.
  induction l as [|c l IH]; [done|].
  intros (Hlf & Hcr & Hl)%single_line_cons. simpl.
  rewrite !decide_False by done. by rewrite IH.
Qed.

Lemma text_lines_CR l rest :
  single_line l → head rest ≠ Some LF →
  text_lines (l ++ CR :: rest) = (l ++ [LF]) :: text_lines rest.
Proof.
  intros Hl Hrest. induction l as [|c l IH].
  - simpl. destruct rest as [|c' rest']; [done|].
    rewrite decide_False; [done|]. by intros ->.
  - apply single_line_cons in Hl as (Hlf & Hcr & Hl). simpl.
    rewrite !decide_False by done. by rewrite IH.
Qed.

Lemma text_lines_CRLF l rest :
  single_line l →
  text_lines (l ++ CR :: LF :: rest) = (l ++ [LF]) :: text_lines rest.
Proof.
  induction l as [|c l IH]; [done|].
  intros (Hlf & Hcr & Hl)%single_line_cons. simpl.
  rewrite !decide_False by done. by rewrite IH.
Qed.

(** Every line that iteration yields is a single line, with ["\n"] at its
    end or, for the last one, nothing. *)
Lemma elem_of_text_lines s line :
  line ∈ text_lines s →
  ∃ l, single_line l ∧ (line = l ∨ line = l ++ [LF]).
Proof.
  remember (length s) as n eqn:Hn. revert s Hn line.
  induction n as [n IH] using lt_wf_ind. intros s -> line.
  destruct s as [|c s]; simpl; [by intros ?%elem_of_nil|].
  assert (single_line []) as Hnil by (split; apply not_elem_of_nil).
  destruct (decide (c = LF)) as [->|Hlf].
  { intros [->|Hin]%elem_of_cons; [exists []; auto|].
    by apply (IH (length s) ltac:(simpl; lia) s). }
  destruct (decide (c = CR)) as [->|Hcr].
  { intros [->|Hin]%elem_of_cons; [exists []; auto|].
    destruct s as [|c' s']; [by apply elem_of_nil in Hin|].
    destruct (decide (c' = LF)).
    - by apply (IH (length s') ltac:(simpl; lia) s').
    - by apply (IH (length (c' :: s')) ltac:(simpl; lia) (c' :: s')). }
  destruct (text_lines s) as [|l0 ls] eqn:E.
  { intros ->%list_elem_of_singleton. exists [c]. split; [|by left].
    apply single_line_cons. auto. }
  intros [->|Hin]%elem_of_cons.
  - destruct (IH (length s) ltac:(simpl; lia) s eq_refl l0) as (l & Hl & Hl0).
    { rewrite E. left. }
    exists (c :: l). split; [apply single_line_cons; auto|].
    destruct Hl0 as [->| ->]; auto.
  - apply (IH (length s) ltac:(simpl; lia) s eq_refl). rewrite E. by right.
Qed.

(** *** [load_transactions] in closed form *)

(** What one line contributes. *)
Definition items_of (line : list ascii) : option transaction :=
  let line := strip line in
  if decide (line = []) then None
  else
    match split_once comma line with
    | [_tid; items_str] =>
        Some (str <$> (strip <$> filter (λ x, strip x ≠ []) (split_on comma items_str)))
    | _ => None
    end.

Lemma load_line_items_of txns line :
  load_line txns line = txns ++ option_list (items_of line).
Proof.
  unfold load_line, items_of.
  destruct (decide (strip line = [])); [by rewrite app_nil_r|].
  destruct (split_once comma (strip line)) as [|a [|b [|c l]]]; simpl;
    by rewrite ?app_nil_r.
Qed.

Lemma foldl_load_line txns lines :
  foldl load_line txns lines = txns ++ omap items_of lines.
Proof.
  revert txns. induction lines as [|line lines IH]; intros txns; simpl.
  { by rewrite app_nil_r. }
  rewrite IH, load_line_items_of, <- app_assoc. f_equal.
  by destruct (items_of line).
Qed.

Lemma items_of_snoc_LF l : items_of (l ++ [LF]) = items_of l.
Proof. unfold items_of. by rewrite strip_snoc_LF. Qed.

(** **** The items that are loaded *)

Lemma elem_of_items_of line t item :
  items_of line = Some t → item ∈ t →
  ∃ x, item = str (strip x) ∧ strip x ≠ [] ∧ (comma ∉ x) ∧ ∀ c, c ∈ x → c ∈ line.
Proof.
  unfold items_of. destruct (decide (strip line = [])); [done|].
  destruct (split_once_cases comma (strip line)) as [[_ ->]|(a & b & _ & E & ->)];
    [done|].
  intros [= <-] (y & -> & Hy)%list_elem_of_fmap.
  apply list_elem_of_fmap in Hy as (x & -> & [Hx Hin]%list_elem_of_filter).
  exists x. apply elem_of_split_on in Hin as [Hsep Hsub].
  split_and!; [done..|].
  intros c Hc. apply elem_of_strip. rewrite E, elem_of_app. right. right. auto.
Qed.

(** **** Files made of lines *)

(** The lines joined by [eol], with or without a last [eol]. *)
Fixpoint text_of_lines (eol : list ascii) (final_eol : bool)
    (lines : list (list ascii)) : list ascii :=
  match lines with
  | [] => []
  | l :: ls =>
      l ++ match ls with
           | [] => if final_eol then eol else []
           | _ :: _ => eol ++ text_of_lines eol final_eol ls
           end
  end.

(** The three line ends of a text file. *)
Definition line_end (eol : list ascii) : Prop :=
  eol = [LF] ∨ eol = [CR; LF] ∨ eol = [CR].

Lemma text_lines_eol eol l rest :
  line_end eol → single_line l → (eol = [CR] → head rest ≠ Some LF) →
  text_lines (l ++ eol ++ rest) = (l ++ [LF]) :: text_lines rest.
Proof.
  intros [-> |[-> | ->]] Hl Hrest;
    [by apply text_lines_LF|by apply text_lines_CRLF|by apply text_lines_CR; auto].
Qed.

(** After a lone ["\r"], the next line does not start with ["\n"]. *)
Lemma head_text_of_lines final_eol ls :
  Forall single_line ls → head (text_of_lines [CR] final_eol ls) ≠ Some LF.
Proof.
  intros [|l ls' Hl _]; [done|]. cbn [text_of_lines].
  destruct l as [|c l].
  - destruct ls', final_eol; done.
  - apply single_line_cons in Hl as (Hlf & _). simpl. by intros [= ->].
Qed.

Lemma omap_items_of_text_lines eol final_eol ls :
  line_end eol → Forall single_line ls →
  omap items_of (text_lines (text_of_lines eol final_eol ls)) = omap items_of ls.
Proof.
  intros Heol. induction 1 as [|l ls Hl Hls IH]; [done|].
  cbn [text_of_lines]. destruct ls as [|l' ls'].
  - destruct final_eol.
    + rewrite <- (app_nil_r eol), text_lines_eol by done. simpl.
      by rewrite items_of_snoc_LF.
    + rewrite app_nil_r, text_lines_single_line by done.
      destruct (decide (l = [])) as [->|]; [done|]. done.
  - rewrite text_lines_eol; [|done..|intros ->; by apply head_text_of_lines].
    cbn [omap list_omap]. by rewrite items_of_snoc_LF, IH.
Qed.

Lemma tail_text_lines eol final_eol header ls :
  line_end eol → Forall single_line (header :: ls) →
  omap items_of (tail (text_lines (text_of_lines eol final_eol (header :: ls))))
  = omap items_of ls.
Proof.
  intros Heol [Hh Hls]%Forall_cons. cbn [text_of_lines].
  destruct ls as [|l ls].
  - destruct final_eol.
    + by rewrite <- (app_nil_r eol), text_lines_eol.
    + rewrite app_nil_r, text_lines_single_line by done.
      by destruct (decide (header = [])).
  - rewrite text_lines_eol; [|done..|intros ->; by apply head_text_of_lines].
    cbn [tail]. by apply omap_items_of_text_lines.
Qed.

Lemma text_of_lines_cons eol final_eol l ls :
  text_of_lines eol final_eol (l :: ls) = l ++ text_of_lines eol final_eol ([] :: ls).
Proof. done. Qed.

Lemma text_of_lines_rest eol final_eol ls c r :
  line_end eol →
  text_of_lines eol final_eol ([] :: ls) = c :: r → c = LF ∨ c = CR.
Proof.
  intros [-> |[-> | ->]]; cbn [text_of_lines app]; destruct ls, final_eol;
    intros [= <- _]; auto.
Qed.

(** Decoding takes at most the mark off the first line. *)
Lemma decode_utf8_sig_lines eol final_eol header ls :
  line_end eol → single_line header →
  utf8_valid (text_of_lines eol final_eol (header :: ls)) = true →
  ∃ header',
    single_line header' ∧
    decode_utf8_sig (text_of_lines eol final_eol (header :: ls))
    = Return (text_of_lines eol final_eol (header' :: ls)).
Proof.
  intros Heol Hh Hvalid. unfold decode_utf8_sig.
  rewrite bool_decide_false; last first.
  { intros [E|E]; rewrite E in Hvalid; by vm_compute in Hvalid. }
  rewrite Hvalid.
  destruct (strip_prefix utf8_bom _) as [r|] eqn:E; simpl; [|by eauto].
  apply strip_prefix_Some in E. rewrite text_of_lines_cons in E.
  apply app_eq_app in E as [l [[E1 E2]|[E1 E2]]].
  - exists l. subst r. split.
    + rewrite E1 in Hh. destruct Hh as [H1 H2].
      split; intros Hin; [apply H1|apply H2]; apply elem_of_app; by right.
    + done.
  - destruct l as [|c l].
    + rewrite app_nil_r in E1. subst header. exists [].
      split; [split; apply not_elem_of_nil|].
      simpl in E2. by rewrite <- E2.
    + exfalso.
      assert (c ∈ utf8_bom) as Hc by (rewrite E1, elem_of_app; right; left).
      assert ((LF ∉ utf8_bom) ∧ (CR ∉ utf8_bom)) as [Hlf Hcr]
        by (apply (bool_decide_unpack _); by vm_compute).
      by destruct (text_of_lines_rest _ _ _ _ _ Heol E2) as [-> | ->].
Qed.

Lemma load_transactions_lines fs csv_path eol final_eol header ls :
  fs csv_path = Some (text_of_lines eol final_eol (header :: ls)) →
  line_end eol → Forall single_line (header :: ls) →
  utf8_valid (text_of_lines eol final_eol (header :: ls)) = true →
  load_transactions fs csv_path = Return (omap items_of ls).
Proof.
  intros Hfs Heol Hlines Hvalid. unfold load_transactions. rewrite Hfs.
  pose proof Hlines as [Hh Hls]%Forall_cons.
  destruct (decode_utf8_sig_lines eol final_eol header ls Heol Hh Hvalid)
    as (header' & Hh' & ->).
  rewrite foldl_load_line. simpl. f_equal.
  apply tail_text_lines; [done|]. by constructor.
Qed.

(** *** What [load_transactions] returns *)

(** An item as [load_transactions] returns it: a non-empty text with no
    space at either end, no comma and no line break. *)
Definition clean_item (item : string) : Prop :=
  item ≠ "" ∧ strip (chars item) = chars item ∧
  (comma ∉ chars item) ∧ single_line (chars item).

(** X9. Every item of every loaded transaction is a non-empty text with no
    space at either end, no comma and no line break. *)
Theorem load_transactions_items (fs : list ascii → option (list ascii))
    (csv_path : list ascii) (txns : list transaction) :
  load_transactions fs csv_path = Return txns →
  ∀ t item, t ∈ txns → item ∈ t → clean_item item.
Proof.
  unfold load_transactions. destruct (fs csv_path) as [content|]; [|done].
  destruct (decode_utf8_sig content) as [text|]; [|done].
  intros [= <-] t item Ht Hitem.
  rewrite foldl_load_line in Ht. simpl in Ht.
  apply list_elem_of_omap in Ht as (line & Hline & Ht).
  assert (line ∈ text_lines text) as Hline'.
  { destruct (text_lines text); [done|by right]. }
  apply elem_of_text_lines in Hline' as (l & [Hlf Hcr] & Hl).
  assert (items_of l = Some t) as Ht'.
  { destruct Hl as [->| ->]; [done|by rewrite <- items_of_snoc_LF]. }
  destruct (elem_of_items_of l t item Ht' Hitem) as (x & -> & Hx & Hcomma & Hsub).
  unfold clean_item. rewrite chars_str. split_and!.
  - by intros ?%str_nil_inv.
  - apply strip_idemp.
  - by intros ?%elem_of_strip.
  - split; intros ?%elem_of_strip; [apply Hlf|apply Hcr]; auto.
Qed.

(** A file of four lines in the TID,Items layout. *)
Definition small_csv : list ascii :=
  text_of_lines [LF] true
    [chars "TID,Items"; chars "1,A,B"; chars "2,A"; chars "3,"].

Definition small_fs (path : list ascii) : option (list ascii) :=
  if decide (path = chars "data/small.csv") then Some small_csv else None.

#[global] Instance single_line_dec l : Decision (single_line l).
Proof. unfold single_line. apply _. Defined.

#[global] Instance clean_item_dec item : Decision (clean_item item).
Proof. unfold clean_item. apply _. Defined.

Lemma load_transactions_items_witness : clean_item "B".
Proof.
  apply (load_transactions_items small_fs (chars "data/small.csv") [["A"; "B"]; ["A"]; []]
           eq_refl ["A"; "B"] "B").
  - left.
  - right. left.
Defined.

(** A line of the file: the transaction id, a comma, the items with commas
    between them. *)
Definition csv_line (row : list ascii * list string) : list ascii :=
  row.1 ++ comma :: join comma (chars <$> row.2).

Lemma rstrip_join pieces :
  Forall stripped pieces → rstrip (join comma pieces) = join comma pieces.
Proof.
  induction 1 as [|p ps Hp Hps IH]; [done|].
  destruct ps as [|q ps].
  - simpl. apply rstrip_None, Hp.
  - change (join comma (p :: q :: ps)) with (p ++ comma :: join comma (q :: ps)).
    by rewrite rstrip_comma, IH.
Qed.

Lemma items_of_csv_line tid items :
  (comma ∉ tid) → Forall clean_item items →
  items_of (csv_line (tid, items)) = Some items.
Proof.
  intros Htid Hitems. unfold items_of, csv_line. simpl.
  rewrite strip_comma, rstrip_join; last first.
  { apply Forall_fmap. eapply Forall_impl; [exact Hitems|].
    intros x (_ & Hx & _). simpl. rewrite <- Hx. apply stripped_strip. }
  rewrite decide_False by (by destruct (lstrip tid)).
  rewrite split_once_solid; last first.
  { intros Hin. apply Htid. destruct (lstrip_suffix tid) as [k ->].
    apply elem_of_app. by right. }
  f_equal. destruct items as [|item items]; [done|].
  rewrite split_on_join; [| |done].
  - generalize (item :: items), Hitems. clear.
    induction 1 as [|x xs (Hne & Hx & _) _ IH]; [done|].
    rewrite fmap_cons, filter_cons_True; last first.
    { rewrite Hx. intros E. apply Hne. by rewrite <- (str_chars x), E. }
    rewrite !fmap_cons, IH. by rewrite Hx, str_chars.
  - apply Forall_fmap. eapply Forall_impl; [exact Hitems|]. by intros x (_ & _ & ? & _).
Qed.

Lemma elem_of_join sep pieces c :
  c ∈ join sep pieces → c = sep ∨ ∃ piece, piece ∈ pieces ∧ c ∈ piece.
Proof.
  induction pieces as [|p ps IH]; [by intros ?%elem_of_nil|].
  destruct ps as [|q ps].
  - intros Hc. right. exists p. split; [left|done].
  - change (join sep (p :: q :: ps)) with (p ++ sep :: join sep (q :: ps)).
    rewrite elem_of_app, elem_of_cons. intros [Hc|[->|Hc]]; [|by left|].
    + right. exists p. split; [left|done].
    + destruct (IH Hc) as [->|(piece & ? & ?)]; [by left|].
      right. exists piece. split; [by right|done].
Qed.

Lemma single_line_csv_line tid items :
  single_line tid → Forall clean_item items → single_line (csv_line (tid, items)).
Proof.
  intros [H1 H2] Hitems. unfold csv_line. simpl.
  assert (∀ c, c ≠ comma → c ∈ tid ++ comma :: join comma (chars <$> items) →
               c ∈ tid ∨ ∃ item, item ∈ items ∧ c ∈ chars item) as Hin.
  { intros c Hc [?|[->|Hj]%elem_of_cons]%elem_of_app; [by left|done|].
    apply elem_of_join in Hj as [->|(piece & (item & -> & ?)%list_elem_of_fmap & ?)];
      [done|]. right. eauto. }
  rewrite Forall_forall in Hitems.
  split; intros [?|(item & Hitem & ?)]%Hin; try done;
    destruct (Hitems item Hitem) as (_ & _ & _ & ? & ?); done.
Qed.

(** X10. What was written in the TID,Items layout is what is read: a first
    line, then one line per transaction holding an id without comma, a comma
    and the items separated by commas, lines ended by ["\n"], ["\r\n"] or
    ["\r"] throughout, the last one ended or not; the items are returned as
    they were written, transaction by transaction, a transaction without
    items included. *)
Theorem load_transactions_round_trip (fs : list ascii → option (list ascii))
    (csv_path : list ascii) (eol : list ascii) (final_eol : bool)
    (header : list ascii) (rows : list (list ascii * list string)) :
  fs csv_path = Some (text_of_lines eol final_eol (header :: (csv_line <$> rows))) →
  line_end eol →
  utf8_valid (text_of_lines eol final_eol (header :: (csv_line <$> rows))) = true →
  single_line header →
  Forall (λ row, single_line row.1 ∧ (comma ∉ row.1) ∧
                 Forall clean_item row.2) rows →
  load_transactions fs csv_path = Return (rows.*2).
Proof.
  intros Hfs Heol Hvalid Hh Hrows.
  rewrite (load_transactions_lines fs csv_path eol final_eol header (csv_line <$> rows));
    [|done|done| |done].
  - f_equal. clear Hfs Hvalid.
    induction Hrows as [|[tid items] rows (_ & Htid & Hitems) _ IH]; [done|].
    cbn [fmap list_fmap omap list_omap].
    rewrite items_of_csv_line by done. simpl. f_equal. apply IH.
  - constructor; [done|]. apply Forall_fmap.
    eapply Forall_impl; [exact Hrows|].
    intros [tid items] (? & _ & ?). by apply single_line_csv_line.
Qed.

Lemma load_transactions_round_trip_witness :
  load_transactions small_fs (chars "data/small.csv") = Return [["A"; "B"]; ["A"]; []].
Proof.
  apply (load_transactions_round_trip small_fs (chars "data/small.csv") [LF] true
           (chars "TID,Items")
           [(chars "1", ["A"; "B"]); (chars "2", ["A"]); (chars "3", [])]).
  - reflexivity.
  - by left.
  - reflexivity.
  - apply (bool_decide_unpack _). by vm_compute.
  - apply (bool_decide_unpack _). by vm_compute.
Defined.

Lemma items_of_is_Some l : is_Some (items_of l) ↔ comma ∈ l.
Proof.
  unfold items_of. split.
  - destruct (decide (strip l = [])); [by intros [? ?]|].
    destruct (split_once_cases comma (strip l)) as [[_ ->]|(a & b & _ & E & _)];
      [by intros [? ?]|].
    intros _. apply elem_of_strip. rewrite E, elem_of_app. right. left.
  - intros Hin.
    destruct (split_once_cases comma l) as [[Hnin _]|(a & b & Ha & -> & _)]; [done|].
    rewrite strip_comma. rewrite decide_False by (by destruct (lstrip a)).
    rewrite split_once_solid; [done|].
    intros Hc. apply Ha. destruct (lstrip_suffix a) as [k ->].
    apply elem_of_app. by right.
Qed.

(** X11. In a file of lines ended by ["\n"], ["\r\n"] or ["\r"] throughout,
    the first line yields nothing, whatever it holds, and of the others
    exactly those that hold a comma yield a transaction each. *)
Theorem load_transactions_count (fs : list ascii → option (list ascii))
    (csv_path : list ascii) (eol : list ascii) (final_eol : bool)
    (header : list ascii) (lines : list (list ascii)) :
  fs csv_path = Some (text_of_lines eol final_eol (header :: lines)) →
  line_end eol →
  utf8_valid (text_of_lines eol final_eol (header :: lines)) = true →
  Forall single_line (header :: lines) →
  ∃ txns,
    load_transactions fs csv_path = Return txns ∧
    length txns = length (filter (λ l, comma ∈ l) lines).
Proof.
  intros Hfs Heol Hvalid Hlines. eexists.
  split; [by eapply load_transactions_lines|].
  clear. induction lines as [|l ls IH]; [done|].
  cbn [omap list_omap]. rewrite filter_cons.
  destruct (decide (comma ∈ l)) as [Hin|Hnin].
  - apply items_of_is_Some in Hin as [t ->]. simpl. by rewrite IH.
  - destruct (items_of l) as [t|] eqn:E; [|done].
    destruct Hnin. apply items_of_is_Some. by rewrite E.
Qed.

(** The same with a blank line and a line without comma in between, lines
    ended by ["\r\n"], the last one not ended. *)
Definition ragged_csv : list ascii :=
  text_of_lines [CR; LF] false
    [chars "1,X"; chars "1,A,B"; []; chars "no items here"; chars "2,A"].

Definition ragged_fs (path : list ascii) : option (list ascii) :=
  if decide (path = chars "data/ragged.csv") then Some ragged_csv else None.

Lemma load_transactions_count_witness :
  ∃ txns,
    load_transactions ragged_fs (chars "data/ragged.csv") = Return txns ∧
    length txns = 2.
Proof.
  apply (load_transactions_count ragged_fs (chars "data/ragged.csv") [CR; LF] false
           (chars "1,X") [chars "1,A,B"; []; chars "no items here"; chars "2,A"]).
  - reflexivity.
  - right. by left.
  - reflexivity.
  - apply (bool_decide_unpack _). by vm_compute.
Defined.

(** *** Paths *)

Lemma rfind_None c s : rfind c s = None ↔ c ∉ s.
Proof.
  induction s as [|x s IH]; simpl; [by split; [intros _; apply not_elem_of_nil|]|].
  rewrite not_elem_of_cons. destruct (rfind c s) as [i|].
  - split; [done|]. intros [_ Hs]. by apply IH in Hs.
  - destruct (decide (x = c)) as [->|Hne]; [by split; [|intros [? _]]|].
    split; [|done]. intros _. split; [done|]. by apply IH.
Qed.

Lemma rfind_app c a b : c ∉ b → rfind c (a ++ c :: b) = Some (length a).
Proof.
  intros Hb. induction a as [|x a IH]; simpl.
  - rewrite (proj2 (rfind_None c b) Hb). by rewrite decide_True.
  - by rewrite IH.
Qed.

Lemma rfind_Some c s i : rfind c s = Some i → (c ∉ drop (S i) s) ∧ i < length s.
Proof.
  revert i. induction s as [|x s IH]; intros i; simpl; [done|].
  destruct (rfind c s) as [j|] eqn:E.
  - intros [= <-]. destruct (IH j eq_refl). split; [done|lia].
  - destruct (decide (x = c)); [|done]. intros [= <-]. simpl.
    split; [by apply rfind_None|lia].
Qed.

Lemma basename_no_slash p : slash ∉ basename p.
Proof.
  unfold basename. destruct (rfind slash p) as [i|] eqn:E; simpl.
  - by apply rfind_Some in E as [? _].
  - by apply rfind_None.
Qed.

(** X12. The name of a data set holds no separator: it is a single component
    of a path. *)
Theorem dataset_name_single_component (path : list ascii) :
  slash ∉ dataset_name_from_path path.
Proof.
  unfold dataset_name_from_path, splitext.
  pose proof (basename_no_slash path) as Hbase.
  destruct (rfind dot (basename path)) as [dotIndex|]; [|done].
  destruct (decide _); [|done]. destruct (existsb _ _); [|done].
  intros Hin. apply Hbase. eapply elem_of_sublist; [exact Hin|apply sublist_take].
Qed.

(** X13. For a file [name.ext] in a directory, the name of the data set is
    [name], unless [name] is empty or made of dots only: then it is the
    whole [name.ext]. *)
Theorem dataset_name_of_file (dir name ext : list ascii) :
  dir = [] ∨ last dir = Some slash →
  slash ∉ name → slash ∉ ext → dot ∉ ext →
  ((∃ c, c ∈ name ∧ c ≠ dot) →
   dataset_name_from_path (dir ++ name ++ dot :: ext) = name) ∧
  ((∀ c, c ∈ name → c = dot) →
   dataset_name_from_path (dir ++ name ++ dot :: ext) = name ++ dot :: ext).
Proof.
  intros Hdir Hname Hext Hdot.
  assert (slash ∉ name ++ dot :: ext) as Hbase.
  { rewrite elem_of_app, elem_of_cons. intros [?|[E|?]]; done. }
  assert (basename (dir ++ name ++ dot :: ext) = name ++ dot :: ext) as Eb.
  { unfold basename. destruct Hdir as [->|Hlast].
    - simpl. by rewrite (proj2 (rfind_None _ _) Hbase).
    - apply last_Some in Hlast as [dir' ->]. rewrite <- app_assoc. simpl.
      rewrite rfind_app by done. simpl.
      change (dir' ++ slash :: name ++ dot :: ext)
        with (dir' ++ [slash] ++ (name ++ dot :: ext)).
      rewrite app_assoc.
      replace (S (length dir')) with (length (dir' ++ [slash]))
        by (rewrite length_app; simpl; lia).
      by rewrite drop_app_length. }
  unfold dataset_name_from_path. rewrite Eb. unfold splitext.
  rewrite (proj2 (rfind_None _ _) Hbase), rfind_app by done. simpl.
  rewrite Nat.sub_0_r, drop_0, take_app_length.
  split.
  - intros (c & Hc & Hne).
    assert (existsb (λ c, negb (bool_decide (c = dot))) name = true) as ->.
    { apply existsb_exists. exists c. split; [by apply list_elem_of_In|].
      by rewrite bool_decide_false. }
    done.
  - intros Hall.
    assert (existsb (λ c, negb (bool_decide (c = dot))) name = false) as ->; [|done].
    apply not_true_is_false. intros (c & Hc%list_elem_of_In & Hne)%existsb_exists.
    rewrite (Hall c Hc), bool_decide_true in Hne by done. done.
Qed.

Lemma dataset_name_of_file_witness :
  dataset_name_from_path (chars "data/supermarket.csv") = chars "supermarket" ∧
  dataset_name_from_path (chars "data/.csv") = chars ".csv".
Proof.
  split.
  - apply (dataset_name_of_file (chars "data/") (chars "supermarket") (chars "csv"));
      [by right|apply (bool_decide_unpack _); by vm_compute..|].
    exists (Ascii.ascii_of_nat 115). split; apply (bool_decide_unpack _); by vm_compute.
  - apply (dataset_name_of_file (chars "data/") [] (chars "csv"));
      [by right|apply (bool_decide_unpack _); by vm_compute..|].
    by intros c ?%elem_of_nil.
Defined.

(** *** The one-hot frame *)

(** The row of a transaction over the columns [U]. *)
Definition one_hot_row (U : list string) (txn : transaction) : gmap string nat :=
  foldl (λ row item, <[item := if bool_decide (item ∈ txn) then 1 else 0]> row) ∅ U.

Lemma foldl_insert_lookup (f : string → nat) (U : list string) (m : gmap string nat) c :
  foldl (λ row item, <[item := f item]> row) m U !! c
  = if decide (c ∈ U) then Some (f c) else m !! c.
Proof.
  revert m. induction U as [|x U IH]; intros m; cbn [foldl].
  { by rewrite decide_False by apply not_elem_of_nil. }
  rewrite IH. destruct (decide (c ∈ U)) as [Hc|Hc].
  - by rewrite decide_True by by right.
  - destruct (decide (c = x)) as [->|Hne].
    + rewrite lookup_insert_eq. by rewrite decide_True by left.
    + rewrite lookup_insert_ne by done.
      rewrite decide_False; [done|]. by intros [?|?]%elem_of_cons.
Qed.

Lemma one_hot_row_lookup U txn c :
  one_hot_row U txn !! c
  = if decide (c ∈ U) then Some (if bool_decide (c ∈ txn) then 1 else 0) else None.
Proof.
  unfold one_hot_row.
  rewrite (foldl_insert_lookup (λ item, if bool_decide (item ∈ txn) then 1 else 0)).
  by destruct (decide (c ∈ U)).
Qed.

Lemma one_hot_data U (transactions : list transaction) data :
  foldl (λ data txn, data ++ [one_hot_row U txn]) data transactions
  = data ++ (one_hot_row U <$> transactions).
Proof.
  revert data. induction transactions as [|txn ts IH]; intros data; simpl.
  { by rewrite app_nil_r. }
  by rewrite IH, <- app_assoc.
Qed.

Lemma one_hot_encode_eq h transactions :
  one_hot_encode h transactions
  = {| df_columns := unique_items h transactions;
       df_rows := (λ txn, filter (λ kv, kv.1 ∈ unique_items h transactions)
                            (one_hot_row (unique_items h transactions) txn))
                  <$> transactions |}.
Proof.
  unfold one_hot_encode, DataFrame_of_dicts. fold (unique_items h transactions).
  f_equal.
  change (foldl _ [] transactions)
    with (foldl (λ data txn, data ++ [one_hot_row (unique_items h transactions) txn])
            [] transactions).
  rewrite (one_hot_data _ _ []). simpl. by rewrite <- list_fmap_compose.
Qed.

Lemma one_hot_cell U txn c :
  filter (λ kv : string * nat, kv.1 ∈ U) (one_hot_row U txn) !! c
  = if decide (c ∈ U) then Some (if bool_decide (c ∈ txn) then 1 else 0) else None.
Proof.
  destruct (decide (c ∈ U)) as [Hc|Hc].
  - apply map_lookup_filter_Some. split; [|done].
    by rewrite one_hot_row_lookup, decide_True.
  - apply map_lookup_filter_None. left.
    by rewrite one_hot_row_lookup, decide_False.
Qed.

Lemma StronglySorted_filter {A} (R : relation A) (P : A → Prop)
    `{∀ x, Decision (P x)} l :
  StronglySorted R l → StronglySorted R (filter P l).
Proof.
  induction 1 as [|x l Hl IH Hx]; [constructor|].
  rewrite filter_cons. destruct (decide (P x)); [|done].
  constructor; [done|]. rewrite Forall_forall in Hx |- *.
  intros y [_ Hy]%list_elem_of_filter. auto.
Qed.

(** X14. The frame has one column per distinct item, in ascending order, and
    one row per transaction, in order; every cell of a row holds 0 or 1,
    never nothing; and the columns that hold 1 are the distinct items of the
    transaction, in ascending order. *)
Theorem one_hot_encode_cells (h : set_order) (transactions : list transaction) :
  let df := one_hot_encode h transactions in
  df_columns df = unique_items h transactions ∧
  Forall2
    (λ txn row,
       (∀ c, row !! c = if decide (c ∈ df_columns df)
                        then Some (if decide (c ∈ txn) then 1 else 0)
                        else None) ∧
       filter (λ c, row !! c = Some 1) (df_columns df)
       = sorted (tuple_of h (list_to_set txn)))
    transactions (df_rows df).
Proof.
  rewrite one_hot_encode_eq. simpl. split; [done|].
  apply Forall2_fmap_r, Forall_Forall2_diag, Forall_forall.
  intros txn Hin. split.
  - intros c. rewrite one_hot_cell. destruct (decide (c ∈ _)); [|done].
    by destruct (decide (c ∈ txn)); [rewrite bool_decide_true|rewrite bool_decide_false].
  - apply (StronglySorted_unique str_le).
    + apply StronglySorted_filter.
      rewrite unique_items_eq. apply sorted_StronglySorted.
    + apply sorted_StronglySorted.
    + apply NoDup_Permutation.
      * apply NoDup_filter, unique_items_NoDup.
      * rewrite sorted_Permutation. apply NoDup_tuple_of.
      * intros c. rewrite list_elem_of_filter, one_hot_cell, sorted_Permutation,
          tuple_of_perm, elem_of_elements, elem_of_list_to_set.
        split.
        -- intros [Hc _]. destruct (decide (c ∈ _)); [|done].
           destruct (decide (c ∈ txn)); [done|].
           by rewrite bool_decide_false in Hc.
        -- intros Hc.
           assert (c ∈ unique_items h transactions) as HcU
             by (apply elem_of_unique_items; eauto).
           split; [|done]. by rewrite decide_True, bool_decide_true.
Qed.

(** X15. The rows of the frame that hold 1 in every column of an itemset are
    as many as the transactions that [_support_count] counts for it. *)
Theorem one_hot_encode_support (h : set_order) (transactions : list transaction)
    (itemset : frozenset) :
  length (filter (λ row : gmap string nat,
                    set_Forall (λ c, row !! c = Some 1) itemset)
            (df_rows (one_hot_encode h transactions)))
  = _support_count transactions itemset.
Proof.
  rewrite one_hot_encode_eq, _support_count_filter. simpl.
  set (U := unique_items h transactions).
  assert (∀ txn, txn ∈ transactions → ∀ c, c ∈ txn → c ∈ U) as HU.
  { intros txn Htxn c Hc. apply elem_of_unique_items. eauto. }
  clearbody U. induction transactions as [|txn ts IH]; [done|].
  rewrite fmap_cons, !filter_cons.
  specialize (IH ltac:(intros ???; eapply HU; by right)).
  assert (set_Forall (λ c, filter (λ kv : string * nat, kv.1 ∈ U)
                             (one_hot_row U txn) !! c = Some 1) itemset
          ↔ itemset ⊆ list_to_set txn) as Hiff.
  { split.
    - intros Hall c Hc. specialize (Hall c Hc). simpl in Hall.
      rewrite one_hot_cell in Hall.
      destruct (decide (c ∈ U)); [|done].
      apply elem_of_list_to_set.
      destruct (decide (c ∈ txn)); [done|].
      by rewrite bool_decide_false in Hall.
    - intros Hsub c Hc. apply Hsub, elem_of_list_to_set in Hc. simpl.
      rewrite one_hot_cell, decide_True, bool_decide_true; [done..|].
      eapply HU; [left|done]. }
  destruct (decide (set_Forall _ itemset)) as [H1|H1],
    (decide (itemset ⊆ list_to_set txn)) as [H2|H2]; simpl; rewrite ?IH; try done.
  - destruct H2. by apply Hiff.
  - destruct H1. by apply Hiff.
Qed.

(** ** The prompt: [src/run_all.py] *)

Lemma stdin_print_names (names : list (nat * string)) w :
  stdin (foldl (λ w '(idx, name),
                  print (chars "  " ++ chars (pretty idx) ++ chars ". " ++ chars name) w)
           w names)
  = stdin w.
Proof.
  revert w. induction names as [|[idx name] names IH]; intros w; [done|].
  simpl. by rewrite IH.
Qed.

Section PromptFacts.
Context `{PyFloat}.
Variables (fone : float) (float_of_str : list ascii → option float).
Variables (isdigit : list ascii → bool) (int_of_str : list ascii → option Z).
Variable listdir_data : option (list string).

Lemma read_threshold_valid prompt lines out x w :
  read_threshold fone float_of_str prompt lines out = Return (x, w) →
  py_lt fzero x = true ∧ py_ge fone x = true ∧ stdin w `suffix_of` lines.
Proof.
  revert out. induction lines as [|line rest IH]; intros out; simpl; [done|].
  assert (∀ out', read_threshold fone float_of_str prompt rest out' = Return (x, w) →
            py_lt fzero x = true ∧ py_ge fone x = true ∧
            stdin w `suffix_of` line :: rest) as IH'.
  { intros out' Hr. destruct (IH _ Hr) as (? & ? & ?).
    split_and!; [done..|]. by apply suffix_cons_r. }
  destruct (float_of_str (strip line)) as [y|]; [|by apply IH'].
  destruct (py_lt fzero y && py_ge fone y) eqn:E; [|by apply IH'].
  intros [= <- <-]. apply andb_true_iff in E as [? ?]. simpl.
  split_and!; [done..|]. by apply suffix_cons_r.
Qed.

Lemma endswith_csv (f : string) :
  endswith (chars f) (chars ".csv") = true →
  take (length (chars f) - 4) (chars f) ++ chars ".csv" = chars f.
Proof.
  unfold endswith. intros [_ E]%bool_decide_eq_true.
  change (length (chars ".csv")) with 4 in E.
  rewrite <- E at 1. apply take_drop.
Qed.

Lemma select_dataset_listed w path w' :
  select_dataset isdigit int_of_str listdir_data w = Return (path, w') →
  ∃ files f,
    listdir_data = Some files ∧ f ∈ files ∧
    endswith (chars f) (chars ".csv") = true ∧
    path = chars "data/" ++ chars f.
Proof.
  unfold select_dataset. destruct listdir_data as [files|]; [|done].
  set (datasets := dataset_names files). destruct (decide (datasets = [])); [done|].
  destruct (input _ _) as [[line w1]|]; [|done]. cbn [mbind io_result_bind].
  intros Hsel.
  assert (∀ name, name ∈ datasets →
            ∃ f, f ∈ files ∧ endswith (chars f) (chars ".csv") = true ∧
                 chars name ++ chars ".csv" = chars f) as Hnames.
  { intros name. unfold datasets, dataset_names. rewrite sorted_Permutation.
    intros (f & -> & [Hf Hin]%list_elem_of_filter)%list_elem_of_fmap.
    exists f. split_and!; [done..|]. rewrite chars_str. by apply endswith_csv. }
  assert (∃ name, name ∈ datasets ∧
                  path = chars "data/" ++ chars name ++ chars ".csv") as (name & Hin & ->).
  { destruct (isdigit (strip line)).
    - destruct (int_of_str (strip line)) as [i|]; [|done].
      destruct (decide _); [done|].
      destruct (datasets !! Z.to_nat (i - 1)) as [name|] eqn:E; [|done].
      cbn [mbind io_result_bind] in Hsel. injection Hsel as <- _.
      exists name. split; [by eapply list_elem_of_lookup_2|done].
    - destruct (decide (str (strip line) ∈ datasets)); [|done].
      cbn [mbind io_result_bind] in Hsel. injection Hsel as <- _.
      eexists. split; [done|done]. }
  destruct (Hnames name Hin) as (f & Hf & Hcsv & E).
  exists files, f. split_and!; [done..|]. by rewrite E.
Qed.

Lemma read_threshold_outcome prompt lines out :
  read_threshold fone float_of_str prompt lines out = Throw EOFError ∨
  ∃ x w, read_threshold fone float_of_str prompt lines out = Return (x, w) ∧
         stdin w `suffix_of` lines.
Proof.
  revert out. induction lines as [|line rest IH]; intros out; simpl; [by left|].
  assert (∀ out',
            read_threshold fone float_of_str prompt rest out' = Throw EOFError ∨
            ∃ x w, read_threshold fone float_of_str prompt rest out' = Return (x, w) ∧
                   stdin w `suffix_of` line :: rest) as IH'.
  { intros out'. destruct (IH out') as [?|(x & w & ? & ?)]; [by left|right].
    exists x, w. split; [done|]. by apply suffix_cons_r. }
  destruct (float_of_str (strip line)) as [y|]; [|by apply IH'].
  destruct (py_lt fzero y && py_ge fone y); [|by apply IH'].
  right. eexists _, _. split; [done|]. simpl. by apply suffix_cons_r.
Qed.

Lemma select_dataset_by_number files line rest out path w' :
  isdigit (strip line) = true →
  select_dataset isdigit int_of_str (Some files)
    {| stdin := line :: rest; stdout := out |} = Return (path, w') →
  ∃ i name,
    int_of_str (strip line) = Some i ∧
    (1 ≤ i ≤ Z.of_nat (length (dataset_names files)))%Z ∧
    dataset_names files !! Z.to_nat (i - 1) = Some name ∧
    path = chars "data/" ++ chars name ++ chars ".csv".
Proof.
  intros Hdigit. unfold select_dataset.
  destruct (decide (dataset_names files = [])); [done|].
  unfold input. rewrite stdin_print_names. cbn [stdin print mbind io_result_bind].
  rewrite Hdigit. destruct (int_of_str (strip line)) as [i|]; [|done].
  destruct (decide _) as [|Hi]; [done|].
  destruct (dataset_names files !! Z.to_nat (i - 1)) as [name|] eqn:E; [|done].
  cbn [mbind io_result_bind]. intros [= <- _].
  exists i, name. split_and!; [done|lia|lia|done..].
Qed.

End PromptFacts.

(** X16. A threshold that [prompt_for_missing_args] asked for lies in (0,
    1]: the loop goes on until the typed number does.  A threshold that was
    passed in is handed back as it is, unchecked. *)
Theorem prompt_thresholds `{PyFloat} (fone : float)
    (float_of_str : list ascii → option float) (isdigit : list ascii → bool)
    (int_of_str : list ascii → option Z) (listdir_data : option (list string))
    (data : option (list ascii)) (minsup minconf : option float) (w : console)
    (path : list ascii) (s c : float) (w' : console) :
  prompt_for_missing_args fone float_of_str isdigit int_of_str listdir_data
    data minsup minconf w = Return (path, s, c, w') →
  match minsup with
  | Some x => s = x
  | None => py_lt fzero s = true ∧ py_ge fone s = true
  end ∧
  match minconf with
  | Some x => c = x
  | None => py_lt fzero c = true ∧ py_ge fone c = true
  end.
Proof.
  unfold prompt_for_missing_args.
  destruct (match data with Some (_ :: _) => _ | _ => _ end) as [[d w1]|]; [|done].
  cbn [mbind io_result_bind].
  destruct (match minsup with Some _ => _ | None => _ end) as [[s' w2]|] eqn:Es;
    [|done].
  cbn [mbind io_result_bind].
  destruct (match minconf with Some _ => _ | None => _ end) as [[c' w3]|] eqn:Ec;
    [|done].
  cbn [mbind io_result_bind]. intros [= <- <- <- <-]. split.
  - destruct minsup; [by injection Es as <- _|].
    by apply read_threshold_valid in Es as (? & ? & _).
  - destruct minconf; [by injection Ec as <- _|].
    by apply read_threshold_valid in Ec as (? & ? & _).
Qed.

(** [float], [str.isdigit] and [int] on the few texts that are typed below. *)
Definition typed_float (s : list ascii) : option spec_float :=
  if decide (s = chars "0.5") then Some b64_0_5
  else if decide (s = chars "1.5") then
    Some (S754_finite false 6755399441055744 (-52))
  else None.

Definition typed_isdigit (s : list ascii) : bool := bool_decide (s = chars "2").

Definition typed_int (s : list ascii) : option Z :=
  if decide (s = chars "2") then Some 2%Z else None.

Definition typed : console :=
  {| stdin := [chars " 2 "; chars "half"; chars "1.5"; chars "0.5"; chars "0.5"];
     stdout := [] |}.

(** The files that [os.listdir("data")] lists. *)
Definition listed : option (list string) :=
  Some ["b.csv"; "notes.txt"; "a.csv"; "c.csv"].

Lemma prompt_thresholds_witness :
  (@py_lt binary64 (S754_zero false) b64_0_5 = true ∧
   @py_ge binary64 b64_1_0 b64_0_5 = true) ∧
  b64_0_6 = b64_0_6.
Proof.
  eapply (prompt_thresholds (H:=binary64) b64_1_0 typed_float typed_isdigit
            typed_int listed None None (Some b64_0_6) typed).
  reflexivity.
Defined.

(** X17. A path that was passed in and is not empty is handed back as it is.
    Otherwise the returned path is ["data/"] followed by the name of a file
    that [os.listdir("data")] lists and that ends in [".csv"]. *)
Theorem prompt_dataset `{PyFloat} (fone : float)
    (float_of_str : list ascii → option float) (isdigit : list ascii → bool)
    (int_of_str : list ascii → option Z) (listdir_data : option (list string))
    (data : option (list ascii)) (minsup minconf : option float) (w : console)
    (path : list ascii) (s c : float) (w' : console) :
  prompt_for_missing_args fone float_of_str isdigit int_of_str listdir_data
    data minsup minconf w = Return (path, s, c, w') →
  match data with
  | Some (x :: given) => path = x :: given
  | _ =>
      ∃ files f,
        listdir_data = Some files ∧ f ∈ files ∧
        endswith (chars f) (chars ".csv") = true ∧
        path = chars "data/" ++ chars f
  end.
Proof.
  unfold prompt_for_missing_args.
  destruct (match data with Some (_ :: _) => _ | _ => _ end) as [[d w1]|] eqn:Ed;
    [|done].
  cbn [mbind io_result_bind].
  destruct (match minsup with Some _ => _ | None => _ end) as [[s' w2]|]; [|done].
  cbn [mbind io_result_bind].
  destruct (match minconf with Some _ => _ | None => _ end) as [[c' w3]|]; [|done].
  cbn [mbind io_result_bind]. intros [= <- <- <- <-].
  destruct data as [[|x given]|].
  - by eapply select_dataset_listed.
  - by injection Ed as <- _.
  - by eapply select_dataset_listed.
Qed.

Lemma prompt_dataset_witness :
  ∃ files f,
    listed = Some files ∧ f ∈ files ∧
    endswith (chars f) (chars ".csv") = true ∧
    chars "data/b.csv" = chars "data/" ++ chars f.
Proof.
  eapply (prompt_dataset (H:=binary64) b64_1_0 typed_float typed_isdigit
            typed_int listed None None (Some b64_0_6) typed).
  reflexivity.
Defined.

(** X19. A selection that [str.isdigit] accepts is taken as a number, never
    as a name: the data set returned is the one at that position in the
    sorted list of names, also when a data set of that very name is listed. *)
Theorem prompt_number_before_name `{PyFloat} (fone : float)
    (float_of_str : list ascii → option float) (isdigit : list ascii → bool)
    (int_of_str : list ascii → option Z) (files : list string)
    (minsup minconf : option float) (line : list ascii)
    (rest out : list (list ascii))
    (path : list ascii) (s c : float) (w' : console) :
  isdigit (strip line) = true →
  prompt_for_missing_args fone float_of_str isdigit int_of_str (Some files)
    None minsup minconf {| stdin := line :: rest; stdout := out |}
  = Return (path, s, c, w') →
  ∃ i name,
    int_of_str (strip line) = Some i ∧
    (1 ≤ i ≤ Z.of_nat (length (dataset_names files)))%Z ∧
    dataset_names files !! Z.to_nat (i - 1) = Some name ∧
    path = chars "data/" ++ chars name ++ chars ".csv".
Proof.
  intros Hdigit. unfold prompt_for_missing_args.
  destruct (select_dataset _ _ _ _) as [[d w1]|] eqn:Ed; [|done].
  cbn [mbind io_result_bind].
  destruct (match minsup with Some _ => _ | None => _ end) as [[s' w2]|]; [|done].
  cbn [mbind io_result_bind].
  destruct (match minconf with Some _ => _ | None => _ end) as [[c' w3]|]; [|done].
  cbn [mbind io_result_bind]. intros [= <- <- <- <-].
  by eapply select_dataset_by_number.
Qed.

(** A directory where one data set is named by a number. *)
Definition numbered : list string := ["2.csv"; "b.csv"; "a.csv"].

Lemma prompt_number_before_name_witness :
  ∃ i name,
    typed_int (strip (chars " 2 ")) = Some i ∧
    (1 ≤ i ≤ Z.of_nat (length (dataset_names numbered)))%Z ∧
    dataset_names numbered !! Z.to_nat (i - 1) = Some name ∧
    chars "data/a.csv" = chars "data/" ++ chars name ++ chars ".csv".
Proof.
  eapply (prompt_number_before_name (H:=binary64) b64_1_0 typed_float typed_isdigit
            typed_int numbered None (Some b64_0_6) (chars " 2 ")
            [chars "half"; chars "1.5"; chars "0.5"; chars "0.5"] []).
  - reflexivity.
  - reflexivity.
Defined.

(** X20. With a path passed in, [prompt_for_missing_args] returns that path,
    or raises [EOFError] because the input ended, and nothing else: a text
    that is no number, and a number outside (0, 1], are asked again and are
    no error.  The lines left to be typed afterwards are the last ones of
    those before. *)
Theorem prompt_thresholds_outcome `{PyFloat} (fone : float)
    (float_of_str : list ascii → option float) (isdigit : list ascii → bool)
    (int_of_str : list ascii → option Z) (listdir_data : option (list string))
    (x : ascii) (given : list ascii) (minsup minconf : option float) (w : console) :
  prompt_for_missing_args fone float_of_str isdigit int_of_str listdir_data
    (Some (x :: given)) minsup minconf w = Throw EOFError ∨
  ∃ s c w',
    prompt_for_missing_args fone float_of_str isdigit int_of_str listdir_data
      (Some (x :: given)) minsup minconf w = Return (x :: given, s, c, w') ∧
    stdin w' `suffix_of` stdin w.
Proof.
  unfold prompt_for_missing_args. cbn [mbind io_result_bind].
  assert (∀ (m : option float) prompt w1,
            match m with
            | Some y => Return (y, w1)
            | None => read_threshold fone float_of_str prompt (stdin w1) (stdout w1)
            end = Throw EOFError ∨
            ∃ y w2,
              match m with
              | Some y => Return (y, w1)
              | None => read_threshold fone float_of_str prompt (stdin w1) (stdout w1)
              end = Return (y, w2) ∧ stdin w2 `suffix_of` stdin w1) as Hstep.
  { intros [y|] prompt w1; [right; by eexists _, _|].
    apply read_threshold_outcome. }
  destruct (Hstep minsup (chars "Enter minsup (0-1): ") w) as [->|(s & w1 & -> & H1)];
    [by left|].
  cbn [mbind io_result_bind].
  destruct (Hstep minconf (chars "Enter minconf (0-1): ") w1) as [->|(c & w2 & -> & H2)];
    [by left|].
  cbn [mbind io_result_bind]. right. exists s, c, w2. split; [done|]. by etrans.
Qed.
